(** * Autolink (packages/ckeditor5-link/src/autolink.js)

    A shallow embedding of the autolink plugin: the URL pattern
    [URL_REG_EXP] with the backtracking semantics of ECMAScript regular
    expressions, the text predicates [isSingleSpaceAtTheEnd] and
    [getUrlAtTextEnd], and the controller methods that decide whether a
    detected match becomes a link. *)

From Stdlib Require Import NArith ZArith Bool Arith Lia String Ascii List.
Import ListNotations.

(** ** JavaScript strings

    A JavaScript string is a sequence of UTF-16 code units; [text.length]
    counts code units and [text[i]] is the code unit at index [i]
    ([undefined] out of range). *)

Definition CodeUnit := N.
Definition JSString := list CodeUnit.

(** An ASCII literal as a JavaScript string. *)
Definition js (s : string) : JSString :=
  map N_of_ascii (list_ascii_of_string s).

(** The code unit of an ASCII character. *)
Definition cu (a : ascii) : CodeUnit := N_of_ascii a.

(** [text.substring(from, to)] for [from <= to]. *)
Definition substring (text : JSString) (from to : nat) : JSString :=
  firstn (to - from) (skipn from text).

(** [text.substr(0, n)]. *)
Definition substr0 (text : JSString) (n : nat) : JSString := firstn n text.

(** [text[i]]: [None] stands for [undefined]. *)
Definition charAt (text : JSString) (i : Z) : option CodeUnit :=
  if (i <? 0)%Z then None else nth_error text (Z.to_nat i).

(** ** ECMAScript regular expressions (the part the pattern uses) *)

Module RegExp.

Local Open Scope N_scope.

(** A set of code units, as its membership test. *)
Definition CharSet := CodeUnit -> bool.

Definition single (c : ascii) : CharSet := fun x => N.eqb x (cu c).
Definition range (lo hi : CodeUnit) : CharSet :=
  fun x => (N.leb lo x && N.leb x hi)%bool.
Definition arange (lo hi : ascii) : CharSet := range (cu lo) (cu hi).
Definition union (sets : list CharSet) : CharSet :=
  fun x => existsb (fun A => A x) sets.

(** LineTerminator: LF, CR, LS, PS. *)
Definition isLineTerminator : CharSet :=
  fun x => (N.eqb x 10 || N.eqb x 13 || N.eqb x 8232 || N.eqb x 8233)%bool.

(** WhiteSpace and LineTerminator, the set of [\s]: TAB, VT, FF, SP,
    NBSP, ZWNBSP, the space separators (Zs) and the line terminators. *)
Definition isWhiteSpace : CharSet :=
  fun x => (N.eqb x 9 || N.eqb x 11 || N.eqb x 12 || N.eqb x 32
            || N.eqb x 160 || N.eqb x 5760 || range 8192 8202 x
            || N.eqb x 8239 || N.eqb x 8287 || N.eqb x 12288
            || N.eqb x 65279 || isLineTerminator x)%bool.

(** [\d], [\s], [\S] and [.] (without the [s] flag). *)
Definition digit : CharSet := arange "0" "9".
Definition space : CharSet := isWhiteSpace.
Definition nonSpace : CharSet := fun x => negb (isWhiteSpace x).
Definition anyChar : CharSet := fun x => negb (isLineTerminator x).

Inductive Regex : Type :=
| Chars (A : CharSet)                  (* a character, class or escape *)
| LineStart                            (* ^ *)
| LineEnd                              (* $ *)
| Seq (r1 r2 : Regex)                  (* r1 r2 *)
| Alt (r1 r2 : Regex)                  (* r1|r2 *)
| Quant (r : Regex) (min : nat) (max : option nat)
                                       (* greedy r{min,max}; None is infinity *)
| Group (n : nat) (r : Regex)          (* the n-th capturing group *)
| NegLookahead (r : Regex).            (* (?!r) *)

(** The capturing groups inside a pattern. *)
Fixpoint groupsOf (r : Regex) : list nat :=
  match r with
  | Chars _ | LineStart | LineEnd => []
  | Seq r1 r2 | Alt r1 r2 => groupsOf r1 ++ groupsOf r2
  | Quant r _ _ => groupsOf r
  | Group n r => n :: groupsOf r
  | NegLookahead r => groupsOf r
  end.

(** A match state: the index reached in the input, the input from that
    index on, and the captures (start and end index of each group that
    took part). *)
Local Close Scope N_scope.

Record MatchState : Type := mkState {
  endIndex : nat;
  rest : JSString;
  captures : nat -> option (nat * nat)
}.

Definition noCaptures : nat -> option (nat * nat) := fun _ => None.

Definition setCapture (n : nat) (v : nat * nat) (x : MatchState) : MatchState :=
  mkState (endIndex x) (rest x)
          (fun k => if Nat.eqb k n then Some v else captures x k).

Definition clearCaptures (ns : list nat) (x : MatchState) : MatchState :=
  mkState (endIndex x) (rest x)
          (fun k => if existsb (Nat.eqb k) ns then None else captures x k).

Definition MatchResult := option MatchState.
Definition Continuation := MatchState -> MatchResult.
Definition Matcher := MatchState -> Continuation -> MatchResult.

(** Canonicalize, for the [i] flag.  The pattern's letters are ASCII and
    its only non-ASCII class members are the whole range U+00A1..U+FFFF;
    Canonicalize never maps a non-ASCII code unit to an ASCII one, so on
    this pattern case folding is observable on ASCII letters only. *)
Definition isLower (x : CodeUnit) : bool := (N.leb 97%N x && N.leb x 122%N)%bool.
Definition isUpper (x : CodeUnit) : bool := (N.leb 65%N x && N.leb x 90%N)%bool.

Definition Canonicalize (ignoreCase : bool) (x : CodeUnit) : CodeUnit :=
  if (ignoreCase && isLower x)%bool then (x - 32)%N else x.

(** The code units whose canonical form is that of [x]. *)
Definition canonicalClass (ignoreCase : bool) (x : CodeUnit) : list CodeUnit :=
  if ignoreCase then
    if isLower x then [x; (x - 32)%N]
    else if isUpper x then [x; (x + 32)%N]
    else [x]
  else [x].

(** CharacterSetMatcher: fail at the end of the input; otherwise the
    current code unit must have the canonical form of a member of [A]. *)
Definition CharacterSetMatcher (ignoreCase : bool) (A : CharSet) : Matcher :=
  fun x c =>
    match rest x with
    | [] => None
    | ch :: t =>
        if existsb A (canonicalClass ignoreCase ch)
        then c (mkState (S (endIndex x)) t (captures x))
        else None
    end.

(** RepeatMatcher for a greedy quantifier.  [budget] is the number of
    iterations still allowed ([max]); for an unbounded quantifier it is
    [min] plus the length of the input left, which no run exceeds since
    every iteration after the [min]-th must consume input. *)
Fixpoint RepeatMatcher (m : Matcher) (parens : list nat)
         (min budget : nat) (x : MatchState) (c : Continuation) : MatchResult :=
  match budget with
  | O => c x
  | S budget' =>
      let d : Continuation := fun y =>
        if (Nat.eqb min 0 && Nat.eqb (endIndex y) (endIndex x))%bool then None
        else RepeatMatcher m parens (Nat.pred min) budget' y c in
      let xr := clearCaptures parens x in
      if Nat.eqb min 0 then
        match m xr d with
        | Some z => Some z
        | None => c x
        end
      else m xr d
  end.

Definition budgetOf (min : nat) (max : option nat) (x : MatchState) : nat :=
  match max with
  | Some k => k
  | None => min + length (rest x)
  end.

Definition accept : Continuation := fun y => Some y.

Fixpoint compile (ignoreCase : bool) (r : Regex) : Matcher :=
  match r with
  | Chars A => CharacterSetMatcher ignoreCase A
  | LineStart => fun x c => if Nat.eqb (endIndex x) 0 then c x else None
  | LineEnd => fun x c => match rest x with [] => c x | _ :: _ => None end
  | Seq r1 r2 => fun x c =>
      compile ignoreCase r1 x (fun y => compile ignoreCase r2 y c)
  | Alt r1 r2 => fun x c =>
      match compile ignoreCase r1 x c with
      | Some z => Some z
      | None => compile ignoreCase r2 x c
      end
  | Quant r0 min max => fun x c =>
      RepeatMatcher (compile ignoreCase r0) (groupsOf r0)
                    min (budgetOf min max x) x c
  | Group n r0 => fun x c =>
      compile ignoreCase r0 x
              (fun y => c (setCapture n (endIndex x, endIndex y) y))
  | NegLookahead r0 => fun x c =>
      match compile ignoreCase r0 x accept with
      | Some _ => None
      | None => c x
      end
  end.

(** RegExpBuiltinExec for a pattern without the [g] and [y] flags: try
    each start index from 0 to the length of the input, in order. *)
Fixpoint execFrom (m : Matcher) (i : nat) (input : JSString) : MatchResult :=
  match m (mkState i input noCaptures) accept with
  | Some z => Some z
  | None =>
      match input with
      | [] => None
      | _ :: t => execFrom m (S i) t
      end
  end.

Record RegExpObject : Type := mkRegExp {
  source : Regex;
  ignoreCase : bool
}.

Definition exec (re : RegExpObject) (text : JSString) : MatchResult :=
  execFrom (compile (ignoreCase re) (source re)) 0 text.

(** [match[n]] on the result of [exec]. *)
Definition group (text : JSString) (z : MatchState) (n : nat) : option JSString :=
  match captures z n with
  | Some (s, e) => Some (substring text s e)
  | None => None
  end.

(** Pattern syntax. *)
Definition lit (c : ascii) : Regex := Chars (single c).
(** A literal; the empty one matches the empty word. *)
Fixpoint str (s : string) : Regex :=
  match s with
  | String c EmptyString => lit c
  | String c s' => Seq (lit c) (str s')
  | EmptyString => Quant (lit "x") 0 (Some 0)
  end.
(** Concatenation and alternation of several parts (the alternation of
    none never matches). *)
Fixpoint seq (rs : list Regex) : Regex :=
  match rs with
  | [] => str ""
  | [r] => r
  | r :: rs' => Seq r (seq rs')
  end.
Fixpoint alt (rs : list Regex) : Regex :=
  match rs with
  | [] => NegLookahead (str "")
  | [r] => r
  | r :: rs' => Alt r (alt rs')
  end.
Definition opt (r : Regex) : Regex := Quant r 0 (Some 1).       (* r? *)
Definition star (r : Regex) : Regex := Quant r 0 None.          (* r* *)
Definition plus (r : Regex) : Regex := Quant r 1 None.          (* r+ *)
Definition rep (r : Regex) (lo hi : nat) : Regex := Quant r lo (Some hi).

End RegExp.

Import RegExp.

(** ** The URL pattern *)

Definition MIN_LINK_LENGTH_WITH_SPACE_AT_END : nat := 4.

(** [[-_a-z0-9\u00a1-\uffff]] *)
Definition hostChar : CharSet :=
  union [single "-"; single "_"; arange "a" "z"; arange "0" "9";
         range 161%N 65535%N].

(** [[a-z\u00a1-\uffff]] *)
Definition tldChar : CharSet := union [arange "a" "z"; range 161%N 65535%N].

(** [[-_]] and [[/?#]] *)
Definition dashOrUnderscore : CharSet := union [single "-"; single "_"].
Definition pathStart : CharSet := union [single "/"; single "?"; single "#"].

(** [(?:(?:(?:https?|ftp):)?\/\/)] *)
Definition protocolIdentifier : Regex :=
  seq [opt (seq [Alt (seq [str "http"; opt (lit "s")]) (str "ftp"); lit ":"]);
       lit "/"; lit "/"].

(** [(?:\S+(?::\S* )?@)?] *)
Definition basicAuth : Regex :=
  opt (seq [plus (Chars nonSpace);
            opt (seq [lit ":"; star (Chars nonSpace)]);
            lit "@"]).

(** [(?:[1-9]\d?|1\d\d|2[01]\d|22[0-3])] *)
Definition ipFirstOctet : Regex :=
  alt [seq [Chars (arange "1" "9"); opt (Chars digit)];
       seq [lit "1"; Chars digit; Chars digit];
       seq [lit "2"; Chars (arange "0" "1"); Chars digit];
       seq [str "22"; Chars (arange "0" "3")]].

(** [(?:\.(?:1?\d{1,2}|2[0-4]\d|25[0-5])){2}] *)
Definition ipMiddleOctets : Regex :=
  rep (seq [lit ".";
            alt [seq [opt (lit "1"); rep (Chars digit) 1 2];
                 seq [lit "2"; Chars (arange "0" "4"); Chars digit];
                 seq [str "25"; Chars (arange "0" "5")]]])
      2 2.

(** [(?:\.(?:[1-9]\d?|1\d\d|2[0-4]\d|25[0-4]))] *)
Definition ipLastOctet : Regex :=
  seq [lit ".";
       alt [seq [Chars (arange "1" "9"); opt (Chars digit)];
            seq [lit "1"; Chars digit; Chars digit];
            seq [lit "2"; Chars (arange "0" "4"); Chars digit];
            seq [str "25"; Chars (arange "0" "4")]]].

Definition ipAddress : Regex := seq [ipFirstOctet; ipMiddleOctets; ipLastOctet].

(** [(?:[-_a-z0-9\u00a1-\uffff]{1,63}\.)] *)
Definition hostLabel : Regex := seq [rep (Chars hostChar) 1 63; lit "."].

(** [(?:[a-z\u00a1-\uffff]{2,63})] *)
Definition tld : Regex := rep (Chars tldChar) 2 63.

(** Groups 4 to 6:
    [(((?!www\.)|(www\.))(?![-_])(?:[-_a-z0-9\u00a1-\uffff]{1,63}\.)+(?:[a-z\u00a1-\uffff]{2,63}))] *)
Definition domainName : Regex :=
  Group 4 (seq [Group 5 (Alt (NegLookahead (str "www.")) (Group 6 (str "www.")));
                NegLookahead (Chars dashOrUnderscore);
                plus hostLabel;
                tld]).

(** [(?::\d{2,5})?] and [(?:[/?#]\S* )?] *)
Definition portNumber : Regex := opt (seq [lit ":"; rep (Chars digit) 2 5]).
Definition resourcePath : Regex := opt (seq [Chars pathStart; star (Chars nonSpace)]).

(** Group 3, the full form. *)
Definition fullForm : Regex :=
  Group 3 (seq [protocolIdentifier;
                basicAuth;
                Alt ipAddress domainName;
                portNumber;
                resourcePath]).

(** Groups 7 to 10, the short form:
    [((www.|(\S+@))((?![-_])(?:[-_a-z0-9\u00a1-\uffff]{1,63}\.))+(?:[a-z\u00a1-\uffff]{2,63}))];
    the dot after [www] is not escaped. *)
Definition shortForm : Regex :=
  Group 7 (seq [Group 8 (Alt (seq [str "www"; Chars anyChar])
                             (Group 9 (seq [plus (Chars nonSpace); lit "@"])));
                plus (Group 10 (seq [NegLookahead (Chars dashOrUnderscore);
                                     hostLabel]));
                tld]).

(** [new RegExp( '(^|\\s)' + '(' + ... + '|' + ... + ')$', 'i' )] *)
Definition URL_REG_EXP : RegExpObject :=
  mkRegExp (seq [Group 1 (Alt LineStart (Chars space));
                 Group 2 (Alt fullForm shortForm);
                 LineEnd])
           true.

Definition URL_GROUP_IN_MATCH : nat := 2.

(** ** The text predicates *)

Definition SPACE : CodeUnit := cu " ".

Definition eqCodeUnit (a : option CodeUnit) (b : CodeUnit) : bool :=
  match a with
  | Some x => N.eqb x b
  | None => false
  end.

(** [text.length > MIN_LINK_LENGTH_WITH_SPACE_AT_END
     && text[ text.length - 1 ] === ' ' && text[ text.length - 2 ] !== ' '] *)
Definition isSingleSpaceAtTheEnd (text : JSString) : bool :=
  (Nat.ltb MIN_LINK_LENGTH_WITH_SPACE_AT_END (length text)
   && eqCodeUnit (charAt text (Z.of_nat (length text) - 1)) SPACE
   && negb (eqCodeUnit (charAt text (Z.of_nat (length text) - 2)) SPACE))%bool.

(** [match ? match[ URL_GROUP_IN_MATCH ] : null]; [None] stands for
    [null] (and for [undefined], which group 2 never is in a match). *)
Definition getUrlAtTextEnd (text : JSString) : option JSString :=
  match exec URL_REG_EXP text with
  | Some z => group text z URL_GROUP_IN_MATCH
  | None => None
  end.

(** The test callback of the text watcher:
    [text => { if ( !isSingleSpaceAtTheEnd( text ) ) return;
               const url = getUrlAtTextEnd( text.substr( 0, text.length - 1 ) );
               if ( url ) return { url }; }].
    [None] stands for [undefined]; a string is truthy when not empty. *)
Definition truthy (s : JSString) : bool := negb (Nat.eqb (length s) 0).

Definition testCallback (text : JSString) : option JSString :=
  if negb (isSingleSpaceAtTheEnd text) then None
  else
    match getUrlAtTextEnd (substr0 text (length text - 1)) with
    | Some url => if truthy url then Some url else None
    | None => None
    end.

(** [s.includes( p )] and [s.startsWith( p )]. *)
Fixpoint startsWith (s p : JSString) : bool :=
  match p, s with
  | [], _ => true
  | _ :: _, [] => false
  | a :: p', b :: s' => N.eqb a b && startsWith s' p'
  end.

Fixpoint includes (s p : JSString) : bool :=
  startsWith s p
  || match s with
     | [] => false
     | _ :: s' => includes s' p
     end.

(** ** What a successful run of a matcher went through

    [matches r x y]: the pattern [r] can take the state [x] to the state
    [y].  Every result of [compile r x c] is a result of [c] on such a
    [y] ([compile_sound]), which is how properties of all matches are
    proved below. *)

Section Semantics.

Variable ic : bool.

(** [n] iterations of a quantified atom, its captures cleared before each. *)
Fixpoint iterate (R : MatchState -> MatchState -> Prop) (parens : list nat)
         (n : nat) (x y : MatchState) : Prop :=
  match n with
  | O => y = x
  | S n' => exists m, R (clearCaptures parens x) m /\ iterate R parens n' m y
  end.

Fixpoint matches (r : Regex) (x y : MatchState) : Prop :=
  match r with
  | Chars A =>
      exists ch t, rest x = ch :: t
                   /\ existsb A (canonicalClass ic ch) = true
                   /\ y = mkState (S (endIndex x)) t (captures x)
  | LineStart => endIndex x = 0 /\ y = x
  | LineEnd => rest x = [] /\ y = x
  | Seq r1 r2 => exists m, matches r1 x m /\ matches r2 m y
  | Alt r1 r2 => matches r1 x y \/ matches r2 x y
  | Quant r0 min max =>
      exists n, (min <= n \/ n = budgetOf min max x)
                /\ n <= budgetOf min max x
                /\ iterate (matches r0) (groupsOf r0) n x y
  | Group n r0 =>
      exists m, matches r0 x m /\ y = setCapture n (endIndex x, endIndex m) m
  | NegLookahead r0 => compile ic r0 x accept = None /\ y = x
  end.

(** A match only moves forward: [y] is [x] after consuming a word [w]. *)
Definition consumed (x y : MatchState) (w : JSString) : Prop :=
  rest x = w ++ rest y /\ endIndex y = endIndex x + length w.

(** [y] is [x] or comes after it in the same input. *)
Definition forward (x y : MatchState) : Prop := exists w, consumed x y w.

(** A matcher that calls its continuation on states forward of its own
    only: its result depends on the continuation there only. *)
Definition forwardOnly (m : Matcher) : Prop :=
  forall x c1 c2,
    (forall y, forward x y -> c1 y = c2 y) -> m x c1 = m x c2.

(** The words a pattern can consume, lookaheads and anchors left aside:
    an upper bound of what [matches] allows, enough to show what no match
    can look like. *)
Definition member (A : CharSet) (ch : CodeUnit) : bool :=
  existsb A (canonicalClass ic ch).

Fixpoint LangIter (L : JSString -> Prop) (n : nat) (w : JSString) : Prop :=
  match n with
  | O => w = []
  | S n' => exists w1 w2, w = w1 ++ w2 /\ L w1 /\ LangIter L n' w2
  end.

Definition countOk (min : nat) (max : option nat) (n : nat) : Prop :=
  match max with
  | Some k => (min <= n \/ n = k) /\ n <= k
  | None => min <= n
  end.

Fixpoint Lang (r : Regex) (w : JSString) : Prop :=
  match r with
  | Chars A => exists ch, w = [ch] /\ member A ch = true
  | LineStart | LineEnd | NegLookahead _ => w = []
  | Seq r1 r2 => exists w1 w2, w = w1 ++ w2 /\ Lang r1 w1 /\ Lang r2 w2
  | Alt r1 r2 => Lang r1 w \/ Lang r2 w
  | Quant r0 min max => exists n, countOk min max n /\ LangIter (Lang r0) n w
  | Group _ r0 => Lang r0 w
  end.

End Semantics.

Arguments member : simpl never.

(** ** Words no match can end with

    A small analysis of patterns, checked once: [endsClear ks r] computes
    to [true] only if every word of [r] is non-empty and ends with a code
    unit outside [ks]. *)

Section Endings.

Variable ic : bool.
Variable ks : list CodeUnit.

Definition avoids (A : CharSet) : bool :=
  forallb (fun k => negb (member ic A k)) ks.

Fixpoint endsClear (r : Regex) : bool :=
  match r with
  | Chars A => avoids A
  | LineStart | LineEnd | NegLookahead _ => false
  | Seq r1 r2 => endsClear r2 || (endsClear r1 && endsClearOrEmpty r2)
  | Alt r1 r2 => endsClear r1 && endsClear r2
  | Quant r0 min max =>
      endsClear r0 && Nat.ltb 0 min
      && match max with Some k => Nat.ltb 0 k | None => true end
  | Group _ r0 => endsClear r0
  end
with endsClearOrEmpty (r : Regex) : bool :=
  match r with
  | Chars A => avoids A
  | LineStart | LineEnd | NegLookahead _ => true
  | Seq r1 r2 => endsClear r2 || (endsClearOrEmpty r1 && endsClearOrEmpty r2)
  | Alt r1 r2 => endsClearOrEmpty r1 && endsClearOrEmpty r2
  | Quant r0 _ _ | Group _ r0 => endsClearOrEmpty r0
  end.

Definition lastNotIn (w : JSString) : Prop :=
  exists w' c, w = w' ++ [c] /\ ~ In c ks.

End Endings.

(** ** Notions used in the statements *)

Definition endsWithWhiteSpace (pre : JSString) : Prop :=
  exists pre' ws, pre = pre' ++ [ws] /\ isWhiteSpace ws = true.

(** The start of the line, or just after a white space. *)
Definition lineStartOrAfterSpace (pre : JSString) : Prop :=
  pre = [] \/ endsWithWhiteSpace pre.

Definition urlAlternatives : Regex := Alt fullForm shortForm.

(** ** How a match can end

    The separators a host or a port cannot end with. *)
Definition separators : list CodeUnit := [cu "."; cu ":"; cu "/"].

(** The full form without its resource path. *)
Definition fullFormHead : Regex :=
  Seq protocolIdentifier
      (Seq basicAuth (Seq (Alt ipAddress domainName) portNumber)).

(** A candidate is rejected when it ends with a separator and no
    resource path can start inside it: each of its [/ ? #] comes right
    after a separator of the candidate. *)
Fixpoint noPathStart (prev : option CodeUnit) (cand : JSString) : bool :=
  match cand with
  | [] => true
  | c :: t =>
      (negb (member true pathStart c)
       || match prev with
          | Some p => existsb (N.eqb p) separators
          | None => false
          end)
      && noPathStart (Some c) t
  end.

Definition endsWithSeparator (cand : JSString) : bool :=
  match rev cand with
  | [] => false
  | k :: _ => existsb (N.eqb k) separators
  end.

Definition rejectedCandidate (cand : JSString) : bool :=
  endsWithSeparator cand && noPathStart None cand.

Definition isLetterW (x : CodeUnit) : Prop := x = cu "w" \/ x = cu "W".

(** The candidates that are a bare [www.], with or without a scheme. *)
Definition bareWww : list JSString :=
  [js "www."; js "http://www."; js "https://www."; js "ftp://www."].

(** The value of a decimal numeral. *)
Definition decimalValue (w : JSString) : N :=
  fold_left (fun acc d => (10 * acc + (d - 48))%N) w 0%N.

(** The text of a dotted quad with the numerals [A], [B], [C], [D]. *)
Definition dotted (A B C D : JSString) : JSString :=
  A ++ js "." ++ B ++ js "." ++ C ++ js "." ++ D.

Definition isDigit (c : CodeUnit) : Prop := (48 <= c <= 57)%N.

(** What the text of a dotted quad is made of. *)
Definition quadChar (c : CodeUnit) : Prop := isDigit c \/ c = cu ".".

(** * The plugin *)

(** ** The editor engine *)

(** A range of the document, [model.createRange( start, end )]. *)
Record Range (P : Type) : Type := createRange { r_start : P; r_end : P }.
Arguments createRange {P} _ _.
Arguments r_start {P} _.
Arguments r_end {P} _.

(** Modelled from the spec: the document model (the engine package) is
    an external collaborator of the plugin and is not embedded here;
    section 6 of the spec lists what the plugin uses of it: position and
    range arithmetic (shift by an offset, create a range, the range of
    an element, previous sibling), the text and range of the last text
    line, the selection, attribute reads and writes, the schema check.
    The plugin is verified against any engine with these operations. *)
Class Engine : Type := {
  Model : Type;
  Position : Type;
  Element : Type;
  Item : Type;
  (** [position.parent], [position.offset], [position.getShiftedBy( n )]
      and [position.nodeAfter] *)
  parent : Position -> Element;
  offset : Position -> Z;
  getShiftedBy : Position -> Z -> Position;
  nodeAfter : Model -> Position -> option Item;
  (** [model.createPositionAt( element, n )],
      [model.createRangeIn( element )] *)
  createPositionAt : Element -> Z -> Position;
  createRangeIn : Model -> Element -> Range Position;
  (** [element.is( 'element', name )], [element.previousSibling] *)
  elementIs : Element -> string -> bool;
  previousSibling : Model -> Element -> option Element;
  (** [item.hasAttribute( key )] *)
  hasAttribute : Item -> string -> bool;
  (** [selection.anchor], [selection.focus],
      [selection.getFirstPosition()] *)
  selectionAnchor : Model -> Position;
  selectionFocus : Model -> Position;
  selectionFirstPosition : Model -> Position;
  (** [model.schema.checkAttributeInSelection( model.createSelection( range ), key )] *)
  checkAttributeInSelection : Model -> Range Position -> string -> bool;
  (** [getLastTextLine( range, model )], giving [{ text, range }] *)
  getLastTextLine : Range Position -> Model -> JSString * Range Position;
  (** [writer.setAttribute( key, value, range )] *)
  setAttribute : string -> JSString -> Range Position -> Model -> Model;
  (** shifting inside the parent moves the offset by the shift *)
  getShiftedBy_offset :
    forall p n, (0 <= offset p + n)%Z ->
                offset (getShiftedBy p n) = (offset p + n)%Z
}.

(** A batch of changes and the data of a [matched:data] event. *)
Record Batch : Type := mkBatch { isTyping : bool }.

(** [addLinkProtocolIfApplicable] and [linkHasProtocol] come from
    [./utils], which is not embedded here: the plugin is verified for
    any two such functions. *)
Class Utils : Type := {
  addLinkProtocolIfApplicable : JSString -> option JSString -> JSString;
  linkHasProtocol : JSString -> bool
}.

(** The configuration of the editor: [config.get( 'link.defaultProtocol' )]
    and whether [commands.get( 'enter' )] and [commands.get( 'shiftEnter' )]
    give a command. *)
Class Config : Type := {
  defaultProtocol : option JSString;
  hasEnterCommand : bool;
  hasShiftEnterCommand : bool
}.

Section Plugin.

Context {engine : Engine} {utils : Utils} {config : Config}.

Record MatchedData : Type := mkMatchedData {
  d_batch : Batch;
  d_range : Range Position;
  d_url : JSString
}.

(** The state the plugin works on: its own ([isEnabled], the watcher and
    the listeners it has attached), the document model, the requests
    received by the Delete plugin, and, to state what the handlers pass
    on, the calls of [_applyAutoLink] made so far, last first. *)
Record State : Type := mkPluginState {
  isEnabled : bool;
  watcherIsEnabled : option bool;
  listensToChangeRange : bool;
  listensToEnter : bool;
  listensToShiftEnter : bool;
  model : Model;
  undoOnBackspaceRequests : nat;
  applyAutoLinkCalls : list (JSString * Range Position)
}.

Definition setModel (m : Model) (st : State) : State :=
  mkPluginState (isEnabled st) (watcherIsEnabled st) (listensToChangeRange st)
          (listensToEnter st) (listensToShiftEnter st)
          m (undoOnBackspaceRequests st) (applyAutoLinkCalls st).

Definition recordCall (url : JSString) (range : Range Position) (st : State)
  : State :=
  mkPluginState (isEnabled st) (watcherIsEnabled st) (listensToChangeRange st)
          (listensToEnter st) (listensToShiftEnter st)
          (model st) (undoOnBackspaceRequests st)
          ((url, range) :: applyAutoLinkCalls st).

(** Modelled from the spec: [watcher.bind( 'isEnabled' ).to( this )] is
    a one-way binding, the watcher's [isEnabled] follows every
    assignment of the plugin's. *)
Definition setIsEnabled (v : bool) (st : State) : State :=
  mkPluginState v (option_map (fun _ => v) (watcherIsEnabled st))
          (listensToChangeRange st) (listensToEnter st) (listensToShiftEnter st)
          (model st) (undoOnBackspaceRequests st) (applyAutoLinkCalls st).

Definition bindWatcher (st : State) : State :=
  mkPluginState (isEnabled st) (Some (isEnabled st))
          (listensToChangeRange st) (listensToEnter st) (listensToShiftEnter st)
          (model st) (undoOnBackspaceRequests st) (applyAutoLinkCalls st).

Definition setListeners (r e s : bool) (st : State) : State :=
  mkPluginState (isEnabled st) (watcherIsEnabled st) r e s
          (model st) (undoOnBackspaceRequests st) (applyAutoLinkCalls st).

(** [writer.setAttribute( key, value, range )] and
    [deletePlugin.requestUndoOnBackspace()]. *)
Definition writer_setAttribute (key : string) (value : JSString)
           (range : Range Position) (st : State) : State :=
  setModel (setAttribute key value range (model st)) st.

Definition requestUndoOnBackspace (st : State) : State :=
  mkPluginState (isEnabled st) (watcherIsEnabled st) (listensToChangeRange st)
          (listensToEnter st) (listensToShiftEnter st)
          (model st) (S (undoOnBackspaceRequests st)) (applyAutoLinkCalls st).

(** Modelled from the spec: [model.enqueueChange( callback )] runs the
    callback as one change block; a change enqueued from inside a block
    runs when that block is done, as a step of the same change. *)
Definition enqueueChange (callback : State -> State) (st : State) : State :=
  callback st.

(** [isLinkAllowedOnRange( range, model )] *)
Definition isLinkAllowedOnRange (range : Range Position) (m : Model) : bool :=
  checkAttributeInSelection m range "linkHref".

(** [linkIsAlreadySet( range )]:
    [const item = range.start.nodeAfter;
     return item && item.hasAttribute( 'linkHref' );] *)
Definition linkIsAlreadySet (m : Model) (range : Range Position) : bool :=
  match nodeAfter m (r_start range) with
  | Some item => hasAttribute item "linkHref"
  | None => false
  end.

(** [_persistAutoLink( url, range )] *)
Definition _persistAutoLink (url : JSString) (range : Range Position)
  : State -> State :=
  enqueueChange (fun st1 =>
    let st2 := writer_setAttribute "linkHref" url range st1 in
    enqueueChange (fun st3 => requestUndoOnBackspace st3) st2).

(** [_applyAutoLink( url, range )]; the call is recorded first, for the
    statements on what the handlers pass to it. *)
Definition _applyAutoLink (url : JSString) (range : Range Position)
           (st0 : State) : State :=
  let st := recordCall url range st0 in
  let fullUrl := addLinkProtocolIfApplicable url defaultProtocol in
  if (negb (isEnabled st)
      || negb (isLinkAllowedOnRange range (model st))
      || negb (linkHasProtocol fullUrl)
      || linkIsAlreadySet (model st) range)%bool
  then st
  else _persistAutoLink fullUrl range st.

(** [_checkAndApplyAutoLinkOnRange( rangeToCheck )] *)
Definition _checkAndApplyAutoLinkOnRange (rangeToCheck : Range Position)
           (st : State) : State :=
  let (text, range) := getLastTextLine rangeToCheck (model st) in
  match getUrlAtTextEnd text with
  | Some url =>
      if truthy url then
        let linkRange :=
          createRange (getShiftedBy (r_end range) (- Z.of_nat (length url)))
                      (r_end range) in
        _applyAutoLink url linkRange st
      else st
  | None => st
  end.

(** The listener of [matched:data] in [_enableTypingHandling]. *)
Definition onMatchedData (data : MatchedData) (st : State) : State :=
  let batch := d_batch data in
  let range := d_range data in
  let url := d_url data in
  if negb (isTyping batch) then st
  else
    let linkEnd := getShiftedBy (r_end range) (-1) in
    let linkStart := getShiftedBy linkEnd (- Z.of_nat (length url)) in
    let linkRange := createRange linkStart linkEnd in
    _applyAutoLink url linkRange st.

(** The listener of [change:range] in [init]:
    [this.isEnabled = !selection.anchor.parent.is( 'element', 'codeBlock' )]. *)
Definition onChangeRange (st : State) : State :=
  setIsEnabled
    (negb (elementIs (parent (selectionAnchor (model st))) "codeBlock")) st.

(** The listener of the enter command in [_enableEnterHandling]. *)
Definition onEnterExecute (st : State) : State :=
  let position := selectionFirstPosition (model st) in
  match previousSibling (model st) (parent position) with
  | None => st
  | Some sibling =>
      let rangeToCheck := createRangeIn (model st) sibling in
      _checkAndApplyAutoLinkOnRange rangeToCheck st
  end.

(** The listener of the shiftEnter command in [_enableShiftEnterHandling]. *)
Definition onShiftEnterExecute (st : State) : State :=
  let position := selectionFirstPosition (model st) in
  let rangeToCheck :=
    createRange (createPositionAt (parent position) 0)
                (getShiftedBy position (-1)) in
  _checkAndApplyAutoLinkOnRange rangeToCheck st.

(** [_enableTypingHandling()]: the watcher is created with the test
    callback [testCallback], the listener [onMatchedData] is attached to
    it and its [isEnabled] is bound to the plugin's. *)
Definition _enableTypingHandling (st : State) : State := bindWatcher st.

(** [init()] and [afterInit()]. *)
Definition init (st : State) : State :=
  _enableTypingHandling
    (setListeners true (listensToEnter st) (listensToShiftEnter st) st).

Definition _enableEnterHandling (st : State) : State :=
  if negb hasEnterCommand then st
  else setListeners (listensToChangeRange st) true (listensToShiftEnter st) st.

Definition _enableShiftEnterHandling (st : State) : State :=
  if negb hasShiftEnterCommand then st
  else setListeners (listensToChangeRange st) (listensToEnter st) true st.

Definition afterInit (st : State) : State :=
  _enableShiftEnterHandling (_enableEnterHandling st).

(** Modelled from the spec: the text watcher ([TextWatcher], of the
    typing package).  On a change of the document data it does nothing while it is
    not enabled; otherwise it takes the text of the line up to the caret,
    runs the test callback on it and, if that gives a result, fires
    [matched:data] with the batch, the range of the text and the result. *)
Definition watcherOnChangeData (st : State) (batch : Batch)
  : option MatchedData :=
  match watcherIsEnabled st with
  | Some true =>
      let focus := selectionFocus (model st) in
      let rangeBeforeSelection :=
        createRange (createPositionAt (parent focus) 0) focus in
      let (text, range) := getLastTextLine rangeBeforeSelection (model st) in
      match testCallback text with
      | Some url => Some (mkMatchedData batch range url)
      | None => None
      end
  | _ => None
  end.

(** What the editor tells the plugin; each event comes with the document
    as the editor's own change left it. *)
Inductive Event : Type :=
| SelectionChangeRange (m : Model)
| DocumentChangeData (m : Model) (batch : Batch)
| EnterExecuted (m : Model)
| ShiftEnterExecuted (m : Model).

Definition dispatch (ev : Event) (st : State) : State :=
  match ev with
  | SelectionChangeRange m =>
      let st1 := setModel m st in
      if listensToChangeRange st1 then onChangeRange st1 else st1
  | DocumentChangeData m batch =>
      let st1 := setModel m st in
      match watcherOnChangeData st1 batch with
      | Some data => onMatchedData data st1
      | None => st1
      end
  | EnterExecuted m =>
      let st1 := setModel m st in
      if listensToEnter st1 then onEnterExecute st1 else st1
  | ShiftEnterExecuted m =>
      let st1 := setModel m st in
      if listensToShiftEnter st1 then onShiftEnterExecute st1 else st1
  end.

(** The states of a running editor: the plugin is created without
    watcher or listener, initialised, and then receives events. *)
Definition fresh (st : State) : Prop :=
  watcherIsEnabled st = None
  /\ listensToChangeRange st = false
  /\ listensToEnter st = false
  /\ listensToShiftEnter st = false.

Inductive reachable : State -> Prop :=
| reachable_init (st : State) : fresh st -> reachable (afterInit (init st))
| reachable_step (st : State) (ev : Event) :
    reachable st -> reachable (dispatch ev st).

(** What holds in every state of a running editor: the listener of
    [change:range] is attached and the watcher mirrors the plugin. *)
Definition bound (st : State) : Prop :=
  listensToChangeRange st = true /\ watcherIsEnabled st = Some (isEnabled st).

End Plugin.
(** ** A small engine to run the plugin on

    A document is a list of blocks (paragraphs, code blocks), a block is
    a name and its characters, a character may carry the [linkHref]
    attribute; a position is a block and an offset in it. *)

Module Toy.

Record Char : Type := mkChar { code : CodeUnit; linkHref : option JSString }.
Record Block : Type := mkBlock { blockName : string; content : list Char }.

Definition Elem : Type := (nat * string)%type.
Definition Pos : Type := (Elem * Z)%type.

Record Doc : Type := mkDoc { blocks : list Block; caret : Pos }.

Definition contentOf (m : Doc) (e : Elem) : list Char :=
  match nth_error (blocks m) (fst e) with
  | Some b => content b
  | None => []
  end.

Definition charAfter (m : Doc) (p : Pos) : option Char :=
  if (snd p <? 0)%Z then None
  else nth_error (contentOf m (fst p)) (Z.to_nat (snd p)).

Definition rangeOf (m : Doc) (e : Elem) : Range Pos :=
  createRange (e, 0%Z) (e, Z.of_nat (length (contentOf m e))).

Definition blockBefore (m : Doc) (e : Elem) : option Elem :=
  match fst e with
  | O => None
  | S k =>
      match nth_error (blocks m) k with
      | Some b => Some (k, blockName b)
      | None => None
      end
  end.

Definition charHasAttribute (c : Char) (key : string) : bool :=
  (String.eqb key "linkHref"
   && match linkHref c with Some _ => true | None => false end)%bool.

Definition schemaAllows (m : Doc) (r : Range Pos) (key : string)
  : bool :=
  negb (String.eqb (snd (fst (r_start r))) "codeBlock").

Definition slice {A : Type} (l : list A) (from to : Z) : list A :=
  firstn (Z.to_nat (to - from)) (skipn (Z.to_nat from) l).

Definition textOfRange (r : Range Pos) (m : Doc) : JSString * Range Pos :=
  (map code (slice (contentOf m (fst (r_start r)))
                   (snd (r_start r)) (snd (r_end r))),
   r).

Fixpoint setFrom (v : JSString) (k n : nat) (l : list Char) : list Char :=
  match l with
  | [] => []
  | c :: t =>
      match k with
      | S k' => c :: setFrom v k' n t
      | O =>
          match n with
          | S n' => mkChar (code c) (Some v) :: setFrom v 0 n' t
          | O => c :: t
          end
      end
  end.

Fixpoint mapAt {A : Type} (f : A -> A) (i : nat) (l : list A) : list A :=
  match l, i with
  | [], _ => []
  | x :: t, O => f x :: t
  | x :: t, S i' => x :: mapAt f i' t
  end.

Definition setOnRange (key : string) (v : JSString) (r : Range Pos) (m : Doc)
  : Doc :=
  if String.eqb key "linkHref" then
    mkDoc (mapAt (fun b =>
                    mkBlock (blockName b)
                            (setFrom v (Z.to_nat (snd (r_start r)))
                                     (Z.to_nat (snd (r_end r) - snd (r_start r)))
                                     (content b)))
                 (fst (fst (r_start r))) (blocks m))
          (caret m)
  else m.

(** Modelled from the spec: an engine with the operations of section 6
    on the documents above; the schema allows links everywhere but in
    code blocks. *)
#[global] Instance engine : Engine := {|
  Model := Doc;
  Position := Pos;
  Element := Elem;
  Item := Char;
  parent := fun p => fst p;
  offset := fun p => snd p;
  getShiftedBy := fun p n => (fst p, (snd p + n)%Z);
  nodeAfter := charAfter;
  createPositionAt := fun e n => (e, n);
  createRangeIn := rangeOf;
  elementIs := fun e n => String.eqb (snd e) n;
  previousSibling := blockBefore;
  hasAttribute := charHasAttribute;
  selectionAnchor := caret;
  selectionFocus := caret;
  selectionFirstPosition := caret;
  checkAttributeInSelection := schemaAllows;
  getLastTextLine := textOfRange;
  setAttribute := setOnRange;
  getShiftedBy_offset := fun p n _ => eq_refl
|}.

(** Modelled from the spec: the utils of section 4.4; a candidate that
    carries a protocol is left as it is, an e-mail address gets
    [mailto:] in front, any other one gets the default protocol, if
    there is one, in front. *)
Definition hasProtocol (link : JSString) : bool :=
  (includes link (js "//") || startsWith link (js "mailto:"))%bool.

Definition isEmail (link : JSString) : bool := includes link (js "@").

Definition addProtocol (link : JSString) (protocol : option JSString)
  : JSString :=
  if hasProtocol link then link
  else if isEmail link then js "mailto:" ++ link
  else match protocol with
       | Some p => p ++ link
       | None => link
       end.

#[global] Instance utils : Utils := {|
  addLinkProtocolIfApplicable := addProtocol;
  linkHasProtocol := hasProtocol
|}.

#[global] Instance config : Config := {|
  defaultProtocol := Some (js "https://");
  hasEnterCommand := true;
  hasShiftEnterCommand := true
|}.

(** A block of plain text, and the text and links of a block. *)
Definition plain (name : string) (text : string) : Block :=
  mkBlock name (map (fun c => mkChar c None) (js text)).

Definition linksOf (m : Model) (i : nat) : list (option JSString) :=
  match nth_error (blocks m) i with
  | Some b => map linkHref (content b)
  | None => []
  end.

(** The plugin just created, on a document. *)
Definition start (m : Model) : State :=
  afterInit (init (mkPluginState true None false false false m 0 [])).

(** The documents of the scenarios of the spec: a paragraph in which a
    URL and a space have just been typed, the same text in a code block,
    a paragraph left by Enter, and the first one with its link set. *)
Definition typedUrl : Model :=
  mkDoc [plain "paragraph" "Check this out http://example.com "]
        ((0, "paragraph"%string), 34%Z).

Definition typedInCode : Model :=
  mkDoc [plain "codeBlock" "Check this out http://example.com "]
        ((0, "codeBlock"%string), 34%Z).

Definition afterEnter : Model :=
  mkDoc [plain "paragraph" "Visit ftp://files.example.org";
         plain "paragraph" ""]
        ((1, "paragraph"%string), 0%Z).

Definition typedBareDomain : Model :=
  mkDoc [plain "paragraph" "see example.com "]
        ((0, "paragraph"%string), 16%Z).

Definition exampleUrl : JSString := js "http://example.com".

Definition watchedRange : Range Position :=
  createRange ((0, "paragraph"%string), 0%Z) ((0, "paragraph"%string), 34%Z).

Definition exampleRange : Range Position :=
  createRange ((0, "paragraph"%string), 15%Z) ((0, "paragraph"%string), 33%Z).

Definition linkedUrl : Model :=
  setOnRange "linkHref" exampleUrl exampleRange typedUrl.

Definition leftParagraph : Range Position :=
  createRangeIn afterEnter (0, "paragraph"%string).

End Toy.

(** ** The same documents, with text nodes

    [linkIsAlreadySet] guards against [range.start.nodeAfter] being
    null.  Here it is null where it is in the engine package: at the
    end of the parent and strictly inside a text node, a text node
    being a maximal run of characters with the same attributes. *)

Module TextNodes.

Definition sameString (a b : JSString) : bool :=
  (Nat.eqb (length a) (length b) && startsWith a b)%bool.

Definition sameAttributes (a b : Toy.Char) : bool :=
  match Toy.linkHref a, Toy.linkHref b with
  | Some u, Some v => sameString u v
  | None, None => true
  | _, _ => false
  end.

(** The node that begins at a position, if one does. *)
Definition nodeStartingAt (m : Toy.Doc) (p : Toy.Pos) : option Toy.Char :=
  match Toy.charAfter m p with
  | None => None
  | Some c =>
      match Toy.charAfter m (fst p, (snd p - 1)%Z) with
      | Some b => if sameAttributes b c then None else Some c
      | None => Some c
      end
  end.

Definition engine : Engine := {|
  Model := Toy.Doc;
  Position := Toy.Pos;
  Element := Toy.Elem;
  Item := Toy.Char;
  parent := fun p => fst p;
  offset := fun p => snd p;
  getShiftedBy := fun p n => (fst p, (snd p + n)%Z);
  nodeAfter := nodeStartingAt;
  createPositionAt := fun e n => (e, n);
  createRangeIn := Toy.rangeOf;
  elementIs := fun e n => String.eqb (snd e) n;
  previousSibling := Toy.blockBefore;
  hasAttribute := Toy.charHasAttribute;
  selectionAnchor := Toy.caret;
  selectionFocus := Toy.caret;
  selectionFirstPosition := Toy.caret;
  checkAttributeInSelection := Toy.schemaAllows;
  getLastTextLine := Toy.textOfRange;
  setAttribute := Toy.setOnRange;
  getShiftedBy_offset := fun p n _ => eq_refl
|}.

(** The plugin just created, on a document. *)
Definition start (m : Toy.Doc) : @State engine :=
  @afterInit engine Toy.config
             (@init engine
                    (@mkPluginState engine true None false false false m 0 [])).

(** A paragraph linked as a whole, left by Enter; the range of the URL
    that ends it. *)
Definition linked (href : JSString) (text : string) : Toy.Block :=
  Toy.mkBlock "paragraph" (map (fun c => Toy.mkChar c (Some href)) (js text)).

Definition otherUrl : JSString := js "http://other.org".

Definition linkedPhrase : Toy.Doc :=
  Toy.mkDoc [linked otherUrl "see http://example.com";
             Toy.plain "paragraph" ""]
            ((1, "paragraph"%string), 0%Z).

Definition linkedPhraseSame : Toy.Doc :=
  Toy.mkDoc [linked Toy.exampleUrl "see http://example.com";
             Toy.plain "paragraph" ""]
            ((1, "paragraph"%string), 0%Z).

Definition insideRange : Range Toy.Pos :=
  createRange ((0, "paragraph"%string), 4%Z) ((0, "paragraph"%string), 22%Z).

End TextNodes.

(** * Further notions, for the properties beyond the claims *)

(** ** The shortest word of a pattern *)

(** A lower bound on the length of the words of a pattern. *)
Fixpoint minLength (r : Regex) : nat :=
  match r with
  | Chars _ => 1
  | LineStart | LineEnd | NegLookahead _ => 0
  | Seq r1 r2 => minLength r1 + minLength r2
  | Alt r1 r2 => Nat.min (minLength r1) (minLength r2)
  | Quant r0 min max =>
      match max with
      | Some k => Nat.min min k
      | None => min
      end * minLength r0
  | Group _ r0 => minLength r0
  end.

(** ** The case of ASCII letters *)

(** An upper-case ASCII letter made lower-case, any other code unit
    left as it is. *)
Definition toLowerAscii (x : CodeUnit) : CodeUnit :=
  if isUpper x then (x + 32)%N else x.

(** A match state on the lower-cased input. *)
Definition lowerState (x : MatchState) : MatchState :=
  mkState (endIndex x) (map toLowerAscii (rest x)) (captures x).

(** A continuation on the lower-cased input that does what [c] does. *)
Definition mirrors (c' c : Continuation) : Prop :=
  forall y, c' (lowerState y) = option_map lowerState (c y).

(** ** A host made of [www.] and one label *)

(** A code unit that is no white space, dot, slash or at sign. *)
Definition labelLike (c : CodeUnit) : Prop :=
  isWhiteSpace c = false /\ c <> cu "." /\ c <> cu "/" /\ c <> cu "@".

(** ** What a listener does to the state *)

Section PluginNotions.

Context {engine : Engine} {utils : Utils} {config : Config}.

(** From [st] to [st'] nothing is written: same document, same requests
    of undo on backspace. *)
Definition writesNothing (st st' : State) : Prop :=
  model st' = model st
  /\ undoOnBackspaceRequests st' = undoOnBackspaceRequests st.

(** From [st] to [st'] one link is written: for some URL and range that
    pass the four checks of [_applyAutoLink] in [st], the document gets
    [linkHref] set to the normalized URL over the range and one undo on
    backspace is requested. *)
Definition writesOneLink (st st' : State) : Prop :=
  exists url range,
    isEnabled st = true
    /\ isLinkAllowedOnRange range (model st) = true
    /\ linkHasProtocol (addLinkProtocolIfApplicable url defaultProtocol) = true
    /\ linkIsAlreadySet (model st) range = false
    /\ model st'
       = setAttribute "linkHref"
                      (addLinkProtocolIfApplicable url defaultProtocol)
                      range (model st)
    /\ undoOnBackspaceRequests st' = S (undoOnBackspaceRequests st).

(** From [st] to [st'] the plugin's own state is the same. *)
Definition samePlugin (st st' : State) : Prop :=
  isEnabled st' = isEnabled st
  /\ watcherIsEnabled st' = watcherIsEnabled st
  /\ listensToChangeRange st' = listensToChangeRange st
  /\ listensToEnter st' = listensToEnter st
  /\ listensToShiftEnter st' = listensToShiftEnter st.

Definition atMostOneLink (st st' : State) : Prop :=
  (writesNothing st st' \/ writesOneLink st st') /\ samePlugin st st'.

End PluginNotions.

(** ** An editor without the enter and shiftEnter commands *)

Module NoCommands.

Definition config : Config := {|
  defaultProtocol := Some (js "https://");
  hasEnterCommand := false;
  hasShiftEnterCommand := false
|}.

(** The plugin just created in such an editor, on a document of the
    small engine. *)
Definition start (m : Toy.Doc) : State :=
  @afterInit Toy.engine config
             (@init Toy.engine (mkPluginState true None false false false m 0 [])).

End NoCommands.

(** ** Runs that differ by their captures only *)

(** Two states at the same place of the input. *)
Definition samePlace (x y : MatchState) : Prop :=
  endIndex x = endIndex y /\ rest x = rest y.

(** Two continuations that fail on the same places. *)
Definition agree (c c' : Continuation) : Prop :=
  forall y y', samePlace y y' -> (c y = None <-> c' y' = None).

(** ** Words a pattern takes, whatever comes after *)

(** From any state whose input starts with [w], the pattern [r] has a
    run over exactly [w]. *)
Definition takes (r : Regex) (w : JSString) : Prop :=
  forall x t, rest x = w ++ t ->
              exists y, matches true r x y
                        /\ rest y = t
                        /\ endIndex y = endIndex x + length w.

(** [wordsAvoid ic ks r] computes to [true] only if no word of [r] has a
    code unit of [ks]. *)
Fixpoint wordsAvoid (ic : bool) (ks : list CodeUnit) (r : Regex) : bool :=
  match r with
  | Chars A => avoids ic ks A
  | LineStart | LineEnd | NegLookahead _ => true
  | Seq r1 r2 | Alt r1 r2 => wordsAvoid ic ks r1 && wordsAvoid ic ks r2
  | Quant r0 _ _ | Group _ r0 => wordsAvoid ic ks r0
  end.

(** ** URLs with a scheme and a host name *)

Definition schemes : list JSString :=
  [js "http://"; js "https://"; js "ftp://"; js "//"].

(** TAB, LF, VT, FF, CR, SP and NBSP: the white space below U+00A1. *)
Definition plainSpaces : list CodeUnit := [9; 10; 11; 12; 13; 32; 160]%N.

Definition afterPlainSpace (pre : JSString) : Prop :=
  pre = [] \/ exists p ws, pre = p ++ [ws] /\ In ws plainSpaces.

(** A label of a host name: 1 to 63 code units of the class of the
    pattern, none a white space, the first neither [-] nor [_]. *)
Definition isLabel (l : JSString) : Prop :=
  1 <= length l <= 63
  /\ Forall (fun c => member true hostChar c = true
                      /\ isWhiteSpace c = false) l
  /\ (forall c l', l = c :: l' -> member true dashOrUnderscore c = false).

Definition isTld (t : JSString) : Prop :=
  2 <= length t <= 63
  /\ Forall (fun c => member true tldChar c = true
                      /\ isWhiteSpace c = false) t.

(** No port, or a colon and 2 to 5 digits. *)
Definition isPort (p : JSString) : Prop :=
  p = [] \/ exists ds, p = cu ":" :: ds
                       /\ 2 <= length ds <= 5 /\ Forall isDigit ds.

(** No path, or one of [/ ? #] and code units that are no white space. *)
Definition isPath (p : JSString) : Prop :=
  p = [] \/ exists c q, p = c :: q
                        /\ In c [cu "/"; cu "?"; cu "#"]
                        /\ Forall (fun k => isWhiteSpace k = false) q.

Definition hostName (labels : list JSString) (t : JSString) : JSString :=
  concat (map (fun l => l ++ js ".") labels) ++ t.

(** A scheme (or just [//]), labels and a top-level domain, then maybe a
    port and a path; a host of one label is not [www]. *)
Definition plainUrl (cand : JSString) : Prop :=
  exists scheme labels t port path,
    cand = scheme ++ hostName labels t ++ port ++ path
    /\ In scheme schemes
    /\ labels <> []
    /\ Forall isLabel labels
    /\ isTld t
    /\ isPort port
    /\ isPath path
    /\ (forall l, labels = [l] -> map toLowerAscii l <> js "www").


(** * Proofs *)

(** ** Soundness of the semantic relations *)

Section SemanticsFacts.

Variable ic : bool.

Lemma RepeatMatcher_sound (m : Matcher) (R : MatchState -> MatchState -> Prop)
      (parens : list nat) :
  (forall x c z, m x c = Some z -> exists y, R x y /\ c y = Some z) ->
  forall budget min x c z,
    RepeatMatcher m parens min budget x c = Some z ->
    exists n y, (min <= n \/ n = budget) /\ n <= budget
                /\ iterate R parens n x y /\ c y = Some z.
Proof.
  intros Hm budget.
  induction budget as [|b IH]; intros min x c z H; simpl in H.
  - exists 0, x. simpl. repeat split; auto.
  - destruct (Nat.eqb min 0) eqn:Emin.
    + apply Nat.eqb_eq in Emin. subst min.
      match type of H with
      | match ?e with _ => _ end = _ => destruct e as [z'|] eqn:E
      end.
      * inversion H; subst z'. clear H.
        apply Hm in E. destruct E as [y1 [HR Hd]].
        simpl in Hd.
        destruct (Nat.eqb (endIndex y1) (endIndex x)); [discriminate|].
        apply IH in Hd. destruct Hd as [n [y [_ [Hle [Hit Hc]]]]].
        exists (S n), y. repeat split; [left|..]; try lia; auto.
        simpl. exists y1. auto.
      * exists 0, x. simpl. repeat split; auto; lia.
    + apply Hm in H. destruct H as [y1 [HR Hd]].
      rewrite andb_false_l in Hd.
      apply IH in Hd. destruct Hd as [n [y [Hmin [Hle [Hit Hc]]]]].
      exists (S n), y. apply Nat.eqb_neq in Emin.
      repeat split; try lia; auto.
      simpl. exists y1. auto.
Qed.

Lemma compile_sound (r : Regex) :
  forall x c z, compile ic r x c = Some z ->
                exists y, matches ic r x y /\ c y = Some z.
Proof.
  induction r as [A| | |r1 IH1 r2 IH2|r1 IH1 r2 IH2|r0 IH min max|n r0 IH|r0 IH];
    intros x c z H; simpl in H.
  - unfold CharacterSetMatcher in H.
    destruct (rest x) as [|ch t] eqn:Er; [discriminate|].
    destruct (existsb A (canonicalClass ic ch)) eqn:EA; [|discriminate].
    eexists. split; [|exact H]. simpl. exists ch, t. auto.
  - destruct (Nat.eqb (endIndex x) 0) eqn:E; [|discriminate].
    apply Nat.eqb_eq in E. exists x. simpl. auto.
  - destruct (rest x) eqn:E; [|discriminate].
    exists x. simpl. auto.
  - apply IH1 in H. destruct H as [m [H1 H]].
    apply IH2 in H. destruct H as [y [H2 H]].
    exists y. split; auto. simpl. exists m. auto.
  - destruct (compile ic r1 x c) as [z'|] eqn:E.
    + inversion H; subst z'. apply IH1 in E. destruct E as [y [H1 Hc]].
      exists y. simpl. auto.
    + apply IH2 in H. destruct H as [y [H2 Hc]].
      exists y. simpl. auto.
  - apply (RepeatMatcher_sound (compile ic r0) (matches ic r0) (groupsOf r0) IH) in H.
    destruct H as [n [y [Hmin [Hle [Hit Hc]]]]].
    exists y. split; auto. simpl. exists n. auto.
  - apply IH in H. destruct H as [m [Hm Hc]].
    eexists. split; [|exact Hc]. simpl. exists m. auto.
  - destruct (compile ic r0 x accept) eqn:E; [discriminate|].
    exists x. simpl. auto.
Qed.

Lemma consumed_refl x : consumed x x [].
Proof. split; simpl; auto. Qed.

Lemma consumed_trans x m y w1 w2 :
  consumed x m w1 -> consumed m y w2 -> consumed x y (w1 ++ w2).
Proof.
  intros [H1 H2] [H3 H4]. split.
  - rewrite H1, H3, app_assoc. reflexivity.
  - rewrite H4, H2, length_app. lia.
Qed.

Lemma consumed_nil x y : consumed x y [] -> rest y = rest x /\ endIndex y = endIndex x.
Proof. intros [H1 H2]. simpl in *. split; auto. lia. Qed.

Lemma iterate_lang (R : MatchState -> MatchState -> Prop)
      (L : JSString -> Prop) parens :
  (forall x y, R x y -> exists w, consumed x y w /\ L w) ->
  forall n x y, iterate R parens n x y ->
                exists w, consumed x y w /\ LangIter L n w.
Proof.
  intros HR n. induction n as [|n IH]; intros x y H; simpl in H.
  - subst y. exists []. split; [apply consumed_refl | reflexivity].
  - destruct H as [m [H1 H2]].
    apply HR in H1. destruct H1 as [w1 [H1 L1]].
    apply IH in H2. destruct H2 as [w2 [H2 L2]].
    exists (w1 ++ w2). split.
    + eapply consumed_trans; eauto.
    + simpl. exists w1, w2. auto.
Qed.

Lemma matches_lang (r : Regex) :
  forall x y, matches ic r x y -> exists w, consumed x y w /\ Lang ic r w.
Proof.
  induction r as [A| | |r1 IH1 r2 IH2|r1 IH1 r2 IH2|r0 IH min max|n r0 IH|r0 IH];
    intros x y H; simpl in H.
  - destruct H as [ch [t [Hr [HA Hy]]]]. subst y.
    exists [ch]. split; [split; simpl; auto; lia|].
    simpl. exists ch. auto.
  - destruct H as [_ H]. subst y. exists []. split; [apply consumed_refl|reflexivity].
  - destruct H as [_ H]. subst y. exists []. split; [apply consumed_refl|reflexivity].
  - destruct H as [m [H1 H2]].
    apply IH1 in H1. destruct H1 as [w1 [H1 L1]].
    apply IH2 in H2. destruct H2 as [w2 [H2 L2]].
    exists (w1 ++ w2). split; [eapply consumed_trans; eauto|].
    simpl. exists w1, w2. auto.
  - destruct H as [H|H]; [apply IH1 in H|apply IH2 in H];
      destruct H as [w [H L]]; exists w; simpl; auto.
  - destruct H as [n [Hmin [Hle H]]].
    apply (iterate_lang (matches ic r0) (Lang ic r0) (groupsOf r0) IH) in H.
    destruct H as [w [H L]]. exists w. split; auto.
    simpl. exists n. split; auto.
    unfold countOk, budgetOf in *. destruct max; lia.
  - destruct H as [m [H Hy]]. subst y.
    apply IH in H. destruct H as [w [H L]]. exists w. split; auto.
  - destruct H as [_ H]. subst y. exists []. split; [apply consumed_refl|reflexivity].
Qed.

End SemanticsFacts.

(** ** Soundness of the analysis of endings *)

Section EndingsFacts.

Variable ic : bool.
Variable ks : list CodeUnit.

Lemma avoids_sound A c : avoids ic ks A = true -> member ic A c = true -> ~ In c ks.
Proof.
  unfold avoids. rewrite forallb_forall. intros H Hc Hin.
  apply H in Hin. rewrite Hc in Hin. discriminate.
Qed.

Lemma lastNotIn_app_r w1 w2 : lastNotIn ks w2 -> lastNotIn ks (w1 ++ w2).
Proof.
  intros [w' [c [E H]]]. subst w2. exists (w1 ++ w'), c.
  rewrite app_assoc. auto.
Qed.

Lemma LangIter_clearOrEmpty (L : JSString -> Prop) :
  (forall w, L w -> w = [] \/ lastNotIn ks w) ->
  forall n w, LangIter L n w -> w = [] \/ lastNotIn ks w.
Proof.
  intros HL n. induction n as [|n IH]; intros w H; simpl in H; auto.
  destruct H as [w1 [w2 [E [H1 H2]]]]. subst w.
  apply IH in H2. destruct H2 as [->|H2].
  - rewrite app_nil_r. auto.
  - right. apply lastNotIn_app_r. exact H2.
Qed.

Lemma LangIter_clear (L : JSString -> Prop) :
  (forall w, L w -> lastNotIn ks w) ->
  forall n w, LangIter L (S n) w -> lastNotIn ks w.
Proof.
  intros HL n. induction n as [|n IH]; intros w H.
  - simpl in H. destruct H as [w1 [w2 [-> [H1 ->]]]].
    rewrite app_nil_r. auto.
  - destruct H as [w1 [w2 [-> [H1 H2]]]].
    apply lastNotIn_app_r. auto.
Qed.

Lemma ends_sound (r : Regex) :
  (endsClear ic ks r = true -> forall w, Lang ic r w -> lastNotIn ks w)
  /\ (endsClearOrEmpty ic ks r = true ->
      forall w, Lang ic r w -> w = [] \/ lastNotIn ks w).
Proof.
  induction r as [A| | |r1 [IH1 IH1'] r2 [IH2 IH2']|r1 [IH1 IH1'] r2 [IH2 IH2']
                 |r0 [IH IH'] min max|n r0 [IH IH']|r0 [IH IH']];
    simpl; split; intros E w H; try discriminate; auto.
  - destruct H as [ch [-> Hm]]. exists [], ch. split; auto.
    eapply avoids_sound; eauto.
  - destruct H as [ch [-> Hm]]. right. exists [], ch. split; auto.
    eapply avoids_sound; eauto.
  - destruct H as [w1 [w2 [-> [H1 H2]]]].
    apply orb_prop in E. destruct E as [E|E].
    + apply lastNotIn_app_r. auto.
    + apply andb_prop in E. destruct E as [E1 E2].
      destruct (IH2' E2 w2 H2) as [->|H3].
      * rewrite app_nil_r. auto.
      * apply lastNotIn_app_r. exact H3.
  - destruct H as [w1 [w2 [-> [H1 H2]]]].
    apply orb_prop in E. destruct E as [E|E].
    + right. apply lastNotIn_app_r. auto.
    + apply andb_prop in E. destruct E as [E1 E2].
      destruct (IH2' E2 w2 H2) as [->|H3].
      * rewrite app_nil_r. auto.
      * right. apply lastNotIn_app_r. exact H3.
  - apply andb_prop in E. destruct E as [E1 E2]. destruct H; auto.
  - apply andb_prop in E. destruct E as [E1 E2]. destruct H; auto.
  - apply andb_prop in E. destruct E as [E Emax].
    apply andb_prop in E. destruct E as [E Emin].
    apply Nat.ltb_lt in Emin.
    destruct H as [n [Hn H]].
    assert (Hpos : 0 < n).
    { unfold countOk in Hn. destruct max as [k|]; [|lia].
      apply Nat.ltb_lt in Emax. lia. }
    destruct n as [|n]; [lia|].
    exact (LangIter_clear (Lang ic r0) (IH E) n w H).
  - destruct H as [n [_ H]].
    exact (LangIter_clearOrEmpty (Lang ic r0) (IH' E) n w H).
Qed.

Lemma endsClear_sound (r : Regex) :
  endsClear ic ks r = true -> forall w, Lang ic r w -> lastNotIn ks w.
Proof. exact (proj1 (ends_sound r)). Qed.

End EndingsFacts.

(** ** Where a match of [URL_REG_EXP] lies in the text *)

Lemma execFrom_sound (m : Matcher) :
  forall input i z,
    execFrom m i input = Some z ->
    exists pre s, input = pre ++ s
                  /\ m (mkState (i + length pre) s noCaptures) accept = Some z.
Proof.
  induction input as [|a input IH]; intros i z H; simpl in H.
  - destruct (m (mkState i [] noCaptures) accept) eqn:E; [|discriminate].
    exists [], []. simpl. rewrite Nat.add_0_r. inversion H; subst. auto.
  - destruct (m (mkState i (a :: input) noCaptures) accept) eqn:E.
    + exists [], (a :: input). simpl. rewrite Nat.add_0_r.
      inversion H; subst. auto.
    + apply IH in H. destruct H as [pre [s [E1 H]]].
      exists (a :: pre), s. simpl. subst input.
      rewrite Nat.add_succ_r. auto.
Qed.

Lemma letter_not_space (ch : CodeUnit) :
  (N.leb 65%N ch && N.leb ch 122%N)%bool = true -> isWhiteSpace ch = false.
Proof.
  intros H. apply andb_prop in H. destruct H as [H1 H2].
  apply N.leb_le in H1, H2.
  unfold isWhiteSpace, isLineTerminator, range.
  repeat match goal with
         | |- context [N.eqb ?a ?b] => destruct (N.eqb_spec a b); [lia|]
         end.
  destruct (N.leb_spec 8192%N ch); [lia|]. reflexivity.
Qed.

Lemma lower_not_space ch : isLower ch = true -> isWhiteSpace ch = false.
Proof.
  unfold isLower. intros H. apply letter_not_space.
  apply andb_prop in H. destruct H as [H1 H2]. apply N.leb_le in H1, H2.
  apply andb_true_intro. split; apply N.leb_le; lia.
Qed.

Lemma upper_not_space ch : isUpper ch = true -> isWhiteSpace ch = false.
Proof.
  unfold isUpper. intros H. apply letter_not_space.
  apply andb_prop in H. destruct H as [H1 H2]. apply N.leb_le in H1, H2.
  apply andb_true_intro. split; apply N.leb_le; lia.
Qed.

Lemma lower_shift_not_space ch :
  isLower ch = true -> isWhiteSpace (ch - 32)%N = false.
Proof.
  unfold isLower. intros H. apply letter_not_space.
  apply andb_prop in H. destruct H as [H1 H2]. apply N.leb_le in H1, H2.
  apply andb_true_intro. split; apply N.leb_le; lia.
Qed.

Lemma upper_shift_not_space ch :
  isUpper ch = true -> isWhiteSpace (ch + 32)%N = false.
Proof.
  unfold isUpper. intros H. apply letter_not_space.
  apply andb_prop in H. destruct H as [H1 H2]. apply N.leb_le in H1, H2.
  apply andb_true_intro. split; apply N.leb_le; lia.
Qed.

(** Under the [i] flag [\s] still matches exactly the white space and
    [\S] exactly the rest. *)
Lemma member_space ch : member true space ch = true <-> isWhiteSpace ch = true.
Proof.
  unfold member, canonicalClass, space.
  destruct (isLower ch) eqn:El; [|destruct (isUpper ch) eqn:Eu]; simpl.
  - rewrite (lower_not_space ch El), (lower_shift_not_space ch El). simpl.
    split; discriminate.
  - rewrite (upper_not_space ch Eu), (upper_shift_not_space ch Eu). simpl.
    split; discriminate.
  - rewrite orb_false_r. reflexivity.
Qed.

Lemma member_nonSpace ch :
  member true nonSpace ch = true <-> isWhiteSpace ch = false.
Proof.
  unfold member, canonicalClass, nonSpace.
  destruct (isLower ch) eqn:El; [|destruct (isUpper ch) eqn:Eu]; simpl.
  - rewrite (lower_not_space ch El). simpl. split; reflexivity.
  - rewrite (upper_not_space ch Eu). simpl. split; reflexivity.
  - rewrite orb_false_r. destruct (isWhiteSpace ch); simpl; split; congruence.
Qed.

Lemma URL_REG_EXP_source :
  source URL_REG_EXP
  = Seq (Group 1 (Alt LineStart (Chars space)))
        (Seq (Group 2 urlAlternatives) LineEnd).
Proof. reflexivity. Qed.

(** A match starts at the line start or after a white space, its group 2
    runs from there to the end of the text, and is a word of one of the
    two forms. *)
Lemma exec_URL_shape (text : JSString) (z : MatchState) :
  exec URL_REG_EXP text = Some z ->
  exists pre s, text = pre ++ s
                /\ lineStartOrAfterSpace pre
                /\ Lang true urlAlternatives s
                /\ captures z 2 = Some (length pre, length text).
Proof.
  unfold exec. rewrite URL_REG_EXP_source.
  change (ignoreCase URL_REG_EXP) with true.
  intros H. apply execFrom_sound in H.
  destruct H as [pre [s [Etext H]]]. simpl Nat.add in H.
  apply compile_sound in H. destruct H as [y [Hm Hacc]].
  unfold accept in Hacc. inversion Hacc; subst y; clear Hacc.
  destruct Hm as [m1 [Hg1 [m2 [Hg2 [Hend Hz]]]]]. subst m2.
  destruct Hg1 as [m0 [Hg1 Hm1]].
  destruct Hg2 as [m3 [Hg2 Hz]].
  apply matches_lang in Hg2. destruct Hg2 as [w [[Hw1 Hw2] HL]].
  assert (Hr3 : rest m3 = []) by (subst z; exact Hend).
  rewrite Hr3, app_nil_r in Hw1.
  assert (Hcap : captures z 2 = Some (endIndex m1, endIndex m1 + length w)).
  { subst z. simpl. rewrite Hw2. reflexivity. }
  destruct Hg1 as [[Hi Hm0]|[ch [t [Hr [Hch Hm0]]]]].
  - (* ^ *)
    simpl in Hi. destruct pre; [|discriminate].
    subst m0 m1. simpl in *. subst text.
    exists [], w. subst s. repeat split; auto.
    left. reflexivity.
  - (* \s *)
    simpl in Hr. subst s m0 m1. simpl in *. subst t.
    exists (pre ++ [ch]), w. subst text.
    rewrite <- app_assoc. simpl. repeat split; auto.
    + right. exists pre, ch. split; auto. apply member_space. exact Hch.
    + rewrite Hcap. rewrite !length_app. simpl. f_equal. f_equal; lia.
Qed.

Lemma substring_suffix (pre s : JSString) :
  substring (pre ++ s) (length pre) (length (pre ++ s)) = s.
Proof.
  unfold substring. rewrite skipn_app, skipn_all, Nat.sub_diag. simpl.
  rewrite length_app.
  replace (length pre + length s - length pre) with (length s) by lia.
  apply firstn_all.
Qed.

Lemma getUrlAtTextEnd_shape (text r : JSString) :
  getUrlAtTextEnd text = Some r ->
  exists pre, text = pre ++ r
              /\ lineStartOrAfterSpace pre
              /\ Lang true urlAlternatives r.
Proof.
  unfold getUrlAtTextEnd. intros H.
  destruct (exec URL_REG_EXP text) as [z|] eqn:E; [|discriminate].
  apply exec_URL_shape in E. destruct E as [pre [s [Et [Hpre [HL Hcap]]]]].
  unfold group, URL_GROUP_IN_MATCH in H. rewrite Hcap in H.
  inversion H as [Hr]. subst text. rewrite substring_suffix.
  exists pre. auto.
Qed.

Lemma fullForm_split (s : JSString) :
  Lang true fullForm s ->
  exists a p, s = a ++ p /\ Lang true fullFormHead a /\ Lang true resourcePath p.
Proof.
  intros H.
  change (Lang true (Seq protocolIdentifier
                         (Seq basicAuth
                              (Seq (Alt ipAddress domainName)
                                   (Seq portNumber resourcePath)))) s) in H.
  destruct H as [w1 [r1 [E1 [H1 H]]]].
  destruct H as [w2 [r2 [E2 [H2 H]]]].
  destruct H as [w3 [r3 [E3 [H3 H]]]].
  destruct H as [w4 [p [E4 [H4 H5]]]].
  subst s r1 r2 r3.
  exists (w1 ++ w2 ++ w3 ++ w4), p. split; [|split; auto].
  - rewrite <- !app_assoc. reflexivity.
  - exists w1, (w2 ++ w3 ++ w4). split; [reflexivity|split; auto].
    exists w2, (w3 ++ w4). split; [reflexivity|split; auto].
    exists w3, w4. auto.
Qed.

Lemma LangIter_Chars (ic : bool) (A : CharSet) :
  forall n w, LangIter (Lang ic (Chars A)) n w ->
              length w = n /\ Forall (fun ch => member ic A ch = true) w.
Proof.
  induction n as [|n IH]; intros w H; simpl in H.
  - subst w. split; auto.
  - destruct H as [w1 [w2 [-> [[ch [-> Hc]] H2]]]].
    apply IH in H2. destruct H2 as [Hl HF]. simpl. split; auto.
Qed.

Lemma member_pathStart (c : CodeUnit) :
  member true pathStart c = true -> c = cu "/" \/ c = cu "?" \/ c = cu "#".
Proof.
  unfold member, canonicalClass, pathStart, union, single, isLower, isUpper.
  change (cu "/") with 47%N. change (cu "?") with 63%N. change (cu "#") with 35%N.
  destruct (N.leb_spec 97 c); destruct (N.leb_spec c 122);
    destruct (N.leb_spec 65 c); destruct (N.leb_spec c 90); simpl;
    repeat match goal with
           | |- context [N.eqb ?a ?b] => destruct (N.eqb_spec a b)
           end; simpl; intros; try discriminate; try lia; auto.
Qed.

Lemma pathStart_not_space (c : CodeUnit) :
  member true pathStart c = true -> isWhiteSpace c = false.
Proof.
  intros H. apply member_pathStart in H.
  destruct H as [->|[->| ->]]; reflexivity.
Qed.

(** A resource path is empty, or one of [/ ? #] and then no white space. *)
Lemma resourcePath_shape (p : JSString) :
  Lang true resourcePath p ->
  p = [] \/ exists c b, p = c :: b
                        /\ member true pathStart c = true
                        /\ Forall (fun x => isWhiteSpace x = false) b.
Proof.
  intros [n [[Hn Hle] H]].
  destruct n as [|[|n]]; [| |lia].
  - left. exact H.
  - right. destruct H as [w1 [w2 [-> [H1 ->]]]]. rewrite app_nil_r.
    destruct H1 as [u [b [-> [[c [-> Hc]] [k [_ Hb]]]]]].
    apply LangIter_Chars in Hb. destruct Hb as [_ Hb].
    exists c, b. repeat split; auto.
    eapply Forall_impl; [|exact Hb].
    intros x Hx. apply member_nonSpace. exact Hx.
Qed.

Lemma fullFormHead_ending : endsClear true separators fullFormHead = true.
Proof. vm_compute. reflexivity. Qed.

Lemma shortForm_ending : endsClear true separators shortForm = true.
Proof. vm_compute. reflexivity. Qed.

(** A match ends with a host or a port, hence not with a separator,
    unless it has a resource path, which then follows such an ending. *)
Lemma match_ending (r : JSString) :
  Lang true urlAlternatives r ->
  lastNotIn separators r
  \/ exists a c b, r = a ++ c :: b
                   /\ lastNotIn separators a
                   /\ member true pathStart c = true
                   /\ Forall (fun x => isWhiteSpace x = false) b.
Proof.
  intros [H|H].
  - apply fullForm_split in H. destruct H as [a [p [-> [Ha Hp]]]].
    apply (endsClear_sound true separators _ fullFormHead_ending) in Ha.
    apply resourcePath_shape in Hp.
    destruct Hp as [->|[c [b [-> [Hc Hb]]]]].
    + left. rewrite app_nil_r. exact Ha.
    + right. exists a, c, b. auto.
  - left. apply (endsClear_sound true separators _ shortForm_ending). exact H.
Qed.

Lemma existsb_eqb_In (k : CodeUnit) (l : list CodeUnit) :
  existsb (N.eqb k) l = true -> In k l.
Proof.
  rewrite existsb_exists. intros [x [Hin E]]. apply N.eqb_eq in E. subst. auto.
Qed.

Lemma noPathStart_split :
  forall l prev c b,
    noPathStart prev (l ++ c :: b) = true ->
    member true pathStart c = true ->
    (exists l' k, l = l' ++ [k] /\ In k separators)
    \/ (l = [] /\ exists p, prev = Some p /\ In p separators).
Proof.
  induction l as [|x l IH]; intros prev c b H Hc; simpl in H.
  - right. rewrite Hc in H. simpl in H.
    destruct prev as [p|]; [|discriminate].
    apply andb_prop in H. destruct H as [H _].
    split; auto. exists p. split; auto. apply existsb_eqb_In. exact H.
  - left. apply andb_prop in H. destruct H as [_ H].
    destruct (IH (Some x) c b H Hc) as [[l' [k [-> Hk]]]|[-> [p [Hp Hin]]]].
    + exists (x :: l'), k. auto.
    + inversion Hp; subst p. exists [], x. auto.
Qed.

Lemma endsWithSeparator_split (cand : JSString) :
  endsWithSeparator cand = true ->
  exists cand' k, cand = cand' ++ [k] /\ In k separators.
Proof.
  unfold endsWithSeparator. destruct (rev cand) as [|k t] eqn:E; [discriminate|].
  intros H. exists (rev t), k. split.
  - rewrite <- (rev_involutive cand), E. reflexivity.
  - apply existsb_eqb_In. exact H.
Qed.

Lemma last_of_app_eq {A : Type} (x y : list A) (a b : A) (q : list A) :
  q <> [] -> x ++ q = y ++ [b] -> exists q', q = q' ++ [b].
Proof.
  intros Hq E. destruct (exists_last Hq) as [q' [c Eq]]. subst q.
  rewrite app_assoc in E. apply app_inj_tail in E. destruct E as [_ ->].
  exists q'. reflexivity.
Qed.

(** No rejected candidate is linked, whatever precedes it. *)
Lemma rejectedCandidate_no_match (pre cand : JSString) :
  rejectedCandidate cand = true ->
  lineStartOrAfterSpace pre ->
  getUrlAtTextEnd (pre ++ cand) = None.
Proof.
  intros Hrej Hpre.
  apply andb_prop in Hrej. destruct Hrej as [Hend Hpath].
  apply endsWithSeparator_split in Hend. destruct Hend as [cand' [k [Ecand Hk]]].
  destruct (getUrlAtTextEnd (pre ++ cand)) as [r|] eqn:E; [|reflexivity].
  exfalso.
  apply getUrlAtTextEnd_shape in E. destruct E as [pre2 [Et [_ HL]]].
  apply match_ending in HL.
  destruct HL as [[w' [c [-> Hc]]]|[a [c [b [-> [[a' [x [-> Hx]]] [Hc Hb]]]]]]].
  - (* the match would end with a host or a port *)
    rewrite Ecand, !app_assoc in Et. apply app_inj_tail in Et.
    destruct Et as [_ ->]. auto.
  - (* the match would have a resource path *)
    clear Ecand Hk.
    replace (pre2 ++ (a' ++ [x]) ++ c :: b)
      with ((pre2 ++ a' ++ [x]) ++ c :: b) in Et
      by (rewrite <- !app_assoc; reflexivity).
    apply app_eq_app in Et. destruct Et as [l [[E1 E2]|[E1 E2]]].
    + (* pre = (pre2 ++ a' ++ [x]) ++ l and c :: b = l ++ cand *)
      destruct l as [|y l].
      * rewrite app_nil_r in E1. simpl in E2. subst cand.
        destruct (noPathStart_split [] None c b Hpath Hc)
          as [[l' [k' [El _]]]|[_ [p [Hp _]]]].
        -- destruct l'; discriminate.
        -- discriminate.
      * destruct Hpre as [->|[pre' [ws [-> Hws]]]].
        { destruct pre2; destruct a'; discriminate. }
        assert (Hne : y :: l <> []) by discriminate.
        destruct (last_of_app_eq _ _ ws ws _ Hne (eq_sym E1)) as [q' Eq].
        assert (Hin : In ws (c :: b)).
        { rewrite E2, Eq. apply in_or_app. left. apply in_or_app. right.
          left. reflexivity. }
        destruct Hin as [->|Hin].
        -- rewrite (pathStart_not_space _ Hc) in Hws. discriminate.
        -- rewrite Forall_forall in Hb. rewrite (Hb _ Hin) in Hws. discriminate.
    + (* pre2 ++ a' ++ [x] = pre ++ l and cand = l ++ c :: b *)
      subst cand.
      destruct (noPathStart_split l None c b Hpath Hc)
        as [[l' [k' [-> Hk']]]|[_ [p [Hp _]]]]; [|discriminate].
      rewrite !app_assoc in E1. apply app_inj_tail in E1.
      destruct E1 as [_ ->]. auto.
Qed.

(** ** The model of the engine

    The [i] flag: the code units tried by [CharacterSetMatcher] are those
    with the canonical form of the current one. *)

Lemma canonicalClass_spec (ic : bool) (a x : CodeUnit) :
  In a (canonicalClass ic x) <-> Canonicalize ic a = Canonicalize ic x.
Proof.
  unfold canonicalClass, Canonicalize, isLower, isUpper.
  destruct ic; cbn [andb]; [|simpl; intuition].
  destruct (N.leb_spec 97 x); destruct (N.leb_spec x 122);
    destruct (N.leb_spec 65 x); destruct (N.leb_spec x 90);
    destruct (N.leb_spec 97 a); destruct (N.leb_spec a 122);
    cbn [andb In]; split; intros Hin;
    repeat match goal with
           | H : _ \/ _ |- _ => destruct H
           | H : False |- _ => destruct H
           end; try lia;
    try (left; lia); try (right; left; lia).
Qed.

Lemma CharacterSetMatcher_found (ic : bool) (A : CharSet) (ch : CodeUnit) :
  existsb A (canonicalClass ic ch) = true
  <-> exists a, A a = true /\ Canonicalize ic a = Canonicalize ic ch.
Proof.
  rewrite existsb_exists. split; intros [a [H1 H2]]; exists a.
  - split; [exact H2|]. apply canonicalClass_spec. exact H1.
  - split; [|exact H1]. apply canonicalClass_spec. exact H2.
Qed.

(** An unbounded quantifier: the bound put on its iterations is never
    what stops a run, any larger one gives the same result. *)
Section Budget.

Variable ic : bool.

Lemma forward_refl x : forward x x.
Proof. exists []. apply consumed_refl. Qed.

Lemma forward_trans x m y : forward x m -> forward m y -> forward x y.
Proof.
  intros [w1 H1] [w2 H2]. exists (w1 ++ w2). eapply consumed_trans; eauto.
Qed.

Lemma RepeatMatcher_forwardOnly (m : Matcher) (parens : list nat) :
  forwardOnly m ->
  forall budget min, forwardOnly (fun x c => RepeatMatcher m parens min budget x c).
Proof.
  intros Hm budget.
  induction budget as [|b IH]; intros min x c1 c2 H; simpl.
  - apply H. apply forward_refl.
  - assert (Hd : m (clearCaptures parens x)
                   (fun y =>
                      if (Nat.eqb min 0 && Nat.eqb (endIndex y) (endIndex x))%bool
                      then None
                      else RepeatMatcher m parens (Nat.pred min) b y c1)
                 = m (clearCaptures parens x)
                     (fun y =>
                        if (Nat.eqb min 0 && Nat.eqb (endIndex y) (endIndex x))%bool
                        then None
                        else RepeatMatcher m parens (Nat.pred min) b y c2)).
    { apply Hm. intros y Hy.
      destruct (Nat.eqb min 0 && Nat.eqb (endIndex y) (endIndex x))%bool;
        [reflexivity|].
      apply (IH (Nat.pred min) y c1 c2). intros z Hz. apply H.
      eapply forward_trans; [|exact Hz]. exact Hy. }
    rewrite Hd. rewrite (H x (forward_refl x)). reflexivity.
Qed.

Lemma compile_forwardOnly (r : Regex) : forwardOnly (compile ic r).
Proof.
  induction r as [A| | |r1 IH1 r2 IH2|r1 IH1 r2 IH2|r0 IH min max|n r0 IH|r0 IH];
    intros x c1 c2 H; simpl.
  - unfold CharacterSetMatcher. destruct (rest x) as [|ch t] eqn:E; [reflexivity|].
    destruct (existsb A (canonicalClass ic ch)); [|reflexivity].
    apply H. exists [ch]. split; simpl; [exact E|lia].
  - rewrite (H x (forward_refl x)). reflexivity.
  - rewrite (H x (forward_refl x)). reflexivity.
  - apply IH1. intros y Hy. apply IH2. intros z Hz. apply H.
    eapply forward_trans; eauto.
  - rewrite (IH1 x c1 c2 H), (IH2 x c1 c2 H). reflexivity.
  - apply (RepeatMatcher_forwardOnly (compile ic r0) (groupsOf r0) IH). exact H.
  - apply IH. intros y Hy. apply H.
    destruct Hy as [w Hw]. exists w. exact Hw.
  - rewrite (H x (forward_refl x)). reflexivity.
Qed.

Lemma compile_nowhere (r : Regex) (x : MatchState) :
  compile ic r x (fun _ => None) = None.
Proof.
  destruct (compile ic r x (fun _ => None)) as [z|] eqn:E; [|reflexivity].
  apply compile_sound in E. destruct E as [y [_ E]]. discriminate.
Qed.

Lemma RepeatMatcher_budget (r : Regex) :
  forall b1 b2 min x c,
    min + length (rest x) <= b1 ->
    min + length (rest x) <= b2 ->
    RepeatMatcher (compile ic r) (groupsOf r) min b1 x c
    = RepeatMatcher (compile ic r) (groupsOf r) min b2 x c.
Proof.
  assert (Hzero : forall b x c,
             rest x = [] ->
             RepeatMatcher (compile ic r) (groupsOf r) 0 b x c = c x).
  { intros [|b] x c Hx; simpl; [reflexivity|].
    rewrite (compile_forwardOnly r (clearCaptures (groupsOf r) x) _
                                 (fun _ => None)).
    - rewrite compile_nowhere. reflexivity.
    - intros y [w [Hw1 Hw2]]. simpl in Hw1, Hw2.
      rewrite Hx in Hw1. destruct w; [|discriminate].
      simpl in Hw2. rewrite Nat.add_0_r in Hw2. rewrite Hw2, Nat.eqb_refl.
      reflexivity. }
  induction b1 as [|b1 IH]; intros b2 min x c H1 H2.
  - assert (min = 0) by lia. subst min.
    assert (Hx : rest x = []) by (destruct (rest x); [reflexivity|simpl in H1; lia]).
    rewrite !Hzero by exact Hx. reflexivity.
  - destruct b2 as [|b2].
    + assert (min = 0) by lia. subst min.
      assert (Hx : rest x = [])
        by (destruct (rest x); [reflexivity|simpl in H2; lia]).
      rewrite !Hzero by exact Hx. reflexivity.
    + simpl.
      assert (Hd : compile ic r (clearCaptures (groupsOf r) x)
                     (fun y =>
                        if (Nat.eqb min 0 && Nat.eqb (endIndex y) (endIndex x))%bool
                        then None
                        else RepeatMatcher (compile ic r) (groupsOf r)
                                           (Nat.pred min) b1 y c)
                   = compile ic r (clearCaptures (groupsOf r) x)
                       (fun y =>
                          if (Nat.eqb min 0 && Nat.eqb (endIndex y) (endIndex x))%bool
                          then None
                          else RepeatMatcher (compile ic r) (groupsOf r)
                                             (Nat.pred min) b2 y c)).
      { apply compile_forwardOnly. intros y [w [Hw1 Hw2]].
        simpl in Hw1, Hw2.
        assert (Hlen : length (rest x) = length w + length (rest y))
          by (rewrite Hw1, length_app; reflexivity).
        destruct (Nat.eqb_spec min 0) as [Hmin|Hmin]; cbn [andb].
        - destruct (Nat.eqb_spec (endIndex y) (endIndex x)) as [He|He];
            [reflexivity|].
          apply IH; subst min; simpl in *; lia.
        - apply IH; lia. }
      rewrite Hd. reflexivity.
Qed.

Corollary unbounded_quantifier_any_bound (r : Regex) (min extra : nat)
          (x : MatchState) (c : Continuation) :
  compile ic (Quant r min None) x c
  = RepeatMatcher (compile ic r) (groupsOf r) min
                  (min + length (rest x) + extra) x c.
Proof.
  simpl. unfold budgetOf. apply RepeatMatcher_budget; lia.
Qed.

End Budget.

(** [getUrlAtTextEnd] gives null exactly when the pattern does not
    match: group 2 takes part in every match. *)
Lemma getUrlAtTextEnd_null (text : JSString) :
  getUrlAtTextEnd text = None <-> exec URL_REG_EXP text = None.
Proof.
  unfold getUrlAtTextEnd.
  destruct (exec URL_REG_EXP text) as [z|] eqn:E; [|split; reflexivity].
  apply exec_URL_shape in E. destruct E as [pre [s [_ [_ [_ Hcap]]]]].
  unfold group, URL_GROUP_IN_MATCH. rewrite Hcap. split; discriminate.
Qed.

(** A [www.] inside a resource path is no bare candidate: it is matched. *)
Example www_in_resource_path :
  getUrlAtTextEnd (js "see http://a.bc/www.") = Some (js "http://a.bc/www.").
Proof. vm_compute. reflexivity. Qed.

(** ** The typing trigger *)

Lemma charAt_last (pre : JSString) (c d : CodeUnit) :
  charAt (pre ++ [c; d]) (Z.of_nat (length (pre ++ [c; d])) - 1) = Some d
  /\ charAt (pre ++ [c; d]) (Z.of_nat (length (pre ++ [c; d])) - 2) = Some c.
Proof.
  unfold charAt. rewrite length_app. simpl length.
  destruct (Z.ltb_spec (Z.of_nat (length pre + 2) - 1) 0); [lia|].
  destruct (Z.ltb_spec (Z.of_nat (length pre + 2) - 2) 0); [lia|].
  replace (Z.to_nat (Z.of_nat (length pre + 2) - 1)) with (length pre + 1) by lia.
  replace (Z.to_nat (Z.of_nat (length pre + 2) - 2)) with (length pre + 0) by lia.
  rewrite !nth_error_app2 by lia.
  replace (length pre + 1 - length pre) with 1 by lia.
  replace (length pre + 0 - length pre) with 0 by lia.
  split; reflexivity.
Qed.

Lemma two_last (text : JSString) :
  2 <= length text -> exists pre c d, text = pre ++ [c; d].
Proof.
  intros H.
  destruct (rev text) as [|d [|c t]] eqn:E.
  - apply (f_equal (@length _)) in E. rewrite length_rev in E. simpl in E. lia.
  - apply (f_equal (@length _)) in E. rewrite length_rev in E. simpl in E. lia.
  - exists (rev t), c, d. rewrite <- (rev_involutive text), E. simpl.
    rewrite <- app_assoc. reflexivity.
Qed.

(** C2: [isSingleSpaceAtTheEnd text] is true exactly when the text is
    longer than 4, its last character is a space and the character
    before it is not. *)
Theorem isSingleSpaceAtTheEnd_spec (text : JSString) :
  isSingleSpaceAtTheEnd text = true
  <-> (4 < length text
       /\ exists pre c, text = pre ++ [c; SPACE] /\ c <> SPACE).
Proof.
  unfold isSingleSpaceAtTheEnd, MIN_LINK_LENGTH_WITH_SPACE_AT_END. split.
  - intros H. apply andb_prop in H. destruct H as [H H3].
    apply andb_prop in H. destruct H as [H1 H2].
    apply Nat.ltb_lt in H1. split; [exact H1|].
    destruct (two_last text) as [pre [c [d E]]]; [lia|].
    rewrite E in H2, H3.
    destruct (charAt_last pre c d) as [Hd Hc].
    rewrite Hd in H2. rewrite Hc in H3. unfold eqCodeUnit in H2, H3.
    apply N.eqb_eq in H2. subst d.
    exists pre, c. split; [exact E|].
    intros Hc'. subst c. rewrite N.eqb_refl in H3. discriminate.
  - intros [H1 [pre [c [E Hc]]]]. subst text.
    destruct (charAt_last pre c SPACE) as [Hd Hc'].
    rewrite Hd, Hc'. unfold eqCodeUnit. rewrite N.eqb_refl.
    apply Nat.ltb_lt in H1. rewrite H1.
    destruct (N.eqb_spec c SPACE); [contradiction|reflexivity].
Qed.

(** ** The claims on the pattern matcher *)

(** C1, as stated, fails: for the text "see example.com" the matcher
    returns nothing. *)
Lemma bare_domain_not_matched :
  getUrlAtTextEnd (js "see example.com") = None.
Proof. vm_compute. reflexivity. Qed.

Lemma member_single_slash (c : CodeUnit) :
  member true (single "/") c = true -> c = cu "/".
Proof.
  unfold member, canonicalClass, single, isLower, isUpper.
  change (cu "/") with 47%N.
  destruct (N.leb_spec 97 c); destruct (N.leb_spec c 122);
    destruct (N.leb_spec 65 c); destruct (N.leb_spec c 90); simpl;
    repeat match goal with
           | |- context [N.eqb ?a ?b] => destruct (N.eqb_spec a b)
           end; simpl; intros; try discriminate; try lia; auto.
Qed.

Lemma member_single_at (c : CodeUnit) :
  member true (single "@") c = true -> c = cu "@".
Proof.
  unfold member, canonicalClass, single, isLower, isUpper.
  change (cu "@") with 64%N.
  destruct (N.leb_spec 97 c); destruct (N.leb_spec c 122);
    destruct (N.leb_spec 65 c); destruct (N.leb_spec c 90); simpl;
    repeat match goal with
           | |- context [N.eqb ?a ?b] => destruct (N.eqb_spec a b)
           end; simpl; intros; try discriminate; try lia; auto.
Qed.

Lemma member_single_w (c : CodeUnit) :
  member true (single "w") c = true -> isLetterW c.
Proof.
  unfold member, canonicalClass, single, isLower, isUpper, isLetterW.
  change (cu "w") with 119%N. change (cu "W") with 87%N.
  destruct (N.leb_spec 97 c); destruct (N.leb_spec c 122);
    destruct (N.leb_spec 65 c); destruct (N.leb_spec c 90); simpl;
    repeat match goal with
           | |- context [N.eqb ?a ?b] => destruct (N.eqb_spec a b)
           end; simpl; intros; try discriminate; try lia; auto.
Qed.

(** Every word of the full form has the two slashes of its protocol
    identifier; every word of the short form starts with [www] and one
    more code unit, or has an [@]. *)
Lemma fullForm_has_slashes (r : JSString) :
  Lang true fullForm r -> exists u v, r = u ++ js "//" ++ v.
Proof.
  intros H.
  change (Lang true (Seq protocolIdentifier
                         (Seq basicAuth
                              (Seq (Alt ipAddress domainName)
                                   (Seq portNumber resourcePath)))) r) in H.
  destruct H as [w1 [v [-> [H1 _]]]].
  destruct H1 as [u [w2 [-> [_ [s1 [s2 [-> [[c1 [-> H1]] [c2 [-> H2]]]]]]]]]].
  apply member_single_slash in H1, H2. subst c1 c2.
  exists u, v. rewrite <- app_assoc. reflexivity.
Qed.

Lemma shortForm_start (r : JSString) :
  Lang true shortForm r ->
  (exists a b c d t, r = a :: b :: c :: d :: t
                     /\ isLetterW a /\ isLetterW b /\ isLetterW c)
  \/ In (cu "@") r.
Proof.
  intros H.
  destruct H as [w1 [v [-> [H1 _]]]].
  destruct H1 as [H1|H1].
  - left.
    destruct H1 as [x1 [y1 [-> [H1 [d [-> Hd]]]]]].
    destruct H1 as [p1 [q1 [-> [[a [-> Ha]] H1]]]].
    destruct H1 as [p2 [q2 [-> [[b [-> Hb]] [c [-> Hc]]]]]].
    apply member_single_w in Ha, Hb, Hc.
    exists a, b, c, d, v. auto.
  - right.
    destruct H1 as [u [w2 [-> [_ [c [-> Hc]]]]]].
    apply member_single_at in Hc. subst c.
    apply in_or_app. left. apply in_or_app. right. left. reflexivity.
Qed.

(** C1, amended: the text "see example.com" gives no match, so typing
    it and a space links nothing; only the scheme name before [//] is
    optional.  Every match has [//] in it, or starts with [www] and one
    more character, or has an [@]; "see //example.com" and
    "see http://example.com" do match, from the slashes or the scheme on. *)
Theorem scheme_slashes_required :
  getUrlAtTextEnd (js "see example.com") = None
  /\ testCallback (js "see example.com ") = None
  /\ (forall (engine : Engine) (utils : Utils) (config : Config)
             (st : State) (m : Model) (batch : Batch) (range : Range Position),
         getLastTextLine
           (createRange (createPositionAt (parent (selectionFocus m)) 0)
                        (selectionFocus m)) m
         = (js "see example.com ", range) ->
         dispatch (DocumentChangeData m batch) st = setModel m st)
  /\ (forall text r,
         getUrlAtTextEnd text = Some r ->
         (exists u v, r = u ++ js "//" ++ v)
         \/ (exists a b c d t, r = a :: b :: c :: d :: t
                               /\ isLetterW a /\ isLetterW b /\ isLetterW c)
         \/ In (cu "@") r)
  /\ getUrlAtTextEnd (js "see //example.com") = Some (js "//example.com")
  /\ getUrlAtTextEnd (js "see http://example.com")
     = Some (js "http://example.com").
Proof.
  assert (Ht : testCallback (js "see example.com ") = None)
    by (vm_compute; reflexivity).
  split; [vm_compute; reflexivity|].
  split; [exact Ht|].
  split; [|split; [|split; vm_compute; reflexivity]].
  - intros engine utils config st m batch range H.
    unfold dispatch, watcherOnChangeData.
    cbn [watcherIsEnabled model setModel].
    destruct (watcherIsEnabled st) as [[|]|]; try reflexivity.
    rewrite H, Ht. reflexivity.
  - intros text r H.
    apply getUrlAtTextEnd_shape in H. destruct H as [pre [_ [_ [H|H]]]].
    + left. apply fullForm_has_slashes. exact H.
    + right. apply shortForm_start. exact H.
Qed.

Lemma scheme_slashes_required_witness :
  dispatch (DocumentChangeData Toy.typedBareDomain (mkBatch true))
           (Toy.start Toy.typedBareDomain)
  = setModel Toy.typedBareDomain (Toy.start Toy.typedBareDomain)
  /\ ((exists u v, js "ftp://files.example.org" = u ++ js "//" ++ v)
      \/ (exists a b c d t, js "ftp://files.example.org" = a :: b :: c :: d :: t
                            /\ isLetterW a /\ isLetterW b /\ isLetterW c)
      \/ In (cu "@") (js "ftp://files.example.org")).
Proof.
  split.
  - apply (proj1 (proj2 (proj2 scheme_slashes_required))
                 Toy.engine Toy.utils Toy.config
                 (Toy.start Toy.typedBareDomain) Toy.typedBareDomain
                 (mkBatch true)
                 (createRange ((0, "paragraph"%string), 0%Z)
                              ((0, "paragraph"%string), 16%Z))).
    vm_compute. reflexivity.
  - apply (proj1 (proj2 (proj2 (proj2 scheme_slashes_required)))
                 (js "Visit ftp://files.example.org")).
    vm_compute. reflexivity.
Defined.

(** C3: a result of [getUrlAtTextEnd] is a suffix of the text, and what
    precedes it is empty or ends with a white space; and a text whose
    trailing candidate is a bare [www.] gives no result. *)
Theorem match_anchored_at_end :
  (forall text r,
      getUrlAtTextEnd text = Some r ->
      exists pre, text = pre ++ r /\ lineStartOrAfterSpace pre)
  /\ (forall pre cand,
         lineStartOrAfterSpace pre ->
         In cand bareWww ->
         getUrlAtTextEnd (pre ++ cand) = None).
Proof.
  split.
  - intros text r H. apply getUrlAtTextEnd_shape in H.
    destruct H as [pre [E [Hpre _]]]. exists pre. auto.
  - intros pre cand Hpre Hin.
    apply rejectedCandidate_no_match; [|exact Hpre].
    simpl in Hin.
    destruct Hin as [<-|[<-|[<-|[<-|[]]]]]; vm_compute; reflexivity.
Qed.

Lemma match_anchored_at_end_witness :
  (exists pre, js "Check this out http://example.com" = pre ++ js "http://example.com"
               /\ lineStartOrAfterSpace pre)
  /\ getUrlAtTextEnd (js "go to " ++ js "http://www.") = None.
Proof.
  split.
  - apply (proj1 match_anchored_at_end). vm_compute. reflexivity.
  - apply (proj2 match_anchored_at_end).
    + right. exists (js "go to"), SPACE. split; reflexivity.
    + simpl. auto.
Defined.

(** C10: the dot after [www] in the short form is not escaped, so it
    matches any character: "wwwXfoo.com" is matched whole although it
    neither starts with "www." nor has an [@] or a scheme in it. *)
Theorem unescaped_dot_after_www :
  getUrlAtTextEnd (js "wwwXfoo.com") = Some (js "wwwXfoo.com")
  /\ startsWith (js "wwwXfoo.com") (js "www.") = false
  /\ includes (js "wwwXfoo.com") (js "@") = false
  /\ includes (js "wwwXfoo.com") (js "//") = false
  /\ includes (js "wwwXfoo.com") (js ":") = false.
Proof. repeat split; vm_compute; reflexivity. Qed.

(** ** The IPv4 branch *)

Lemma member_digit_range (lo hi c : CodeUnit) :
  (48 <= lo)%N -> (hi <= 57)%N ->
  member true (range lo hi) c = true -> (lo <= c <= hi)%N.
Proof.
  intros Hlo Hhi.
  unfold member, canonicalClass, range, isLower, isUpper.
  destruct (N.leb_spec 97 c); destruct (N.leb_spec c 122);
    destruct (N.leb_spec 65 c); destruct (N.leb_spec c 90); simpl;
    repeat match goal with
           | |- context [N.leb ?a ?b] => destruct (N.leb_spec a b)
           end; simpl; intros; try discriminate; lia.
Qed.

Lemma member_single_below_letters (k : ascii) (c : CodeUnit) :
  (cu k < 65)%N -> member true (single k) c = true -> c = cu k.
Proof.
  intros Hk.
  unfold member, canonicalClass, single, isLower, isUpper.
  destruct (N.leb_spec 97 c); destruct (N.leb_spec c 122);
    destruct (N.leb_spec 65 c); destruct (N.leb_spec c 90); simpl;
    repeat match goal with
           | |- context [N.eqb ?a ?b] => destruct (N.eqb_spec a b)
           end; simpl; intros; try discriminate; try lia; auto.
Qed.

Lemma Lang_opt (ic : bool) (r : Regex) (w : JSString) :
  Lang ic (opt r) w -> w = [] \/ Lang ic r w.
Proof.
  intros [n [[_ Hle] H]]. destruct n as [|[|n]]; [| |lia].
  - left. exact H.
  - right. destruct H as [w1 [w2 [-> [H1 ->]]]]. rewrite app_nil_r. exact H1.
Qed.

Ltac digit_bounds :=
  repeat match goal with
         | H : member true (arange _ _) _ = true |- _ =>
             apply member_digit_range in H;
             [change (cu "0") with 48%N in H; change (cu "1") with 49%N in H;
              change (cu "3") with 51%N in H; change (cu "4") with 52%N in H;
              change (cu "5") with 53%N in H; change (cu "9") with 57%N in H
             |vm_compute; discriminate|vm_compute; discriminate]
         | H : member true digit _ = true |- _ =>
             apply member_digit_range in H;
             [change (cu "0") with 48%N in H; change (cu "9") with 57%N in H
             |vm_compute; discriminate|vm_compute; discriminate]
         | H : member true (single ?k) ?c = true |- _ =>
             apply member_single_below_letters in H;
             [vm_compute in H; subst c|vm_compute; reflexivity]
         end.

(** The first octet of the IPv4 branch is a numeral from 1 to 223. *)
Lemma ipFirstOctet_range (o : JSString) :
  Lang true ipFirstOctet o ->
  Forall isDigit o /\ (1 <= decimalValue o <= 223)%N.
Proof.
  unfold isDigit. intros H.
  destruct H as [H|[H|[H|H]]].
  - destruct H as [w1 [w2 [-> [[c1 [-> H1]] H2]]]].
    apply Lang_opt in H2. destruct H2 as [->|[c2 [-> H2]]]; digit_bounds.
    + split; [repeat constructor; lia|].
      unfold decimalValue. cbn [fold_left app]. lia.
    + split; [repeat constructor; lia|].
      unfold decimalValue. cbn [fold_left app]. lia.
  - destruct H as [w1 [w2 [-> [[c1 [-> H1]] H]]]].
    destruct H as [w3 [w4 [-> [[c2 [-> H2]] [c3 [-> H3]]]]]].
    digit_bounds.
    split; [repeat constructor; lia|].
      unfold decimalValue. cbn [fold_left app]. lia.
  - destruct H as [w1 [w2 [-> [[c1 [-> H1]] H]]]].
    destruct H as [w3 [w4 [-> [[c2 [-> H2]] [c3 [-> H3]]]]]].
    digit_bounds.
    split; [repeat constructor; lia|].
      unfold decimalValue. cbn [fold_left app]. lia.
  - destruct H as [w1 [w2 [-> [H [c3 [-> H3]]]]]].
    destruct H as [w3 [w4 [-> [[c1 [-> H1]] [c2 [-> H2]]]]]].
    digit_bounds.
    split; [repeat constructor; lia|].
      unfold decimalValue. cbn [fold_left app]. lia.
Qed.

Lemma ipAddress_first_octet (w : JSString) :
  Lang true ipAddress w ->
  exists o t, w = o ++ cu "." :: t
              /\ Forall isDigit o /\ (1 <= decimalValue o <= 223)%N.
Proof.
  intros [o [w' [-> [Ho H]]]].
  apply ipFirstOctet_range in Ho.
  destruct H as [w1 [w2 [-> [[n [[Hn Hle] H1] ] _]]]].
  assert (n = 2) by lia. subst n.
  destruct H1 as [u1 [u2 [-> [[d [u3 [-> [[c [-> Hc]] _]]]] _]]]].
  digit_bounds.
  exists o, ((u3 ++ u2) ++ w2). split; [|exact Ho].
  simpl. rewrite <- !app_assoc. reflexivity.
Qed.

Lemma quadChar_not_tld (c : CodeUnit) :
  quadChar c -> member true tldChar c = false.
Proof.
  unfold quadChar, isDigit. change (cu ".") with 46%N. intros H.
  unfold member, canonicalClass, tldChar, union, arange, range, isLower, isUpper.
  change (cu "a") with 97%N. change (cu "z") with 122%N.
  destruct (N.leb_spec 97 c); destruct (N.leb_spec c 122);
    destruct (N.leb_spec 65 c); destruct (N.leb_spec c 90); simpl;
    repeat match goal with
           | |- context [N.leb ?a ?b] => destruct (N.leb_spec a b)
           end; simpl; try reflexivity; lia.
Qed.

Lemma quadChar_not_space (c : CodeUnit) : quadChar c -> isWhiteSpace c = false.
Proof.
  unfold quadChar, isDigit. change (cu ".") with 46%N. intros H.
  unfold isWhiteSpace, isLineTerminator, range.
  repeat match goal with
         | |- context [N.eqb ?a ?b] => destruct (N.eqb_spec a b); [lia|]
         end.
  destruct (N.leb_spec 8192%N c); [lia|]. reflexivity.
Qed.

Lemma dotted_quadChars (A B C D : JSString) :
  Forall isDigit A -> Forall isDigit B -> Forall isDigit C -> Forall isDigit D ->
  Forall quadChar (dotted A B C D).
Proof.
  intros HA HB HC HD. unfold dotted.
  assert (Hd : forall X, Forall isDigit X -> Forall quadChar X).
  { intros X HX. eapply Forall_impl; [|exact HX]. intros c Hc. left. exact Hc. }
  assert (Hdot : Forall quadChar (js ".")).
  { constructor; [right; reflexivity|constructor]. }
  repeat (apply Forall_app; split); auto.
Qed.

Lemma tld_has_tldChar (w : JSString) :
  Lang true tld w -> exists c, In c w /\ member true tldChar c = true.
Proof.
  intros [n [[Hn Hle] H]].
  destruct n as [|n]; [lia|].
  destruct H as [w1 [w2 [-> [[c [-> Hc]] _]]]].
  exists c. split; [left; reflexivity|exact Hc].
Qed.

Lemma domainName_has_tldChar (w : JSString) :
  Lang true domainName w -> exists c, In c w /\ member true tldChar c = true.
Proof.
  intros [w1 [w2 [-> [_ [w3 [w4 [-> [_ [w5 [w6 [-> [_ H]]]]]]]]]]]].
  apply tld_has_tldChar in H. destruct H as [c [Hin Hc]].
  exists c. split; [|exact Hc].
  apply in_or_app. right. apply in_or_app. right. apply in_or_app. right.
  exact Hin.
Qed.

Lemma basicAuth_shape (w : JSString) :
  Lang true basicAuth w -> w = [] \/ In (cu "@") w.
Proof.
  intros H. apply Lang_opt in H. destruct H as [->|H]; [left; reflexivity|].
  right.
  destruct H as [w1 [w2 [-> [_ [w3 [w4 [-> [_ [c [-> Hc]]]]]]]]]].
  apply member_single_at in Hc. subst c.
  apply in_or_app. right. apply in_or_app. right. left. reflexivity.
Qed.

Lemma protocolIdentifier_shape (w : JSString) :
  Lang true protocolIdentifier w -> exists s, w = s ++ js "//".
Proof.
  intros [s [w2 [-> [_ [s1 [s2 [-> [[c1 [-> H1]] [c2 [-> H2]]]]]]]]]].
  apply member_single_slash in H1, H2. subst c1 c2.
  exists s. reflexivity.
Qed.

(** In "http://" followed by a text without slash, the protocol
    identifier is "http://". *)
Lemma protocol_of_http (s t body : JSString) :
  ~ In (cu "/") body ->
  (s ++ js "//") ++ t = js "http://" ++ body ->
  t = body.
Proof.
  intros Hno E. rewrite <- app_assoc in E.
  change (js "//") with [47%N; 47%N] in E.
  change (js "http://") with [104%N; 116%N; 116%N; 112%N; 58%N; 47%N; 47%N] in E.
  change (cu "/") with 47%N in Hno.
  destruct s as [|s0 [|s1 [|s2 [|s3 [|s4 [|s5 s']]]]]];
    simpl in E; try (injection E; intros; subst; discriminate).
  - injection E; auto.
  - exfalso. injection E. intros E' _ _ _ _ _ _. clear E.
    destruct s' as [|x s'']; simpl in E'.
    + injection E'. intros E. apply Hno. rewrite <- E. left. reflexivity.
    + injection E'. intros E _. apply Hno. rewrite <- E.
      apply in_or_app. right. left. reflexivity.
Qed.

Lemma digits_before_dot (o : JSString) :
  forall A t t',
    Forall isDigit o -> Forall isDigit A ->
    o ++ cu "." :: t = A ++ cu "." :: t' -> o = A.
Proof.
  unfold isDigit. change (cu ".") with 46%N.
  induction o as [|x o IH]; intros A t t' Ho HA E.
  - destruct A as [|a A]; [reflexivity|].
    simpl in E. injection E as E _. subst a.
    inversion HA; subst. lia.
  - destruct A as [|a A]; simpl in E.
    + injection E as E _. subst x. inversion Ho; subst. lia.
    + injection E as E1 E2. subst a. f_equal.
      inversion Ho; subst. inversion HA; subst. eapply IH; eauto.
Qed.

Lemma http_not_letterW (a : CodeUnit) : a = cu "h" -> ~ isLetterW a.
Proof. intros -> [H|H]; vm_compute in H; discriminate. Qed.

(** No text "http://A.B.C.D" is matched when the numeral [A] is 0 or
    at least 224. *)
Lemma reserved_quad_not_matched (A B C D : JSString) :
  Forall isDigit A -> Forall isDigit B -> Forall isDigit C -> Forall isDigit D ->
  (decimalValue A = 0 \/ 224 <= decimalValue A)%N ->
  getUrlAtTextEnd (js "http://" ++ dotted A B C D) = None.
Proof.
  intros HA HB HC HD Hval.
  pose proof (dotted_quadChars A B C D HA HB HC HD) as Hbody.
  destruct (getUrlAtTextEnd (js "http://" ++ dotted A B C D)) as [r|] eqn:E;
    [exfalso|reflexivity].
  apply getUrlAtTextEnd_shape in E. destruct E as [pre [Et [Hpre HL]]].
  assert (Hnospace : Forall (fun c => isWhiteSpace c = false)
                            (js "http://" ++ dotted A B C D)).
  { apply Forall_app. split.
    - repeat constructor.
    - eapply Forall_impl; [|exact Hbody]. apply quadChar_not_space. }
  assert (Hnoat : ~ In (cu "@") (js "http://" ++ dotted A B C D)).
  { intros Hin. apply in_app_or in Hin. destruct Hin as [Hin|Hin].
    - vm_compute in Hin. intuition discriminate.
    - rewrite Forall_forall in Hbody. apply Hbody in Hin.
      unfold quadChar, isDigit in Hin. vm_compute in Hin.
      destruct Hin as [[H1 H2]|H]; [apply H2; reflexivity|discriminate]. }
  assert (Hnoslash : ~ In (cu "/") (dotted A B C D)).
  { intros Hin. rewrite Forall_forall in Hbody. apply Hbody in Hin.
    unfold quadChar, isDigit in Hin. vm_compute in Hin.
    destruct Hin as [[H1 H2]|H]; [apply H1; reflexivity|discriminate]. }
  (* the match is the whole text *)
  assert (pre = []).
  { destruct Hpre as [->|[pre' [ws [-> Hws]]]]; [reflexivity|].
    rewrite Et in Hnospace. rewrite Forall_forall in Hnospace.
    rewrite Hnospace in Hws; [discriminate|].
    apply in_or_app. left. apply in_or_app. right. left. reflexivity. }
  subst pre. simpl in Et. subst r.
  destruct HL as [HL|HL].
  - (* the full form *)
    change (Lang true (Seq protocolIdentifier
                           (Seq basicAuth
                                (Seq (Alt ipAddress domainName)
                                     (Seq portNumber resourcePath))))
                 (js "http://" ++ dotted A B C D)) in HL.
    destruct HL as [w1 [t1 [E1 [H1 HL]]]].
    apply protocolIdentifier_shape in H1. destruct H1 as [s ->].
    symmetry in E1. apply protocol_of_http in E1; [|exact Hnoslash].
    subst t1.
    destruct HL as [w2 [t2 [E2 [H2 HL]]]].
    apply basicAuth_shape in H2. destruct H2 as [->|H2].
    2:{ apply Hnoat. apply in_or_app. right. rewrite E2.
        apply in_or_app. left. exact H2. }
    simpl in E2. subst t2.
    destruct HL as [w3 [t3 [E3 [[H3|H3] _]]]].
    + (* a dotted quad *)
      apply ipAddress_first_octet in H3.
      destruct H3 as [o [t [-> [Ho Hrange]]]].
      unfold dotted in E3. rewrite <- app_assoc in E3.
      change (js "." ++ B ++ js "." ++ C ++ js "." ++ D)
        with (cu "." :: B ++ js "." ++ C ++ js "." ++ D) in E3.
      simpl in E3. symmetry in E3.
      apply digits_before_dot in E3; auto.
      subst o. lia.
    + (* a domain name *)
      apply domainName_has_tldChar in H3. destruct H3 as [c [Hin Hc]].
      rewrite Forall_forall in Hbody.
      assert (Hq : quadChar c).
      { apply Hbody. rewrite E3. apply in_or_app. left. exact Hin. }
      rewrite (quadChar_not_tld c Hq) in Hc. discriminate.
  - (* the short form *)
    apply shortForm_start in HL.
    destruct HL as [[a [b [c [d [t [E [Ha _]]]]]]]|Hat].
    + change (js "http://") with (cu "h" :: js "ttp://") in E.
      simpl in E. injection E as E _.
      apply (http_not_letterW a); auto.
    + apply Hnoat. exact Hat.
Qed.

(** C4: the IPv4 branch takes a first octet from 1 to 223 only; a text
    "http://A.B.C.D" whose first numeral is 0 or at least 224 is not
    matched, and "http://192.168.1.1" is. *)
Theorem ipv4_first_octet_range :
  (forall x c z,
      compile true ipAddress x c = Some z ->
      exists o t, rest x = o ++ cu "." :: t
                  /\ Forall isDigit o /\ (1 <= decimalValue o <= 223)%N)
  /\ (forall A B C D,
         Forall isDigit A -> Forall isDigit B ->
         Forall isDigit C -> Forall isDigit D ->
         (decimalValue A = 0 \/ 224 <= decimalValue A)%N ->
         getUrlAtTextEnd (js "http://" ++ dotted A B C D) = None)
  /\ getUrlAtTextEnd (js "http://192.168.1.1") = Some (js "http://192.168.1.1")
  /\ getUrlAtTextEnd (js "http://224.0.0.1") = None
  /\ getUrlAtTextEnd (js "http://0.0.0.0") = None.
Proof.
  split; [|split; [exact reserved_quad_not_matched|]].
  - intros x c z H.
    apply compile_sound in H. destruct H as [y [Hm _]].
    apply matches_lang in Hm. destruct Hm as [w [[Hw _] HL]].
    apply ipAddress_first_octet in HL.
    destruct HL as [o [t [-> [Ho Hr]]]].
    exists o, (t ++ rest y). split; [|split; assumption].
    rewrite Hw, <- app_assoc. reflexivity.
  - repeat split; vm_compute; reflexivity.
Qed.

Lemma ipv4_first_octet_range_witness :
  (exists o t, js "192.168.1.1" = o ++ cu "." :: t
               /\ Forall isDigit o /\ (1 <= decimalValue o <= 223)%N)
  /\ getUrlAtTextEnd
       (js "http://" ++ dotted (js "239") (js "255") (js "255") (js "250"))
     = None.
Proof.
  split.
  { eapply (proj1 ipv4_first_octet_range
                  (mkState 0 (js "192.168.1.1") noCaptures) accept).
    vm_compute. reflexivity. }
  apply (proj1 (proj2 ipv4_first_octet_range)).
  - unfold isDigit. repeat constructor; vm_compute; discriminate.
  - unfold isDigit. repeat constructor; vm_compute; discriminate.
  - unfold isDigit. repeat constructor; vm_compute; discriminate.
  - unfold isDigit. repeat constructor; vm_compute; discriminate.
  - right. vm_compute. discriminate.
Defined.

(** A match is never the empty string. *)
Lemma getUrlAtTextEnd_truthy (text r : JSString) :
  getUrlAtTextEnd text = Some r -> truthy r = true.
Proof.
  intros H. apply getUrlAtTextEnd_shape in H.
  destruct H as [pre [_ [_ [H|H]]]].
  - apply fullForm_has_slashes in H. destruct H as [u [v ->]].
    unfold truthy. rewrite !length_app. simpl.
    destruct (length u + S (S (length v))) eqn:E; [lia|reflexivity].
  - apply shortForm_start in H.
    destruct H as [[a [b [c [d [t [-> _]]]]]]|H]; [reflexivity|].
    destruct r; [destruct H|reflexivity].
Qed.

(** ** The controller *)

Section PluginFacts.

Context {engine : Engine} {utils : Utils} {config : Config}.

Lemma applyAutoLink_calls (url : JSString) (range : Range Position) (st : State) :
  applyAutoLinkCalls (_applyAutoLink url range st)
  = (url, range) :: applyAutoLinkCalls st.
Proof.
  unfold _applyAutoLink.
  match goal with |- context [if ?b then _ else _] => destruct b end;
    reflexivity.
Qed.

Lemma applyAutoLink_plugin_state (url : JSString) (range : Range Position)
      (st : State) :
  isEnabled (_applyAutoLink url range st) = isEnabled st
  /\ watcherIsEnabled (_applyAutoLink url range st) = watcherIsEnabled st
  /\ listensToChangeRange (_applyAutoLink url range st) = listensToChangeRange st.
Proof.
  unfold _applyAutoLink.
  match goal with |- context [if ?b then _ else _] => destruct b end;
    repeat split; reflexivity.
Qed.


(** C6: [_applyAutoLink] changes nothing on a range at whose start a
    node begins that carries [linkHref].  The check looks at that node
    only: when no node begins there ([nodeAfter] is null, as strictly
    inside a text node) or the node has no [linkHref], and the other
    three conditions hold, [linkHref] is written over the range and one
    undo on backspace is requested, whatever the characters of the range
    carry. *)
Theorem linked_node_at_start_is_noop
        (url : JSString) (range : Range Position) (st : State) :
  (forall item,
      nodeAfter (model st) (r_start range) = Some item ->
      hasAttribute item "linkHref" = true ->
      _applyAutoLink url range st = recordCall url range st)
  /\ (isEnabled st = true ->
      isLinkAllowedOnRange range (model st) = true ->
      linkHasProtocol (addLinkProtocolIfApplicable url defaultProtocol) = true ->
      nodeAfter (model st) (r_start range) = None
      \/ (exists item, nodeAfter (model st) (r_start range) = Some item
                       /\ hasAttribute item "linkHref" = false) ->
      model (_applyAutoLink url range st)
      = setAttribute "linkHref"
                     (addLinkProtocolIfApplicable url defaultProtocol)
                     range (model st)
      /\ undoOnBackspaceRequests (_applyAutoLink url range st)
         = S (undoOnBackspaceRequests st)).
Proof.
  split.
  - intros item Hnode Hattr.
    unfold _applyAutoLink. cbn [isEnabled model recordCall].
    unfold linkIsAlreadySet. rewrite Hnode, Hattr.
    rewrite !orb_true_r. reflexivity.
  - intros He Ha Hp Hnode.
    assert (Hset : linkIsAlreadySet (model st) range = false).
    { unfold linkIsAlreadySet.
      destruct Hnode as [Hnode|[item [Hnode Hattr]]]; rewrite Hnode;
        [reflexivity|exact Hattr]. }
    unfold _applyAutoLink. cbn [isEnabled model recordCall].
    rewrite He, Ha, Hp, Hset. cbn [negb orb].
    split; reflexivity.
Qed.

(** C7: the range a handler passes to [_applyAutoLink] is as long as the
    matched text; on the typing path it ends one position before the end
    of the watched range, on the other path at the end of the text line.
    (The shifts are taken inside the parent: the offsets stay at or
    above 0.) *)
Theorem linkRange_has_length_of_match :
  (forall (data : MatchedData) (st : State),
      isTyping (d_batch data) = true ->
      (Z.of_nat (length (d_url data)) + 1 <= offset (r_end (d_range data)))%Z ->
      exists linkRange,
        applyAutoLinkCalls (onMatchedData data st)
        = (d_url data, linkRange) :: applyAutoLinkCalls st
        /\ (offset (r_end linkRange) - offset (r_start linkRange)
            = Z.of_nat (length (d_url data)))%Z
        /\ (offset (r_end linkRange) = offset (r_end (d_range data)) - 1)%Z)
  /\ (forall (rangeToCheck range : Range Position) (text url : JSString)
             (st : State),
         getLastTextLine rangeToCheck (model st) = (text, range) ->
         getUrlAtTextEnd text = Some url ->
         (Z.of_nat (length url) <= offset (r_end range))%Z ->
         exists linkRange,
           applyAutoLinkCalls (_checkAndApplyAutoLinkOnRange rangeToCheck st)
           = (url, linkRange) :: applyAutoLinkCalls st
           /\ (offset (r_end linkRange) - offset (r_start linkRange)
               = Z.of_nat (length url))%Z
           /\ r_end linkRange = r_end range).
Proof.
  split.
  - intros data st Htyping Hin.
    unfold onMatchedData. rewrite Htyping. cbn [negb].
    pose proof (getShiftedBy_offset (r_end (d_range data)) (-1)
                                    ltac:(lia)) as E1.
    pose proof (getShiftedBy_offset
                  (getShiftedBy (r_end (d_range data)) (-1))
                  (- Z.of_nat (length (d_url data))) ltac:(lia)) as E2.
    eexists. split; [apply applyAutoLink_calls|].
    cbn [r_start r_end]. rewrite E2. split; lia.
  - intros rangeToCheck range text url st Hline Hurl Hin.
    unfold _checkAndApplyAutoLinkOnRange. rewrite Hline, Hurl.
    rewrite (getUrlAtTextEnd_truthy _ _ Hurl).
    eexists. split; [apply applyAutoLink_calls|].
    cbn [r_start r_end].
    rewrite getShiftedBy_offset by lia.
    split; [lia|reflexivity].
Qed.

Lemma applyAutoLink_bound url range st :
  bound st -> bound (_applyAutoLink url range st).
Proof.
  unfold bound.
  destruct (applyAutoLink_plugin_state url range st) as [H1 [H2 H3]].
  rewrite H1, H2, H3. auto.
Qed.

Lemma checkAndApply_bound rangeToCheck st :
  bound st -> bound (_checkAndApplyAutoLinkOnRange rangeToCheck st).
Proof.
  intros H. unfold _checkAndApplyAutoLinkOnRange.
  destruct (getLastTextLine rangeToCheck (model st)) as [text range].
  destruct (getUrlAtTextEnd text) as [url|]; [|exact H].
  destruct (truthy url); [|exact H].
  apply applyAutoLink_bound. exact H.
Qed.

Lemma dispatch_bound ev st : bound st -> bound (dispatch ev st).
Proof.
  intros H.
  assert (Hm : forall m, bound (setModel m st)) by (intros m; exact H).
  destruct ev as [m|m batch|m|m]; unfold dispatch.
  - destruct (listensToChangeRange (setModel m st)); [|apply Hm].
    destruct H as [H1 H2]. unfold bound, onChangeRange, setIsEnabled.
    cbn [listensToChangeRange watcherIsEnabled isEnabled setModel].
    rewrite H2. split; [exact H1|reflexivity].
  - destruct (watcherOnChangeData (setModel m st) batch) as [data|]; [|apply Hm].
    unfold onMatchedData. destruct (negb (isTyping (d_batch data))); [apply Hm|].
    apply applyAutoLink_bound. apply Hm.
  - destruct (listensToEnter (setModel m st)); [|apply Hm].
    unfold onEnterExecute.
    destruct (previousSibling (model (setModel m st))
                              (parent (selectionFirstPosition (model (setModel m st)))));
      [|apply Hm].
    apply checkAndApply_bound. apply Hm.
  - destruct (listensToShiftEnter (setModel m st)); [|apply Hm].
    unfold onShiftEnterExecute. apply checkAndApply_bound. apply Hm.
Qed.

Lemma reachable_bound st : reachable st -> bound st.
Proof.
  induction 1 as [st Hfresh|st ev Hr IH].
  - unfold afterInit, _enableShiftEnterHandling, _enableEnterHandling, init,
      _enableTypingHandling, bound.
    destruct hasEnterCommand, hasShiftEnterCommand; cbn; auto.
  - apply dispatch_bound. exact IH.
Qed.

(** C8: after a change of the selection range the plugin is enabled
    exactly when the parent of the selection anchor is not a code block;
    the watcher's [isEnabled] is the plugin's in every state; and while
    the plugin is disabled a change of the document data fires nothing:
    the state is left as it is. *)
Theorem enablement_follows_selection :
  (forall (st : State) (m : Model),
      reachable st ->
      isEnabled (dispatch (SelectionChangeRange m) st)
      = negb (elementIs (parent (selectionAnchor m)) "codeBlock"))
  /\ (forall st : State,
         reachable st -> watcherIsEnabled st = Some (isEnabled st))
  /\ (forall (st : State) (m : Model) (batch : Batch),
         reachable st ->
         isEnabled st = false ->
         watcherOnChangeData (setModel m st) batch = None
         /\ dispatch (DocumentChangeData m batch) st = setModel m st).
Proof.
  split; [|split].
  - intros st m Hr. apply reachable_bound in Hr. destruct Hr as [H1 H2].
    unfold dispatch. cbn [listensToChangeRange setModel]. rewrite H1.
    reflexivity.
  - intros st Hr. apply reachable_bound in Hr. apply Hr.
  - intros st m batch Hr Hdis. apply reachable_bound in Hr.
    destruct Hr as [H1 H2].
    assert (Hw : watcherOnChangeData (setModel m st) batch = None).
    { unfold watcherOnChangeData. cbn [watcherIsEnabled setModel].
      rewrite H2, Hdis. reflexivity. }
    split; [exact Hw|]. unfold dispatch. rewrite Hw. reflexivity.
Qed.

(** C9: a match that comes with a batch that is not a typing batch is
    dropped: the listener returns the state as it is, no range is made
    and [_applyAutoLink] is not called. *)
Theorem non_typing_batch_ignored :
  (forall (data : MatchedData) (st : State),
      isTyping (d_batch data) = false -> onMatchedData data st = st)
  /\ (forall (st : State) (m : Model) (batch : Batch),
         isTyping batch = false ->
         dispatch (DocumentChangeData m batch) st = setModel m st).
Proof.
  split.
  - intros data st H. unfold onMatchedData. rewrite H. reflexivity.
  - intros st m batch H. unfold dispatch.
    destruct (watcherOnChangeData (setModel m st) batch) as [data|] eqn:E;
      [|reflexivity].
    assert (Hb : d_batch data = batch).
    { unfold watcherOnChangeData in E.
      destruct (watcherIsEnabled (setModel m st)) as [[|]|]; try discriminate.
      destruct (getLastTextLine _ _) as [text range].
      destruct (testCallback text); [|discriminate].
      inversion E. reflexivity. }
    unfold onMatchedData. rewrite Hb, H. reflexivity.
Qed.

End PluginFacts.

(** ** The controller on the small engine *)


Lemma linked_node_at_start_is_noop_witness :
  _applyAutoLink Toy.exampleUrl Toy.exampleRange (Toy.start Toy.linkedUrl)
  = recordCall Toy.exampleUrl Toy.exampleRange (Toy.start Toy.linkedUrl)
  /\ (model (@_applyAutoLink TextNodes.engine Toy.utils Toy.config
                             Toy.exampleUrl TextNodes.insideRange
                             (TextNodes.start TextNodes.linkedPhrase))
      = Toy.setOnRange "linkHref" Toy.exampleUrl TextNodes.insideRange
                       TextNodes.linkedPhrase
      /\ undoOnBackspaceRequests
           (@_applyAutoLink TextNodes.engine Toy.utils Toy.config
                            Toy.exampleUrl TextNodes.insideRange
                            (TextNodes.start TextNodes.linkedPhrase))
         = 1).
Proof.
  split.
  - exact (proj1 (linked_node_at_start_is_noop
                    Toy.exampleUrl Toy.exampleRange (Toy.start Toy.linkedUrl))
                 (Toy.mkChar (cu "h") (Some Toy.exampleUrl))
                 eq_refl eq_refl).
  - exact (proj2 (@linked_node_at_start_is_noop
                    TextNodes.engine Toy.utils Toy.config
                    Toy.exampleUrl TextNodes.insideRange
                    (TextNodes.start TextNodes.linkedPhrase))
                 eq_refl eq_refl eq_refl (or_introl eq_refl)).
Defined.

(** C6, where it fails: a paragraph linked as a whole to another
    address is one text node and the URL that ends it starts inside
    that node.  The first character of the range carries [linkHref],
    and yet the link is written over the range: the document changes,
    directly and through the listener of the enter command. *)
Lemma start_inside_link_is_relinked :
  let st := TextNodes.start TextNodes.linkedPhrase in
  let st1 := @_applyAutoLink TextNodes.engine Toy.utils Toy.config
                             Toy.exampleUrl TextNodes.insideRange st in
  let st2 := @onEnterExecute TextNodes.engine Toy.utils Toy.config st in
  option_map (fun c => Toy.charHasAttribute c "linkHref")
             (Toy.charAfter TextNodes.linkedPhrase
                            (r_start TextNodes.insideRange))
  = Some true
  /\ model st1 <> model st
  /\ Toy.linksOf (model st) 0 = repeat (Some TextNodes.otherUrl) 22
  /\ Toy.linksOf (model st1) 0
     = repeat (Some TextNodes.otherUrl) 4 ++ repeat (Some Toy.exampleUrl) 18
  /\ undoOnBackspaceRequests st1 = 1
  /\ model st2 = model st1.
Proof.
  cbv zeta. split; [reflexivity|]. split.
  - intros H. apply (f_equal (fun m => Toy.linksOf m 0)) in H.
    vm_compute in H. discriminate H.
  - vm_compute. repeat split; reflexivity.
Qed.

(** On a paragraph linked as a whole to the URL itself the document
    stays the same, but each run requests one more undo on backspace. *)
Example relinking_is_repeated :
  let st := TextNodes.start TextNodes.linkedPhraseSame in
  let st1 := @_applyAutoLink TextNodes.engine Toy.utils Toy.config
                             Toy.exampleUrl TextNodes.insideRange st in
  let st2 := @_applyAutoLink TextNodes.engine Toy.utils Toy.config
                             Toy.exampleUrl TextNodes.insideRange st1 in
  model st2 = model st
  /\ undoOnBackspaceRequests st1 = 1
  /\ undoOnBackspaceRequests st2 = 2.
Proof. vm_compute. repeat split; reflexivity. Qed.

Lemma linkRange_has_length_of_match_witness :
  (exists linkRange,
      applyAutoLinkCalls
        (onMatchedData
           (mkMatchedData (mkBatch true) Toy.watchedRange Toy.exampleUrl)
           (Toy.start Toy.typedUrl))
      = (Toy.exampleUrl, linkRange) :: []
      /\ (offset (r_end linkRange) - offset (r_start linkRange) = 18)%Z
      /\ (offset (r_end linkRange) = 34 - 1)%Z)
  /\ (exists linkRange,
         applyAutoLinkCalls
           (_checkAndApplyAutoLinkOnRange Toy.leftParagraph
                                          (Toy.start Toy.afterEnter))
         = (js "ftp://files.example.org", linkRange) :: []
         /\ (offset (r_end linkRange) - offset (r_start linkRange) = 23)%Z
         /\ r_end linkRange = r_end Toy.leftParagraph).
Proof.
  split.
  - apply (proj1 linkRange_has_length_of_match
                 (mkMatchedData (mkBatch true) Toy.watchedRange Toy.exampleUrl)
                 (Toy.start Toy.typedUrl)).
    + reflexivity.
    + vm_compute. discriminate.
  - apply (proj2 linkRange_has_length_of_match
                 Toy.leftParagraph Toy.leftParagraph
                 (js "Visit ftp://files.example.org")
                 (js "ftp://files.example.org")
                 (Toy.start Toy.afterEnter)).
    + vm_compute. reflexivity.
    + vm_compute. reflexivity.
    + vm_compute. discriminate.
Defined.

Lemma enablement_follows_selection_witness :
  isEnabled (dispatch (SelectionChangeRange Toy.typedInCode)
                      (Toy.start Toy.typedUrl))
  = false
  /\ watcherIsEnabled (dispatch (SelectionChangeRange Toy.typedInCode)
                                (Toy.start Toy.typedUrl))
     = Some false
  /\ dispatch (DocumentChangeData Toy.typedInCode (mkBatch true))
              (dispatch (SelectionChangeRange Toy.typedInCode)
                        (Toy.start Toy.typedUrl))
     = setModel Toy.typedInCode
                (dispatch (SelectionChangeRange Toy.typedInCode)
                          (Toy.start Toy.typedUrl)).
Proof.
  assert (Hr : reachable (Toy.start Toy.typedUrl)).
  { apply reachable_init. repeat split; reflexivity. }
  split; [|split].
  - apply (proj1 enablement_follows_selection
                 (Toy.start Toy.typedUrl) Toy.typedInCode Hr).
  - apply (proj1 (proj2 enablement_follows_selection)
                 (dispatch (SelectionChangeRange Toy.typedInCode)
                           (Toy.start Toy.typedUrl))).
    apply reachable_step. exact Hr.
  - apply (proj2 (proj2 enablement_follows_selection)
                 (dispatch (SelectionChangeRange Toy.typedInCode)
                           (Toy.start Toy.typedUrl))
                 Toy.typedInCode (mkBatch true)).
    + apply reachable_step. exact Hr.
    + reflexivity.
Defined.

Lemma non_typing_batch_ignored_witness :
  onMatchedData (mkMatchedData (mkBatch false) Toy.watchedRange Toy.exampleUrl)
                (Toy.start Toy.typedUrl)
  = Toy.start Toy.typedUrl
  /\ dispatch (DocumentChangeData Toy.typedUrl (mkBatch false))
              (Toy.start Toy.typedUrl)
     = setModel Toy.typedUrl (Toy.start Toy.typedUrl).
Proof.
  split.
  - apply (proj1 non_typing_batch_ignored
                 (mkMatchedData (mkBatch false) Toy.watchedRange Toy.exampleUrl)
                 (Toy.start Toy.typedUrl)).
    reflexivity.
  - apply (proj2 non_typing_batch_ignored
                 (Toy.start Toy.typedUrl) Toy.typedUrl (mkBatch false)).
    reflexivity.
Defined.

(** Scenario A of the spec: the typed URL is linked, the space after it
    is not, and one undo on backspace is requested. *)
Example scenario_typed_url :
  let st := dispatch (DocumentChangeData Toy.typedUrl (mkBatch true))
                     (Toy.start Toy.typedUrl) in
  model st = Toy.linkedUrl
  /\ Toy.linksOf (model st) 0
     = repeat None 15 ++ repeat (Some Toy.exampleUrl) 18 ++ [None]
  /\ undoOnBackspaceRequests st = 1.
Proof. vm_compute. repeat split; reflexivity. Qed.

(** Scenario B: a bare domain is not linked, whatever the default
    protocol. *)
Example scenario_bare_domain :
  dispatch (DocumentChangeData Toy.typedBareDomain (mkBatch true))
           (Toy.start Toy.typedBareDomain)
  = Toy.start Toy.typedBareDomain.
Proof. vm_compute. reflexivity. Qed.

(** Scenario C: in a code block nothing is linked. *)
Example scenario_code_block :
  let st := dispatch (DocumentChangeData Toy.typedInCode (mkBatch true))
                     (dispatch (SelectionChangeRange Toy.typedInCode)
                               (Toy.start Toy.typedInCode)) in
  isEnabled st = false /\ model st = Toy.typedInCode
  /\ applyAutoLinkCalls st = [].
Proof. vm_compute. repeat split; reflexivity. Qed.

(** Scenario D: after Enter the URL that ends the paragraph left behind
    is linked. *)
Example scenario_enter :
  let st := dispatch (EnterExecuted Toy.afterEnter) (Toy.start Toy.afterEnter) in
  Toy.linksOf (model st) 0
  = repeat None 6 ++ repeat (Some (js "ftp://files.example.org")) 23
  /\ undoOnBackspaceRequests st = 1.
Proof. vm_compute. repeat split; reflexivity. Qed.

(** Scenario E: the pipeline run again on the linked text changes
    nothing. *)
Example scenario_already_linked :
  let st := dispatch (DocumentChangeData Toy.typedUrl (mkBatch true))
                     (Toy.start Toy.typedUrl) in
  let st' := dispatch (DocumentChangeData (model st) (mkBatch true)) st in
  model st' = model st
  /\ undoOnBackspaceRequests st' = undoOnBackspaceRequests st.
Proof. vm_compute. repeat split; reflexivity. Qed.

(** An address typed in a paragraph is linked with [mailto:], also
    when a default protocol is configured. *)
Example scenario_email :
  let m := Toy.mkDoc [Toy.plain "paragraph" "mail user@example.com "]
                     ((0, "paragraph"%string), 22%Z) in
  let st := dispatch (DocumentChangeData m (mkBatch true)) (Toy.start m) in
  Toy.linksOf (model st) 0
  = repeat None 5 ++ repeat (Some (js "mailto:user@example.com")) 16 ++ [None]
  /\ undoOnBackspaceRequests st = 1.
Proof. vm_compute. repeat split; reflexivity. Qed.

(** * Properties beyond the claims *)

(** ** The shortest match *)

Lemma LangIter_minLength (L : JSString -> Prop) (k : nat) :
  (forall w, L w -> k <= length w) ->
  forall n w, LangIter L n w -> n * k <= length w.
Proof.
  intros HL n. induction n as [|n IH]; intros w H; simpl in H.
  - simpl. lia.
  - destruct H as [w1 [w2 [-> [H1 H2]]]].
    apply HL in H1. apply IH in H2. rewrite length_app. simpl. lia.
Qed.

Lemma minLength_sound (ic : bool) (r : Regex) :
  forall w, Lang ic r w -> minLength r <= length w.
Proof.
  induction r as [A| | |r1 IH1 r2 IH2|r1 IH1 r2 IH2|r0 IH min max|n r0 IH|r0 IH];
    intros w H; simpl in H; simpl minLength.
  - destruct H as [ch [-> _]]. simpl. lia.
  - lia.
  - lia.
  - destruct H as [w1 [w2 [-> [H1 H2]]]].
    apply IH1 in H1. apply IH2 in H2. rewrite length_app. lia.
  - destruct H as [H|H]; [apply IH1 in H|apply IH2 in H]; lia.
  - destruct H as [n [Hn H]].
    apply (LangIter_minLength (Lang ic r0) (minLength r0) IH) in H.
    unfold countOk in Hn. destruct max as [k|]; nia.
  - apply IH. exact H.
  - lia.
Qed.

(** The text of a typing trigger ends with a non-space and a space. *)
Lemma isSingleSpaceAtTheEnd_last (text : JSString) :
  isSingleSpaceAtTheEnd text = true ->
  exists pre c, text = pre ++ [c; SPACE] /\ c <> SPACE /\ 4 < length text.
Proof.
  unfold isSingleSpaceAtTheEnd, MIN_LINK_LENGTH_WITH_SPACE_AT_END.
  intros H. apply andb_prop in H. destruct H as [H H3].
  apply andb_prop in H. destruct H as [H1 H2].
  apply Nat.ltb_lt in H1.
  destruct (two_last text) as [pre [c [d E]]]; [lia|].
  rewrite E in H2, H3.
  destruct (charAt_last pre c d) as [Hd Hc].
  rewrite Hd in H2. rewrite Hc in H3. unfold eqCodeUnit in H2, H3.
  apply N.eqb_eq in H2. subst d.
  exists pre, c. split; [exact E|]. split; [|exact H1].
  intros Hc'. subst c. rewrite N.eqb_refl in H3. discriminate.
Qed.

(** X1: every match is at least six code units long (the shortest are
    of the kind [//a.bc] and [a@b.cd]); the threshold of the typing
    trigger, four characters and a space, is never what decides. *)
Theorem match_at_least_six (text r : JSString) :
  getUrlAtTextEnd text = Some r -> 6 <= length r.
Proof.
  intros H. apply getUrlAtTextEnd_shape in H.
  destruct H as [pre [_ [_ HL]]].
  apply (minLength_sound true) in HL. exact HL.
Qed.

Lemma match_at_least_six_witness : 6 <= length (js "//a.bc").
Proof.
  apply (match_at_least_six (js "see //a.bc")). vm_compute. reflexivity.
Defined.

(** X2: when the test callback of the watcher gives a URL, the text is
    that URL and one space after it, the URL starts the text or follows
    a white space, does not end with a space, and the text is at least
    seven code units long. *)
Theorem testCallback_shape (text url : JSString) :
  testCallback text = Some url ->
  exists pre, text = pre ++ url ++ [SPACE]
              /\ lineStartOrAfterSpace pre
              /\ (exists u c, url = u ++ [c] /\ c <> SPACE)
              /\ 7 <= length text.
Proof.
  unfold testCallback. intros H.
  destruct (isSingleSpaceAtTheEnd text) eqn:Es; [|discriminate].
  cbn [negb] in H.
  apply isSingleSpaceAtTheEnd_last in Es.
  destruct Es as [p [c [-> [Hc _]]]].
  assert (Esub : substr0 (p ++ [c; SPACE]) (length (p ++ [c; SPACE]) - 1)
                 = p ++ [c]).
  { unfold substr0. rewrite length_app. simpl length.
    replace (length p + 2 - 1) with (length (p ++ [c]) + 0)
      by (rewrite length_app; simpl; lia).
    change (p ++ [c; SPACE]) with (p ++ [c] ++ [SPACE]).
    rewrite app_assoc, firstn_app_2. simpl. rewrite app_nil_r. reflexivity. }
  rewrite Esub in H.
  destruct (getUrlAtTextEnd (p ++ [c])) as [r|] eqn:E; [|discriminate].
  destruct (truthy r); [|discriminate].
  inversion H; subst r. clear H.
  pose proof (Hmin := minLength_sound true urlAlternatives).
  apply getUrlAtTextEnd_shape in E. destruct E as [pre [Et [Hpre HL]]].
  apply Hmin in HL. change (minLength urlAlternatives) with 6 in HL.
  destruct (exists_last (l := url)) as [u [c' Eu]].
  { intros ->. simpl in HL. lia. }
  subst url. rewrite app_assoc in Et. apply app_inj_tail in Et.
  destruct Et as [Ep Ec]. subst p c'.
  exists pre. split; [|split; [exact Hpre|split]].
  - rewrite <- !app_assoc. reflexivity.
  - exists u, c. auto.
  - rewrite !length_app in *. simpl in *. lia.
Qed.

Lemma testCallback_shape_witness :
  exists pre, js "see http://a.bc " = pre ++ js "http://a.bc" ++ [SPACE]
              /\ lineStartOrAfterSpace pre
              /\ (exists u c, js "http://a.bc" = u ++ [c] /\ c <> SPACE)
              /\ 7 <= length (js "see http://a.bc ").
Proof.
  apply (testCallback_shape (js "see http://a.bc ") (js "http://a.bc")).
  vm_compute. reflexivity.
Defined.

(** ** The [i] flag *)

Lemma canonicalClass_lower (A : CharSet) (ch : CodeUnit) :
  existsb A (canonicalClass true (toLowerAscii ch))
  = existsb A (canonicalClass true ch).
Proof.
  unfold toLowerAscii, canonicalClass.
  destruct (isUpper ch) eqn:Eu; [|rewrite Eu; reflexivity].
  assert (El : isLower ch = false).
  { unfold isLower, isUpper in *.
    apply andb_prop in Eu. destruct Eu as [H1 H2]. apply N.leb_le in H1, H2.
    destruct (N.leb_spec 97%N ch); [lia|reflexivity]. }
  assert (El' : isLower (ch + 32)%N = true).
  { unfold isLower, isUpper in *.
    apply andb_prop in Eu. destruct Eu as [H1 H2]. apply N.leb_le in H1, H2.
    apply andb_true_intro. split; apply N.leb_le; lia. }
  rewrite El, El'. simpl.
  replace (ch + 32 - 32)%N with ch by lia.
  rewrite !orb_false_r. apply orb_comm.
Qed.

Section LowerCase.

Lemma RepeatMatcher_step (m : Matcher) (parens : list nat)
      (min b : nat) (x : MatchState) (c : Continuation) :
  RepeatMatcher m parens min (S b) x c
  = if Nat.eqb min 0 then
      match m (clearCaptures parens x)
              (fun y =>
                 if (Nat.eqb min 0 && Nat.eqb (endIndex y) (endIndex x))%bool
                 then None
                 else RepeatMatcher m parens (Nat.pred min) b y c) with
      | Some z => Some z
      | None => c x
      end
    else m (clearCaptures parens x)
           (fun y =>
              if (Nat.eqb min 0 && Nat.eqb (endIndex y) (endIndex x))%bool
              then None
              else RepeatMatcher m parens (Nat.pred min) b y c).
Proof. reflexivity. Qed.

Lemma RepeatMatcher_lower (m : Matcher) (parens : list nat) :
  (forall x c c', mirrors c' c ->
                  m (lowerState x) c' = option_map lowerState (m x c)) ->
  forall budget min x c c',
    mirrors c' c ->
    RepeatMatcher m parens min budget (lowerState x) c'
    = option_map lowerState (RepeatMatcher m parens min budget x c).
Proof.
  intros Hm budget.
  induction budget as [|b IH]; intros min x c c' H.
  - apply H.
  - rewrite !RepeatMatcher_step.
    change (clearCaptures parens (lowerState x))
      with (lowerState (clearCaptures parens x)).
    rewrite (Hm (clearCaptures parens x)
                (fun y =>
                   if (Nat.eqb min 0 && Nat.eqb (endIndex y) (endIndex x))%bool
                   then None
                   else RepeatMatcher m parens (Nat.pred min) b y c)).
    + destruct (Nat.eqb min 0); [|reflexivity].
      destruct (m (clearCaptures parens x) _); [reflexivity|].
      apply H.
    + intros y. cbn [endIndex lowerState].
      destruct (Nat.eqb min 0 && Nat.eqb (endIndex y) (endIndex x))%bool;
        [reflexivity|].
      apply IH. exact H.
Qed.

Lemma compile_lower (r : Regex) :
  forall x c c',
    mirrors c' c ->
    compile true r (lowerState x) c'
    = option_map lowerState (compile true r x c).
Proof.
  induction r as [A| | |r1 IH1 r2 IH2|r1 IH1 r2 IH2|r0 IH min max|n r0 IH|r0 IH];
    intros x c c' H; simpl.
  - unfold CharacterSetMatcher. cbn [rest lowerState endIndex captures].
    destruct (rest x) as [|ch t]; [reflexivity|]. cbn [map].
    rewrite canonicalClass_lower.
    destruct (existsb A (canonicalClass true ch)); [|reflexivity].
    apply (H (mkState (S (endIndex x)) t (captures x))).
  - destruct (Nat.eqb (endIndex x) 0); [apply H|reflexivity].
  - destruct (rest x); [apply H|reflexivity].
  - apply IH1. intros y. apply IH2. exact H.
  - rewrite (IH1 x c c' H), (IH2 x c c' H).
    destruct (compile true r1 x c); reflexivity.
  - replace (budgetOf min max (lowerState x)) with (budgetOf min max x)
      by (unfold budgetOf; destruct max; [reflexivity|];
          cbn [rest lowerState]; rewrite length_map; reflexivity).
    apply (RepeatMatcher_lower (compile true r0) (groupsOf r0) IH). exact H.
  - apply IH. intros y.
    apply (H (setCapture n (endIndex x, endIndex y) y)).
  - assert (Ha : mirrors accept accept) by (intros y; reflexivity).
    rewrite (IH x accept accept Ha).
    destruct (compile true r0 x accept); [reflexivity|apply H].
Qed.

Lemma execFrom_lower (r : Regex) :
  forall input i,
    execFrom (compile true r) i (map toLowerAscii input)
    = option_map lowerState (execFrom (compile true r) i input).
Proof.
  assert (Ha : mirrors accept accept) by (intros y; reflexivity).
  induction input as [|a input IH]; intros i; simpl.
  - pose proof (compile_lower r (mkState i [] noCaptures) accept accept Ha)
      as E.
    unfold lowerState at 1 in E. cbn [endIndex rest captures map] in E.
    destruct (compile true r (mkState i [] noCaptures) accept);
      [exact E|reflexivity].
  - pose proof (compile_lower r (mkState i (a :: input) noCaptures)
                              accept accept Ha) as E.
    unfold lowerState at 1 in E. cbn [endIndex rest captures map] in E.
    rewrite E.
    destruct (compile true r (mkState i (a :: input) noCaptures) accept);
      [reflexivity|apply IH].
Qed.

End LowerCase.

(** X3: matching ignores the case of ASCII letters: on the text with its
    ASCII letters made lower-case the result is the result on the text,
    made lower-case the same way. *)
Theorem getUrlAtTextEnd_ignores_case (text : JSString) :
  getUrlAtTextEnd (map toLowerAscii text)
  = option_map (map toLowerAscii) (getUrlAtTextEnd text).
Proof.
  unfold getUrlAtTextEnd, exec.
  change (ignoreCase URL_REG_EXP) with true.
  rewrite execFrom_lower.
  destruct (execFrom (compile true (source URL_REG_EXP)) 0 text) as [z|];
    [|reflexivity].
  cbn [option_map]. unfold group. cbn [captures lowerState].
  destruct (captures z URL_GROUP_IN_MATCH) as [[s e]|]; [|reflexivity].
  cbn [option_map]. unfold substring.
  rewrite skipn_map, firstn_map. reflexivity.
Qed.

(** ** The four octets of the IPv4 branch *)

Lemma Lang_digits_1_2 (w : JSString) :
  Lang true (rep (Chars digit) 1 2) w ->
  (exists a, w = [a] /\ isDigit a)
  \/ (exists a b, w = [a; b] /\ isDigit a /\ isDigit b).
Proof.
  unfold isDigit.
  intros [n [[Hn Hle] H]].
  destruct n as [|[|[|n]]]; [lia| | |lia].
  - left. destruct H as [w1 [w2 [-> [[a [-> Ha]] ->]]]].
    digit_bounds. exists a. auto.
  - right.
    destruct H as [w1 [w2 [-> [[a [-> Ha]] [w3 [w4 [-> [[b [-> Hb]] ->]]]]]]]].
    digit_bounds. exists a, b. auto.
Qed.

(** [(?:1?\d{1,2}|2[0-4]\d|25[0-5])]: a numeral from 0 to 255. *)
Lemma ipMiddleOctet_range (o : JSString) :
  Lang true
       (alt [seq [opt (lit "1"); rep (Chars digit) 1 2];
             seq [lit "2"; Chars (arange "0" "4"); Chars digit];
             seq [str "25"; Chars (arange "0" "5")]]) o ->
  Forall isDigit o /\ (decimalValue o <= 255)%N.
Proof.
  intros H. destruct H as [H|[H|H]].
  - destruct H as [w1 [w2 [-> [H1 H2]]]].
    apply Lang_opt in H1. apply Lang_digits_1_2 in H2.
    unfold isDigit in *.
    destruct H1 as [->|[c1 [-> H1]]];
      destruct H2 as [[a [-> Ha]]|[a [b [-> [Ha Hb]]]]];
      digit_bounds;
      (split; [repeat constructor; lia|];
       unfold decimalValue; cbn [fold_left app]; lia).
  - unfold isDigit.
    destruct H as [w1 [w2 [-> [[c1 [-> H1]] H]]]].
    destruct H as [w3 [w4 [-> [[c2 [-> H2]] [c3 [-> H3]]]]]].
    digit_bounds.
    split; [repeat constructor; lia|].
    unfold decimalValue. cbn [fold_left app]. lia.
  - unfold isDigit.
    destruct H as [w1 [w2 [-> [H [c3 [-> H3]]]]]].
    destruct H as [w3 [w4 [-> [[c1 [-> H1]] [c2 [-> H2]]]]]].
    digit_bounds.
    split; [repeat constructor; lia|].
    unfold decimalValue. cbn [fold_left app]. lia.
Qed.

(** [(?:[1-9]\d?|1\d\d|2[0-4]\d|25[0-4])]: a numeral from 1 to 254. *)
Lemma ipLastOctet_range (o : JSString) :
  Lang true
       (alt [seq [Chars (arange "1" "9"); opt (Chars digit)];
             seq [lit "1"; Chars digit; Chars digit];
             seq [lit "2"; Chars (arange "0" "4"); Chars digit];
             seq [str "25"; Chars (arange "0" "4")]]) o ->
  Forall isDigit o /\ (1 <= decimalValue o <= 254)%N.
Proof.
  unfold isDigit. intros H.
  destruct H as [H|[H|[H|H]]].
  - destruct H as [w1 [w2 [-> [[c1 [-> H1]] H2]]]].
    apply Lang_opt in H2. destruct H2 as [->|[c2 [-> H2]]]; digit_bounds.
    + split; [repeat constructor; lia|].
      unfold decimalValue. cbn [fold_left app]. lia.
    + split; [repeat constructor; lia|].
      unfold decimalValue. cbn [fold_left app]. lia.
  - destruct H as [w1 [w2 [-> [[c1 [-> H1]] H]]]].
    destruct H as [w3 [w4 [-> [[c2 [-> H2]] [c3 [-> H3]]]]]].
    digit_bounds.
    split; [repeat constructor; lia|].
    unfold decimalValue. cbn [fold_left app]. lia.
  - destruct H as [w1 [w2 [-> [[c1 [-> H1]] H]]]].
    destruct H as [w3 [w4 [-> [[c2 [-> H2]] [c3 [-> H3]]]]]].
    digit_bounds.
    split; [repeat constructor; lia|].
    unfold decimalValue. cbn [fold_left app]. lia.
  - destruct H as [w1 [w2 [-> [H [c3 [-> H3]]]]]].
    destruct H as [w3 [w4 [-> [[c1 [-> H1]] [c2 [-> H2]]]]]].
    digit_bounds.
    split; [repeat constructor; lia|].
    unfold decimalValue. cbn [fold_left app]. lia.
Qed.

(** A word of the IPv4 branch is a dotted quad with its octets in the
    ranges of the pattern. *)
Lemma ipAddress_octets (w : JSString) :
  Lang true ipAddress w ->
  exists o1 o2 o3 o4,
    w = dotted o1 o2 o3 o4
    /\ Forall isDigit o1 /\ Forall isDigit o2
    /\ Forall isDigit o3 /\ Forall isDigit o4
    /\ (1 <= decimalValue o1 <= 223)%N
    /\ (decimalValue o2 <= 255)%N
    /\ (decimalValue o3 <= 255)%N
    /\ (1 <= decimalValue o4 <= 254)%N.
Proof.
  intros [o1 [w' [-> [H1 H]]]].
  apply ipFirstOctet_range in H1. destruct H1 as [Hd1 Hv1].
  destruct H as [wm [wl [-> [[n [[Hn Hle] Hm]] Hl]]]].
  assert (n = 2) by lia. subst n.
  destruct Hm as [u2 [r2 [-> [[d2 [o2 [-> [[c2 [-> Hc2]] H2]]]]
                              [u3 [r3 [-> [[d3 [o3 [-> [[c3 [-> Hc3]] H3]]]] ->]]]]]]]].
  destruct Hl as [d4 [o4 [-> [[c4 [-> Hc4]] H4]]]].
  apply ipMiddleOctet_range in H2, H3. apply ipLastOctet_range in H4.
  destruct H2 as [Hd2 Hv2]. destruct H3 as [Hd3 Hv3]. destruct H4 as [Hd4 Hv4].
  digit_bounds.
  exists o1, o2, o3, o4. repeat split; auto; try lia.
  unfold dotted. change (js ".") with [46%N].
  rewrite app_nil_r, <- !app_assoc. reflexivity.
Qed.

Lemma portNumber_shape (w : JSString) :
  Lang true portNumber w -> w = [] \/ exists t, w = cu ":" :: t.
Proof.
  intros H. apply Lang_opt in H. destruct H as [->|H]; [left; reflexivity|].
  right. destruct H as [w1 [w2 [-> [[c [-> Hc]] _]]]].
  digit_bounds. exists w2. reflexivity.
Qed.

(** Two dotted quads of numerals with a common continuation: the first
    three numerals are the same. *)
Lemma dotted_prefix (o1 o2 o3 o4 A B C D t : JSString) :
  Forall isDigit o1 -> Forall isDigit o2 -> Forall isDigit o3 ->
  Forall isDigit A -> Forall isDigit B -> Forall isDigit C ->
  dotted A B C D = dotted o1 o2 o3 o4 ++ t ->
  o1 = A /\ o2 = B /\ o3 = C /\ D = o4 ++ t.
Proof.
  intros H1 H2 H3 HA HB HC E. unfold dotted in E.
  change (js ".") with [cu "."] in E. rewrite <- !app_assoc in E.
  simpl in E.
  assert (E1 : o1 = A) by (symmetry in E; eapply digits_before_dot; eauto).
  subst o1. apply app_inv_head in E. injection E as E.
  assert (E2 : o2 = B) by (symmetry in E; eapply digits_before_dot; eauto).
  subst o2. apply app_inv_head in E. injection E as E.
  assert (E3 : o3 = C) by (symmetry in E; eapply digits_before_dot; eauto).
  subst o3. apply app_inv_head in E. injection E as E.
  auto.
Qed.

(** Whatever matches "http://A.B.C.D" takes the IPv4 branch on the
    whole quad. *)
Lemma quad_match_is_ip (A B C D r : JSString) :
  Forall isDigit A -> Forall isDigit B -> Forall isDigit C -> Forall isDigit D ->
  getUrlAtTextEnd (js "http://" ++ dotted A B C D) = Some r ->
  Lang true ipAddress (dotted A B C D).
Proof.
  intros HA HB HC HD E.
  pose proof (dotted_quadChars A B C D HA HB HC HD) as Hbody.
  apply getUrlAtTextEnd_shape in E. destruct E as [pre [Et [Hpre HL]]].
  assert (Hnospace : Forall (fun c => isWhiteSpace c = false)
                            (js "http://" ++ dotted A B C D)).
  { apply Forall_app. split.
    - repeat constructor.
    - eapply Forall_impl; [|exact Hbody]. apply quadChar_not_space. }
  assert (Hnot : forall k, In k [cu "@"; cu "/"; cu ":"; cu "?"; cu "#"] ->
                           ~ In k (dotted A B C D)).
  { intros k Hk Hin. rewrite Forall_forall in Hbody. apply Hbody in Hin.
    unfold quadChar, isDigit in Hin. simpl in Hk.
    destruct Hk as [<-|[<-|[<-|[<-|[<-|[]]]]]]; vm_compute in Hin;
      (destruct Hin as [[H1 H2]|H];
       [try (apply H1; reflexivity); try (apply H2; reflexivity)
       |discriminate]). }
  assert (Hnoat : ~ In (cu "@") (js "http://" ++ dotted A B C D)).
  { intros Hin. apply in_app_or in Hin. destruct Hin as [Hin|Hin].
    - vm_compute in Hin. intuition discriminate.
    - revert Hin. apply Hnot. simpl. auto. }
  assert (pre = []).
  { destruct Hpre as [->|[pre' [ws [-> Hws]]]]; [reflexivity|].
    rewrite Et in Hnospace. rewrite Forall_forall in Hnospace.
    rewrite Hnospace in Hws; [discriminate|].
    apply in_or_app. left. apply in_or_app. right. left. reflexivity. }
  subst pre. simpl in Et. subst r.
  destruct HL as [HL|HL].
  - change (Lang true (Seq protocolIdentifier
                           (Seq basicAuth
                                (Seq (Alt ipAddress domainName)
                                     (Seq portNumber resourcePath))))
                 (js "http://" ++ dotted A B C D)) in HL.
    destruct HL as [w1 [t1 [E1 [H1 HL]]]].
    apply protocolIdentifier_shape in H1. destruct H1 as [s ->].
    symmetry in E1. apply protocol_of_http in E1;
      [|apply Hnot; simpl; auto].
    subst t1.
    destruct HL as [w2 [t2 [E2 [H2 HL]]]].
    apply basicAuth_shape in H2. destruct H2 as [->|H2].
    2:{ exfalso. apply Hnoat. apply in_or_app. right. rewrite E2.
        apply in_or_app. left. exact H2. }
    simpl in E2. subst t2.
    destruct HL as [w3 [t3 [E3 [[H3|H3] [w4 [w5 [-> [H4 H5]]]]]]]].
    + pose proof H3 as Hip.
      apply ipAddress_octets in H3.
      destruct H3 as [o1 [o2 [o3 [o4 [-> [Hd1 [Hd2 [Hd3 [Hd4 _]]]]]]]]].
      destruct (dotted_prefix o1 o2 o3 o4 A B C D (w4 ++ w5)
                              Hd1 Hd2 Hd3 HA HB HC E3)
        as [-> [-> [-> ED]]].
      assert (Ht : w4 ++ w5 = []).
      { destruct (w4 ++ w5) as [|k t] eqn:Ek; [reflexivity|exfalso].
        assert (Hk : In k [cu "@"; cu "/"; cu ":"; cu "?"; cu "#"]).
        { apply portNumber_shape in H4. apply resourcePath_shape in H5.
          destruct H4 as [->|[t4 ->]].
          - simpl in Ek. destruct H5 as [->|[c [b [-> [Hc _]]]]];
              [discriminate|].
            injection Ek as -> _. apply member_pathStart in Hc.
            simpl. intuition.
          - simpl in Ek. injection Ek as <- _. simpl. auto. }
        apply (Hnot k Hk). unfold dotted.
        do 6 (apply in_or_app; right).
        rewrite ED. apply in_or_app. right. left. reflexivity. }
      rewrite Ht, app_nil_r in E3. rewrite E3. exact Hip.
    + exfalso.
      apply domainName_has_tldChar in H3. destruct H3 as [c [Hin Hc]].
      rewrite Forall_forall in Hbody.
      assert (Hq : quadChar c).
      { apply Hbody. rewrite E3. apply in_or_app. left. exact Hin. }
      rewrite (quadChar_not_tld c Hq) in Hc. discriminate.
  - exfalso. apply shortForm_start in HL.
    destruct HL as [[a [b [c [d [t [E [Ha _]]]]]]]|Hat].
    + change (js "http://") with (cu "h" :: js "ttp://") in E.
      simpl in E. injection E as E _.
      apply (http_not_letterW a); auto.
    + apply Hnoat. exact Hat.
Qed.

(** X4: a run of the IPv4 branch takes a dotted quad whose first octet
    is from 1 to 223, whose middle octets are at most 255 and whose last
    octet is from 1 to 254; so a text "http://A.B.C.D" is matched only
    with its numerals in these ranges: the addresses x.x.x.0 and
    x.x.x.255 are not linked. *)
Theorem ipv4_octet_ranges :
  (forall x c z,
      compile true ipAddress x c = Some z ->
      exists o1 o2 o3 o4 t,
        rest x = dotted o1 o2 o3 o4 ++ t
        /\ (1 <= decimalValue o1 <= 223)%N
        /\ (decimalValue o2 <= 255)%N
        /\ (decimalValue o3 <= 255)%N
        /\ (1 <= decimalValue o4 <= 254)%N)
  /\ (forall A B C D r,
         Forall isDigit A -> Forall isDigit B ->
         Forall isDigit C -> Forall isDigit D ->
         getUrlAtTextEnd (js "http://" ++ dotted A B C D) = Some r ->
         (1 <= decimalValue A <= 223)%N
         /\ (decimalValue B <= 255)%N
         /\ (decimalValue C <= 255)%N
         /\ (1 <= decimalValue D <= 254)%N).
Proof.
  split.
  - intros x c z H.
    apply compile_sound in H. destruct H as [y [Hm _]].
    apply matches_lang in Hm. destruct Hm as [w [[Hw _] HL]].
    apply ipAddress_octets in HL.
    destruct HL as [o1 [o2 [o3 [o4 [-> [_ [_ [_ [_ Hv]]]]]]]]].
    exists o1, o2, o3, o4, (rest y). split; [exact Hw|exact Hv].
  - intros A B C D r HA HB HC HD H.
    pose proof (quad_match_is_ip A B C D r HA HB HC HD H) as Hip.
    apply ipAddress_octets in Hip.
    destruct Hip as [o1 [o2 [o3 [o4 [E [Hd1 [Hd2 [Hd3 [Hd4 Hv]]]]]]]]].
    rewrite <- (app_nil_r (dotted o1 o2 o3 o4)) in E.
    destruct (dotted_prefix o1 o2 o3 o4 A B C D [] Hd1 Hd2 Hd3 HA HB HC E)
      as [-> [-> [-> ED]]].
    rewrite app_nil_r in ED. subst o4. exact Hv.
Qed.

Lemma ipv4_octet_ranges_witness :
  (exists o1 o2 o3 o4 t,
      js "10.0.0.1/x" = dotted o1 o2 o3 o4 ++ t
      /\ (1 <= decimalValue o1 <= 223)%N
      /\ (decimalValue o2 <= 255)%N
      /\ (decimalValue o3 <= 255)%N
      /\ (1 <= decimalValue o4 <= 254)%N)
  /\ ((1 <= decimalValue (js "192") <= 223)%N
      /\ (decimalValue (js "168") <= 255)%N
      /\ (decimalValue (js "1") <= 255)%N
      /\ (1 <= decimalValue (js "1") <= 254)%N).
Proof.
  split.
  - eapply (proj1 ipv4_octet_ranges
                  (mkState 0 (js "10.0.0.1/x") noCaptures) accept).
    vm_compute. reflexivity.
  - eapply (proj2 ipv4_octet_ranges (js "192") (js "168") (js "1") (js "1")).
    + unfold isDigit. repeat constructor; vm_compute; discriminate.
    + unfold isDigit. repeat constructor; vm_compute; discriminate.
    + unfold isDigit. repeat constructor; vm_compute; discriminate.
    + unfold isDigit. repeat constructor; vm_compute; discriminate.
    + vm_compute. reflexivity.
Defined.

(** The network and broadcast addresses of the comment in the pattern. *)
Example network_and_broadcast_not_linked :
  getUrlAtTextEnd (js "http://10.0.0.0") = None
  /\ getUrlAtTextEnd (js "http://10.0.0.255") = None
  /\ getUrlAtTextEnd (js "http://10.0.0.254") = Some (js "http://10.0.0.254").
Proof. repeat split; vm_compute; reflexivity. Qed.

(** ** [www.] and one label *)

(** The states a match of the two forms goes through. *)
Lemma exec_URL_states (text : JSString) (z : MatchState) :
  exec URL_REG_EXP text = Some z ->
  exists pre x y, text = pre ++ rest x
                  /\ lineStartOrAfterSpace pre
                  /\ matches true urlAlternatives x y
                  /\ rest y = [].
Proof.
  unfold exec. rewrite URL_REG_EXP_source.
  change (ignoreCase URL_REG_EXP) with true.
  intros H. apply execFrom_sound in H.
  destruct H as [pre [s [Etext H]]]. simpl Nat.add in H.
  apply compile_sound in H. destruct H as [y [Hm Hacc]].
  unfold accept in Hacc. inversion Hacc; subst y; clear Hacc.
  destruct Hm as [m1 [Hg1 [m2 [Hg2 [Hend Hz]]]]]. subst m2.
  destruct Hg1 as [m0 [Hg1 Hm1]].
  destruct Hg2 as [m3 [Hg2 Hz]].
  assert (Hr3 : rest m3 = []) by (subst z; exact Hend).
  destruct Hg1 as [[Hi Hm0]|[ch [t [Hr [Hch Hm0]]]]].
  - simpl in Hi. destruct pre; [|discriminate].
    exists [], m1, m3. subst m0 m1. simpl in *. subst s.
    repeat split; auto. left. reflexivity.
  - exists (pre ++ [ch]), m1, m3.
    simpl in Hr. subst s m0 m1. simpl in *.
    rewrite <- app_assoc. repeat split; auto.
    right. exists pre, ch. split; auto. apply member_space. exact Hch.
Qed.

Lemma matches_word (r : Regex) (x y : MatchState) :
  matches true r x y -> exists w, rest x = w ++ rest y /\ Lang true r w.
Proof.
  intros H. apply matches_lang in H. destruct H as [w [[Hw _] HL]].
  exists w. auto.
Qed.

Lemma hostLabel_has_dot (w : JSString) :
  Lang true hostLabel w -> In (cu ".") w.
Proof.
  intros [w1 [w2 [-> [_ [c [-> Hc]]]]]]. digit_bounds.
  apply in_or_app. right. left. reflexivity.
Qed.

Lemma LangIter_has (L : JSString -> Prop) (k : CodeUnit) :
  (forall w, L w -> In k w) ->
  forall n w, LangIter L (S n) w -> In k w.
Proof.
  intros HL n w [w1 [w2 [-> [H1 _]]]].
  apply in_or_app. left. auto.
Qed.

Lemma Lang_www_dot (w : JSString) :
  Lang true (str "www.") w -> exists a b c d, w = [a; b; c; d].
Proof.
  intros [w1 [r1 [-> [[a [-> _]] H]]]].
  destruct H as [w2 [r2 [-> [[b [-> _]] H]]]].
  destruct H as [w3 [r3 [-> [[c [-> _]] [d [-> _]]]]]].
  exists a, b, c, d. reflexivity.
Qed.

(** On a text that starts with [www.] the lookahead [(?!www\.)] fails. *)
Lemma www_lookahead (x : MatchState) (t : JSString) :
  rest x = js "www." ++ t -> compile true (str "www.") x accept <> None.
Proof.
  intros H. simpl. unfold CharacterSetMatcher. rewrite H. simpl.
  discriminate.
Qed.

(** A domain name of the full form on [www.] and a text without dot:
    there is none. *)
Lemma domainName_www_label (x y : MatchState) (L : JSString) :
  rest x = js "www." ++ L ->
  ~ In (cu ".") L ->
  ~ matches true domainName x y.
Proof.
  intros Hx Hdot H.
  destruct H as [m [H _]].
  destruct H as [a [Hg5 [b [Hneg [c [Hlabels _]]]]]].
  assert (Ha : rest a = L).
  { destruct Hg5 as [a0 [[[Hlook _]|[a1 [Hwww Ea0]]] Ea]].
    - exfalso. exact (www_lookahead x L Hx Hlook).
    - apply matches_word in Hwww. destruct Hwww as [w [Hw HL]].
      apply Lang_www_dot in HL. destruct HL as [c1 [c2 [c3 [c4 ->]]]].
      rewrite Hx in Hw.
      change (js "www.") with [119%N; 119%N; 119%N; 46%N] in Hw.
      simpl in Hw. injection Hw. intros Hw' _ _ _ _.
      subst a a0. cbn [rest setCapture]. symmetry. exact Hw'. }
  destruct Hneg as [_ ->].
  apply matches_word in Hlabels. destruct Hlabels as [w [Hw HL]].
  destruct HL as [n [Hn HL]].
  destruct n as [|n]; [simpl in Hn; lia|].
  apply (LangIter_has (Lang true hostLabel) (cu ".") hostLabel_has_dot) in HL.
  apply Hdot. rewrite <- Ha, Hw. apply in_or_app. left. exact HL.
Qed.

Lemma www_free (k : CodeUnit) (L : JSString) :
  k = cu "/" \/ k = cu "@" -> ~ In k L -> ~ In k (js "www." ++ L).
Proof.
  intros Hk Hno Hin. simpl in Hin.
  destruct Hin as [H|[H|[H|[H|Hin]]]]; [| | | |exact (Hno Hin)];
    destruct Hk as [-> | ->]; vm_compute in H; discriminate.
Qed.

(** X5: [www.] and a single label is not linked, with or without
    "http://" before it: on a text "http://www.L" or "www.L", where [L]
    has no dot, slash, at sign or white space, there is no match. *)
Theorem www_and_one_label_not_linked (L : JSString) :
  Forall labelLike L ->
  getUrlAtTextEnd (js "http://www." ++ L) = None
  /\ getUrlAtTextEnd (js "www." ++ L) = None.
Proof.
  intros HL.
  assert (Hnot : forall k, In k [cu "."; cu "/"; cu "@"] -> ~ In k L).
  { intros k Hk Hin. rewrite Forall_forall in HL. apply HL in Hin.
    destruct Hin as [_ [H1 [H2 H3]]]. simpl in Hk.
    destruct Hk as [<-|[<-|[<-|[]]]]; auto. }
  assert (Hns : Forall (fun c => isWhiteSpace c = false) L).
  { eapply Forall_impl; [|exact HL]. intros c [H _]. exact H. }
  split.
  - destruct (getUrlAtTextEnd (js "http://www." ++ L)) as [r|] eqn:E;
      [exfalso|reflexivity].
    unfold getUrlAtTextEnd in E.
    destruct (exec URL_REG_EXP (js "http://www." ++ L)) as [z|] eqn:Ex;
      [|discriminate].
    clear E. apply exec_URL_states in Ex.
    destruct Ex as [pre [x [y [Et [Hpre [Hm Hy]]]]]].
    assert (pre = []).
    { destruct Hpre as [->|[pre' [ws [-> Hws]]]]; [reflexivity|].
      assert (Hin : In ws (js "http://www." ++ L)).
      { rewrite Et. apply in_or_app. left. apply in_or_app. right.
        left. reflexivity. }
      apply in_app_or in Hin. destruct Hin as [Hin|Hin].
      - vm_compute in Hin.
        repeat (destruct Hin as [<-|Hin]; [vm_compute in Hws; discriminate|]).
        destruct Hin.
      - rewrite Forall_forall in Hns. rewrite (Hns _ Hin) in Hws.
        discriminate. }
    subst pre. change (js "http://www." ++ L = rest x) in Et.
    assert (Hnoat : ~ In (cu "@") (js "http://www." ++ L)).
    { intros Hin. apply in_app_or in Hin. destruct Hin as [Hin|Hin].
      - vm_compute in Hin. intuition discriminate.
      - revert Hin. apply Hnot. simpl. auto. }
    destruct Hm as [Hm|Hm].
    + (* the full form *)
      destruct Hm as [m [Hm _]].
      destruct Hm as [m1 [Hproto [m2 [Hauth [m3 [Hhost _]]]]]].
      apply matches_word in Hproto. destruct Hproto as [w1 [Hw1 H1]].
      apply protocolIdentifier_shape in H1. destruct H1 as [s ->].
      rewrite <- Et in Hw1. symmetry in Hw1.
      change (js "http://www." ++ L) with (js "http://" ++ (js "www." ++ L))
        in Hw1.
      apply protocol_of_http in Hw1.
      2:{ exact (www_free (cu "/") L (or_introl eq_refl)
                          (Hnot (cu "/") (or_intror (or_introl eq_refl)))). }
      change (rest m1 = js "www." ++ L) in Hw1.
      apply matches_word in Hauth. destruct Hauth as [w2 [Hw2 H2]].
      apply basicAuth_shape in H2. destruct H2 as [->|H2].
      2:{ apply Hnoat.
          change (js "http://www." ++ L) with (js "http://" ++ (js "www." ++ L)).
          apply in_or_app. right. rewrite <- Hw1, Hw2.
          apply in_or_app. left. exact H2. }
      simpl in Hw2. rewrite Hw1 in Hw2. symmetry in Hw2.
      destruct Hhost as [Hip|Hdom].
      * apply matches_word in Hip. destruct Hip as [w3 [Hw3 H3]].
        apply ipAddress_first_octet in H3.
        destruct H3 as [o [t [-> [Ho Hv]]]].
        destruct o as [|d o].
        { unfold decimalValue in Hv. simpl in Hv. lia. }
        rewrite Hw2 in Hw3. simpl in Hw3. injection Hw3 as Hd _.
        inversion Ho as [|? ? Hd' _]; subst. unfold isDigit in Hd'.
        vm_compute in Hd'. destruct Hd' as [_ Hd']. apply Hd'. reflexivity.
      * revert Hdom. apply (domainName_www_label m2 m3 L Hw2).
        apply Hnot. simpl. auto.
    + (* the short form *)
      apply matches_word in Hm. destruct Hm as [w [Hw Hs]].
      rewrite Hy, app_nil_r in Hw.
      apply shortForm_start in Hs.
      destruct Hs as [[a [b [c [d [t [E [Ha _]]]]]]]|Hat].
      * rewrite <- Hw, <- Et in E.
        change (js "http://www.") with (cu "h" :: js "ttp://www.") in E.
        simpl in E. injection E as E _.
        apply (http_not_letterW a); auto.
      * apply Hnoat. rewrite Et, Hw. exact Hat.
  - destruct (getUrlAtTextEnd (js "www." ++ L)) as [r|] eqn:E;
      [exfalso|reflexivity].
    apply getUrlAtTextEnd_shape in E. destruct E as [pre [Et [Hpre Hm]]].
    assert (pre = []).
    { destruct Hpre as [->|[pre' [ws [-> Hws]]]]; [reflexivity|].
      assert (Hin : In ws (js "www." ++ L)).
      { rewrite Et. apply in_or_app. left. apply in_or_app. right.
        left. reflexivity. }
      apply in_app_or in Hin. destruct Hin as [Hin|Hin].
      - vm_compute in Hin.
        repeat (destruct Hin as [<-|Hin]; [vm_compute in Hws; discriminate|]).
        destruct Hin.
      - rewrite Forall_forall in Hns. rewrite (Hns _ Hin) in Hws.
        discriminate. }
    subst pre. change (js "www." ++ L = r) in Et. subst r.
    destruct Hm as [Hm|Hm].
    + apply fullForm_has_slashes in Hm. destruct Hm as [u [v E]].
      assert (Hin : In (cu "/") (js "www." ++ L)).
      { rewrite E. apply in_or_app. right. left. reflexivity. }
      apply in_app_or in Hin. destruct Hin as [Hin|Hin].
      * vm_compute in Hin. intuition discriminate.
      * revert Hin. apply Hnot. simpl. auto.
    + destruct Hm as [w1 [t1 [E1 [H1 [w2 [t2 [-> [H2 _]]]]]]]].
      destruct H1 as [H1|H1].
      * destruct H1 as [x1 [y1 [-> [H1 [d [-> _]]]]]].
        destruct H1 as [p1 [q1 [-> [[a [-> _]] H1]]]].
        destruct H1 as [p2 [q2 [-> [[b [-> _]] [c [-> _]]]]]].
        change (js "www.") with [119%N; 119%N; 119%N; 46%N] in E1.
        simpl in E1. injection E1 as _ _ _ _ E1.
        destruct H2 as [n [Hn H2]].
        destruct n as [|n]; [simpl in Hn; lia|].
        assert (Hdot : In (cu ".") w2).
        { revert H2. apply LangIter_has.
          intros w [wa [wb [-> [_ Hb]]]].
          apply in_or_app. right. apply hostLabel_has_dot. exact Hb. }
        apply (Hnot (cu ".")); [simpl; auto|].
        rewrite E1. apply in_or_app. left. exact Hdot.
      * destruct H1 as [u [w3 [-> [_ [c [-> Hc]]]]]].
        apply member_single_at in Hc. subst c.
        assert (Hin : In (cu "@") (js "www." ++ L)).
        { rewrite E1. apply in_or_app. left. apply in_or_app. right.
          left. reflexivity. }
        apply in_app_or in Hin. destruct Hin as [Hin|Hin].
        -- vm_compute in Hin. intuition discriminate.
        -- revert Hin. apply Hnot. simpl. auto.
Qed.

Lemma www_and_one_label_not_linked_witness :
  getUrlAtTextEnd (js "http://www." ++ js "foo") = None
  /\ getUrlAtTextEnd (js "www." ++ js "foo") = None.
Proof.
  apply (www_and_one_label_not_linked (js "foo")).
  unfold labelLike.
  repeat constructor; try (vm_compute; reflexivity);
    vm_compute; discriminate.
Defined.

(** With one more label the host is one: [www.foo.com] is linked. *)
Example www_and_two_labels_linked :
  getUrlAtTextEnd (js "http://www.foo.com") = Some (js "http://www.foo.com")
  /\ getUrlAtTextEnd (js "www.foo.com") = Some (js "www.foo.com").
Proof. split; vm_compute; reflexivity. Qed.

(** ** Candidates that end with a separator *)

Lemma noPathStart_free (l : JSString) :
  Forall (fun c => member true pathStart c = false) l ->
  forall prev, noPathStart prev l = true.
Proof.
  induction 1 as [|c l Hc _ IH]; intros prev; simpl; [reflexivity|].
  rewrite Hc, IH. reflexivity.
Qed.

(** X6: a trailing candidate that ends with a dot, a colon or a slash,
    and in which every [/], [?] or [#] comes right after one of these,
    is not linked ("http://example.com."); in particular a token without
    [/], [?] and [#] followed by a full stop is not ("www.example.com."). *)
Theorem trailing_separator_not_linked :
  (forall pre cand,
      lineStartOrAfterSpace pre ->
      endsWithSeparator cand = true ->
      noPathStart None cand = true ->
      getUrlAtTextEnd (pre ++ cand) = None)
  /\ (forall pre token,
         lineStartOrAfterSpace pre ->
         Forall (fun c => member true pathStart c = false) token ->
         getUrlAtTextEnd (pre ++ token ++ js ".") = None).
Proof.
  split.
  - intros pre cand Hpre He Hp.
    apply rejectedCandidate_no_match; [|exact Hpre].
    unfold rejectedCandidate. rewrite He, Hp. reflexivity.
  - intros pre token Hpre Hfree.
    apply rejectedCandidate_no_match; [|exact Hpre].
    unfold rejectedCandidate. apply andb_true_intro. split.
    + unfold endsWithSeparator. rewrite rev_app_distr. reflexivity.
    + apply noPathStart_free. apply Forall_app. split; [exact Hfree|].
      repeat constructor.
Qed.

Lemma trailing_separator_not_linked_witness :
  getUrlAtTextEnd (js "see " ++ js "http://example.com.") = None
  /\ getUrlAtTextEnd (js "see " ++ js "www.example.com" ++ js ".") = None.
Proof.
  split.
  - apply (proj1 trailing_separator_not_linked).
    + right. exists (js "see"), SPACE. split; reflexivity.
    + vm_compute. reflexivity.
    + vm_compute. reflexivity.
  - apply (proj2 trailing_separator_not_linked).
    + right. exists (js "see"), SPACE. split; reflexivity.
    + repeat constructor.
Defined.

(** ** What the listeners write *)

Section ListenerFacts.

Context {engine : Engine} {utils : Utils} {config : Config}.

Lemma applyAutoLink_atMostOneLink (url : JSString) (range : Range Position)
      (st : State) :
  atMostOneLink st (_applyAutoLink url range st).
Proof.
  unfold atMostOneLink, _applyAutoLink. cbn [isEnabled model recordCall].
  destruct (isEnabled st) eqn:E1;
    destruct (isLinkAllowedOnRange range (model st)) eqn:E2;
    destruct (linkHasProtocol (addLinkProtocolIfApplicable url defaultProtocol))
      eqn:E3;
    destruct (linkIsAlreadySet (model st) range) eqn:E4;
    cbn [negb orb];
    (split; [|repeat split]);
    try (left; split; reflexivity).
  right. exists url, range. repeat split; auto.
Qed.

Lemma atMostOneLink_refl (st : State) : atMostOneLink st st.
Proof. split; [left; split; reflexivity|repeat split]. Qed.

Lemma checkAndApply_atMostOneLink (rangeToCheck : Range Position) (st : State) :
  atMostOneLink st (_checkAndApplyAutoLinkOnRange rangeToCheck st).
Proof.
  unfold _checkAndApplyAutoLinkOnRange.
  destruct (getLastTextLine rangeToCheck (model st)) as [text range].
  destruct (getUrlAtTextEnd text) as [url|]; [|apply atMostOneLink_refl].
  destruct (truthy url); [|apply atMostOneLink_refl].
  apply applyAutoLink_atMostOneLink.
Qed.

Lemma onMatchedData_atMostOneLink (data : MatchedData) (st : State) :
  atMostOneLink st (onMatchedData data st).
Proof.
  unfold onMatchedData.
  destruct (negb (isTyping (d_batch data))); [apply atMostOneLink_refl|].
  apply applyAutoLink_atMostOneLink.
Qed.

Lemma onEnterExecute_atMostOneLink (st : State) :
  atMostOneLink st (onEnterExecute st).
Proof.
  unfold onEnterExecute.
  destruct (previousSibling (model st)
                            (parent (selectionFirstPosition (model st))));
    [|apply atMostOneLink_refl].
  apply checkAndApply_atMostOneLink.
Qed.

Lemma onShiftEnterExecute_atMostOneLink (st : State) :
  atMostOneLink st (onShiftEnterExecute st).
Proof. unfold onShiftEnterExecute. apply checkAndApply_atMostOneLink. Qed.


(** ** Commands that the editor does not have *)

Lemma dispatch_listeners (ev : Event) (st : State) :
  listensToEnter (dispatch ev st) = listensToEnter st
  /\ listensToShiftEnter (dispatch ev st) = listensToShiftEnter st.
Proof.
  assert (Hl : forall m st', atMostOneLink (setModel m st) st' ->
                             listensToEnter st' = listensToEnter st
                             /\ listensToShiftEnter st' = listensToShiftEnter st).
  { intros m st' [_ [_ [_ [_ [H1 H2]]]]]. rewrite H1, H2. split; reflexivity. }
  destruct ev as [m|m batch|m|m]; unfold dispatch.
  - destruct (listensToChangeRange (setModel m st)); split; reflexivity.
  - destruct (watcherOnChangeData (setModel m st) batch) as [data|];
      [|split; reflexivity].
    apply (Hl m). apply onMatchedData_atMostOneLink.
  - destruct (listensToEnter (setModel m st)) eqn:E; [|split; reflexivity].
    apply (Hl m). apply onEnterExecute_atMostOneLink.
  - destruct (listensToShiftEnter (setModel m st)) eqn:E; [|split; reflexivity].
    apply (Hl m). apply onShiftEnterExecute_atMostOneLink.
Qed.

Lemma reachable_listeners (st : State) :
  reachable st ->
  listensToEnter st = hasEnterCommand
  /\ listensToShiftEnter st = hasShiftEnterCommand.
Proof.
  induction 1 as [st [_ [_ [He Hs]]]|st ev _ IH].
  - unfold afterInit, _enableShiftEnterHandling, _enableEnterHandling, init,
      _enableTypingHandling.
    destruct hasEnterCommand, hasShiftEnterCommand; cbn; auto.
  - destruct (dispatch_listeners ev st) as [H1 H2]. rewrite H1, H2. exact IH.
Qed.

(** X8: in every state of a running editor the listener of the enter
    command is attached exactly when the editor has that command, and
    likewise for shiftEnter; so in an editor without the command the
    execution of Enter (of Shift+Enter) is not seen by the plugin, which
    leaves the document as the editor made it. *)
Theorem listeners_follow_commands (st : State) :
  reachable st ->
  listensToEnter st = hasEnterCommand
  /\ listensToShiftEnter st = hasShiftEnterCommand
  /\ (hasEnterCommand = false ->
      forall m, dispatch (EnterExecuted m) st = setModel m st)
  /\ (hasShiftEnterCommand = false ->
      forall m, dispatch (ShiftEnterExecuted m) st = setModel m st).
Proof.
  intros Hr. destruct (reachable_listeners st Hr) as [He Hs].
  split; [exact He|]. split; [exact Hs|]. split.
  - intros Hno m. unfold dispatch.
    change (listensToEnter (setModel m st)) with (listensToEnter st).
    rewrite He, Hno. reflexivity.
  - intros Hno m. unfold dispatch.
    change (listensToShiftEnter (setModel m st)) with (listensToShiftEnter st).
    rewrite Hs, Hno. reflexivity.
Qed.

End ListenerFacts.

Lemma listeners_follow_commands_witness :
  listensToEnter (Toy.start Toy.afterEnter) = true
  /\ listensToShiftEnter (Toy.start Toy.afterEnter) = true
  /\ @dispatch Toy.engine Toy.utils NoCommands.config
               (EnterExecuted Toy.afterEnter) (NoCommands.start Toy.typedUrl)
     = setModel Toy.afterEnter (NoCommands.start Toy.typedUrl)
  /\ @dispatch Toy.engine Toy.utils NoCommands.config
               (ShiftEnterExecuted Toy.afterEnter) (NoCommands.start Toy.typedUrl)
     = setModel Toy.afterEnter (NoCommands.start Toy.typedUrl).
Proof.
  assert (Hr : reachable (Toy.start Toy.afterEnter)).
  { apply reachable_init. repeat split; reflexivity. }
  assert (Hb : @reachable Toy.engine Toy.utils NoCommands.config
                          (NoCommands.start Toy.typedUrl)).
  { apply (@reachable_init Toy.engine Toy.utils NoCommands.config).
    repeat split; reflexivity. }
  split; [|split; [|split]].
  - exact (proj1 (listeners_follow_commands (Toy.start Toy.afterEnter) Hr)).
  - exact (proj1 (proj2 (listeners_follow_commands (Toy.start Toy.afterEnter)
                                                   Hr))).
  - exact (proj1 (proj2 (proj2
             (@listeners_follow_commands Toy.engine Toy.utils NoCommands.config
                                         (NoCommands.start Toy.typedUrl) Hb)))
             eq_refl Toy.afterEnter).
  - exact (proj2 (proj2 (proj2
             (@listeners_follow_commands Toy.engine Toy.utils NoCommands.config
                                         (NoCommands.start Toy.typedUrl) Hb)))
             eq_refl Toy.afterEnter).
Defined.

(** ** Completeness of the matcher

    The pattern has no backreference, so whether a run succeeds depends
    on the places it goes through and not on the captures; and every
    run that [matches] allows to a state the continuation accepts makes
    the backtracking matcher succeed. *)

Section Completeness.

Variable ic : bool.

Lemma samePlace_refl (x : MatchState) : samePlace x x.
Proof. split; reflexivity. Qed.

Lemma agree_accept : agree accept accept.
Proof. intros y y' _. unfold accept. split; discriminate. Qed.

Lemma RepeatMatcher_agree (m : Matcher) (parens : list nat) :
  (forall c c' x x', agree c c' -> samePlace x x' ->
                     (m x c = None <-> m x' c' = None)) ->
  forall budget min x x' c c',
    agree c c' -> samePlace x x' ->
    (RepeatMatcher m parens min budget x c = None
     <-> RepeatMatcher m parens min budget x' c' = None).
Proof.
  intros Hm budget.
  induction budget as [|b IH]; intros min x x' c c' Hc Hx.
  - simpl. apply Hc. exact Hx.
  - rewrite !RepeatMatcher_step.
    assert (Hd : forall e : bool,
               agree
                 (fun y : MatchState =>
                    if (e && Nat.eqb (endIndex y) (endIndex x))%bool
                    then None
                    else RepeatMatcher m parens (Nat.pred min) b y c)
                 (fun y : MatchState =>
                    if (e && Nat.eqb (endIndex y) (endIndex x'))%bool
                    then None
                    else RepeatMatcher m parens (Nat.pred min) b y c')).
    { intros e y y' Hy.
      destruct Hy as [Hi Hr]. destruct Hx as [Hxi Hxr].
      rewrite <- Hi, <- Hxi.
      destruct (e && Nat.eqb (endIndex y) (endIndex x))%bool;
        [split; reflexivity|].
      apply IH; [exact Hc|split; assumption]. }
    assert (Hxr : samePlace (clearCaptures parens x) (clearCaptures parens x')).
    { destruct Hx as [Hxi Hxr]. split; assumption. }
    destruct (Nat.eqb min 0).
    + pose proof (Hm _ _ _ _ (Hd true) Hxr) as E.
      destruct (m (clearCaptures parens x) _);
        destruct (m (clearCaptures parens x') _).
      * split; discriminate.
      * destruct E as [_ E]. specialize (E eq_refl). discriminate.
      * destruct E as [E _]. specialize (E eq_refl). discriminate.
      * apply Hc. exact Hx.
    + exact (Hm _ _ _ _ (Hd false) Hxr).
Qed.

Lemma compile_agree (r : Regex) :
  forall c c' x x',
    agree c c' -> samePlace x x' ->
    (compile ic r x c = None <-> compile ic r x' c' = None).
Proof.
  induction r as [A| | |r1 IH1 r2 IH2|r1 IH1 r2 IH2|r0 IH min max|n r0 IH|r0 IH];
    intros c c' x x' Hc Hx; simpl.
  - unfold CharacterSetMatcher. destruct Hx as [Hi Hr]. rewrite <- Hr.
    destruct (rest x) as [|ch t]; [split; reflexivity|].
    destruct (existsb A (canonicalClass ic ch)); [|split; reflexivity].
    apply Hc. split; simpl; congruence.
  - destruct Hx as [Hi Hr]. rewrite <- Hi.
    destruct (Nat.eqb (endIndex x) 0); [|split; reflexivity].
    apply Hc. split; assumption.
  - destruct Hx as [Hi Hr]. rewrite <- Hr.
    destruct (rest x) eqn:Ex; [|split; reflexivity].
    apply Hc. split; congruence.
  - apply IH1; [|exact Hx]. intros y y' Hy. apply IH2; assumption.
  - pose proof (IH1 c c' x x' Hc Hx) as E1.
    pose proof (IH2 c c' x x' Hc Hx) as E2.
    destruct (compile ic r1 x c); destruct (compile ic r1 x' c').
    + split; discriminate.
    + destruct E1 as [_ E1]. specialize (E1 eq_refl). discriminate.
    + destruct E1 as [E1 _]. specialize (E1 eq_refl). discriminate.
    + exact E2.
  - replace (budgetOf min max x') with (budgetOf min max x)
      by (unfold budgetOf; destruct max; [reflexivity|];
          destruct Hx as [_ Hr]; rewrite Hr; reflexivity).
    apply (RepeatMatcher_agree (compile ic r0) (groupsOf r0) IH); assumption.
  - apply IH; [|exact Hx]. intros y y' Hy. apply Hc.
    destruct Hy as [Hi Hr]. destruct Hx as [Hxi Hxr].
    split; simpl; assumption.
  - pose proof (IH accept accept x x' agree_accept Hx) as E.
    destruct (compile ic r0 x accept); destruct (compile ic r0 x' accept).
    + split; reflexivity.
    + destruct E as [_ E]. specialize (E eq_refl). discriminate.
    + destruct E as [E _]. specialize (E eq_refl). discriminate.
    + apply Hc. exact Hx.
Qed.

Lemma RepeatMatcher_complete (r0 : Regex) :
  (forall x y c, agree c c -> matches ic r0 x y -> c y <> None ->
                 compile ic r0 x c <> None) ->
  forall n budget min x y c,
    agree c c ->
    n <= budget -> (min <= n \/ n = budget) ->
    iterate (matches ic r0) (groupsOf r0) n x y ->
    c y <> None ->
    RepeatMatcher (compile ic r0) (groupsOf r0) min budget x c <> None.
Proof.
  intros Hr0 n.
  induction n as [|n IH]; intros budget min x y c Hc Hle Hmin Hit Hy.
  - simpl in Hit. subst y.
    destruct budget as [|b]; [exact Hy|].
    rewrite RepeatMatcher_step.
    assert (min = 0) by lia. subst min. cbn [Nat.eqb].
    destruct (compile ic r0 (clearCaptures (groupsOf r0) x) _);
      [discriminate|exact Hy].
  - destruct Hit as [m1 [H1 Hit]].
    destruct budget as [|b]; [lia|].
    assert (Hagree : forall k, agree
              (fun y0 : MatchState =>
                 if (Nat.eqb k 0 && Nat.eqb (endIndex y0) (endIndex x))%bool
                 then None
                 else RepeatMatcher (compile ic r0) (groupsOf r0)
                                    (Nat.pred k) b y0 c)
              (fun y0 : MatchState =>
                 if (Nat.eqb k 0 && Nat.eqb (endIndex y0) (endIndex x))%bool
                 then None
                 else RepeatMatcher (compile ic r0) (groupsOf r0)
                                    (Nat.pred k) b y0 c)).
    { intros k y0 y0' Hy0. destruct Hy0 as [Hi Hr]. rewrite <- Hi.
      destruct (Nat.eqb k 0 && Nat.eqb (endIndex y0) (endIndex x))%bool;
        [split; reflexivity|].
      apply (RepeatMatcher_agree (compile ic r0) (groupsOf r0)
                                 (compile_agree r0));
        [exact Hc|split; assumption]. }
    destruct min as [|min'].
    + destruct (Nat.eqb (endIndex m1) (endIndex x)) eqn:Eend.
      * (* an iteration that consumed nothing: the rest of the run is a
           run from [x] *)
        apply Nat.eqb_eq in Eend.
        assert (Hsame : samePlace m1 x).
        { apply matches_lang in H1. destruct H1 as [w [[Hw1 Hw2] _]].
          simpl in Hw1, Hw2.
          assert (w = []) by (destruct w; [reflexivity|simpl in Hw2; lia]).
          subst w. split; [exact Eend|]. simpl in Hw1. congruence. }
        intros Hnone.
        apply (IH (S b) 0 m1 y c Hc); [lia|left; lia|exact Hit|exact Hy|].
        apply (proj2 (RepeatMatcher_agree (compile ic r0) (groupsOf r0)
                        (compile_agree r0) (S b) 0 m1 x c c Hc Hsame)).
        exact Hnone.
      * rewrite RepeatMatcher_step. cbn [Nat.eqb].
        match goal with
        | |- match ?e with _ => _ end <> None =>
            assert (He : e <> None); [|destruct e; [discriminate|congruence]]
        end.
        apply (Hr0 _ m1); [apply (Hagree 0)|exact H1|].
        cbn [Nat.eqb andb]. rewrite Eend.
        apply (IH b 0 m1 y c Hc); [lia|left; lia|exact Hit|exact Hy].
    + rewrite RepeatMatcher_step. cbn [Nat.eqb].
      apply (Hr0 _ m1); [apply (Hagree (S min'))|exact H1|].
      cbn [Nat.eqb andb Nat.pred].
      apply (IH b min' m1 y c Hc); [lia|lia|exact Hit|exact Hy].
Qed.

Lemma compile_complete (r : Regex) :
  forall x y c,
    agree c c -> matches ic r x y -> c y <> None -> compile ic r x c <> None.
Proof.
  induction r as [A| | |r1 IH1 r2 IH2|r1 IH1 r2 IH2|r0 IH min max|n r0 IH|r0 IH];
    intros x y c Hc Hm Hy; simpl in Hm; simpl.
  - destruct Hm as [ch [t [Hr [HA ->]]]].
    unfold CharacterSetMatcher. rewrite Hr, HA. exact Hy.
  - destruct Hm as [Hi ->]. rewrite Hi. exact Hy.
  - destruct Hm as [Hr ->]. rewrite Hr. exact Hy.
  - destruct Hm as [m [H1 H2]].
    apply (IH1 x m); [|exact H1|].
    + intros y0 y0' Hy0. apply compile_agree; assumption.
    + apply (IH2 m y); assumption.
  - destruct Hm as [H1|H2].
    + pose proof (IH1 x y c Hc H1 Hy) as E.
      destruct (compile ic r1 x c); [discriminate|congruence].
    + pose proof (IH2 x y c Hc H2 Hy) as E.
      destruct (compile ic r1 x c); [discriminate|exact E].
  - destruct Hm as [k [Hmin [Hle Hit]]].
    apply (RepeatMatcher_complete r0 IH k _ min x y c); assumption.
  - destruct Hm as [m [H1 ->]].
    apply (IH x m); [|exact H1|exact Hy].
    intros y0 y0' Hy0. apply Hc.
    destruct Hy0 as [Hi Hr]. split; simpl; assumption.
  - destruct Hm as [Hnone ->]. rewrite Hnone. exact Hy.
Qed.

End Completeness.

(** A pattern that matches at some index of the input makes [execFrom]
    succeed. *)
Lemma execFrom_complete (m : Matcher) (pre s : JSString) :
  forall i,
    m (mkState (i + length pre) s noCaptures) accept <> None ->
    execFrom m i (pre ++ s) <> None.
Proof.
  induction pre as [|a pre IH]; intros i H.
  - simpl in H. rewrite Nat.add_0_r in H. simpl.
    destruct s as [|b s]; simpl;
      destruct (m _ accept); try discriminate; congruence.
  - simpl app. simpl execFrom.
    destruct (m (mkState i (a :: pre ++ s) noCaptures) accept);
      [discriminate|].
    apply IH. simpl in H. rewrite Nat.add_succ_r in H. exact H.
Qed.

(** ** Building runs *)

Lemma member_self (A : CharSet) (c : CodeUnit) :
  A c = true -> member true A c = true.
Proof.
  intros H. unfold member, canonicalClass.
  destruct (isLower c); [|destruct (isUpper c)]; simpl; rewrite H; reflexivity.
Qed.

Lemma takes_chars (A : CharSet) (c : CodeUnit) :
  member true A c = true -> takes (Chars A) [c].
Proof.
  intros H x t Hx. simpl in Hx.
  exists (mkState (S (endIndex x)) t (captures x)).
  split; [|split; simpl; [reflexivity|lia]].
  simpl. exists c, t. auto.
Qed.

Lemma takes_seq (r1 r2 : Regex) (w1 w2 : JSString) :
  takes r1 w1 -> takes r2 w2 -> takes (Seq r1 r2) (w1 ++ w2).
Proof.
  intros H1 H2 x t Hx. rewrite <- app_assoc in Hx.
  destruct (H1 x (w2 ++ t) Hx) as [m [Hm [Hr Hi]]].
  destruct (H2 m t Hr) as [y [Hy [Hr' Hi']]].
  exists y. split; [|split; [exact Hr'|rewrite Hi', Hi, length_app; lia]].
  simpl. exists m. auto.
Qed.

Lemma takes_alt_l (r1 r2 : Regex) (w : JSString) :
  takes r1 w -> takes (Alt r1 r2) w.
Proof.
  intros H x t Hx. destruct (H x t Hx) as [y [Hy Hr]].
  exists y. split; [simpl; left; exact Hy|exact Hr].
Qed.

Lemma takes_alt_r (r1 r2 : Regex) (w : JSString) :
  takes r2 w -> takes (Alt r1 r2) w.
Proof.
  intros H x t Hx. destruct (H x t Hx) as [y [Hy Hr]].
  exists y. split; [simpl; right; exact Hy|exact Hr].
Qed.

Lemma takes_group (n : nat) (r : Regex) (w : JSString) :
  takes r w -> takes (Group n r) w.
Proof.
  intros H x t Hx. destruct (H x t Hx) as [m [Hm [Hr Hi]]].
  exists (setCapture n (endIndex x, endIndex m) m).
  split; [|split; simpl; assumption].
  simpl. exists m. auto.
Qed.

Lemma iterate_takes (r0 : Regex) (ws : list JSString) :
  Forall (takes r0) ws ->
  forall x t, rest x = concat ws ++ t ->
              exists y, iterate (matches true r0) (groupsOf r0) (length ws) x y
                        /\ rest y = t
                        /\ endIndex y = endIndex x + length (concat ws).
Proof.
  induction 1 as [|w ws Hw _ IH]; intros x t Hx.
  - exists x. simpl. repeat split; auto.
  - simpl in Hx. rewrite <- app_assoc in Hx.
    destruct (Hw (clearCaptures (groupsOf r0) x) (concat ws ++ t) Hx)
      as [m [Hm [Hr Hi]]].
    destruct (IH m t Hr) as [y [Hy [Hr' Hi']]].
    exists y. split; [|split; [exact Hr'|]].
    + simpl. exists m. auto.
    + simpl concat. rewrite Hi', Hi, length_app. simpl. lia.
Qed.

Lemma length_concat_nonempty (ws : list JSString) :
  Forall (fun w => w <> []) ws -> length ws <= length (concat ws).
Proof.
  induction 1 as [|w ws Hw _ IH]; simpl; [lia|].
  rewrite length_app. destruct w; [congruence|simpl; lia].
Qed.

Lemma takes_quant (r0 : Regex) (min : nat) (max : option nat)
      (ws : list JSString) :
  Forall (takes r0) ws ->
  min <= length ws ->
  match max with
  | Some k => length ws <= k
  | None => Forall (fun w => w <> []) ws
  end ->
  takes (Quant r0 min max) (concat ws).
Proof.
  intros Hws Hmin Hmax x t Hx.
  destruct (iterate_takes r0 ws Hws x t Hx) as [y [Hy Hr]].
  exists y. split; [|exact Hr].
  simpl. exists (length ws). split; [left; exact Hmin|]. split; [|exact Hy].
  unfold budgetOf. destruct max as [k|]; [exact Hmax|].
  apply length_concat_nonempty in Hmax.
  rewrite Hx, length_app. lia.
Qed.

Lemma takes_opt_none (r : Regex) : takes (opt r) [].
Proof. apply (takes_quant r 0 (Some 1) []); simpl; auto. Qed.

Lemma concat_singletons (w : JSString) : concat (map (fun c => [c]) w) = w.
Proof. induction w as [|c w IH]; simpl; [|rewrite IH]; reflexivity. Qed.

(** A quantified class takes any word of members of the right length. *)
Lemma takes_class (A : CharSet) (min : nat) (max : option nat) (w : JSString) :
  Forall (fun c => member true A c = true) w ->
  min <= length w ->
  match max with Some k => length w <= k | None => True end ->
  takes (Quant (Chars A) min max) w.
Proof.
  intros Hw Hmin Hmax.
  rewrite <- (concat_singletons w).
  apply takes_quant.
  - apply Forall_map. eapply Forall_impl; [|exact Hw].
    intros c Hc. apply takes_chars. exact Hc.
  - rewrite length_map. exact Hmin.
  - destruct max; [rewrite length_map; exact Hmax|].
    apply Forall_map. apply Forall_forall. intros c _. discriminate.
Qed.

Lemma takes_lit (c : ascii) : takes (lit c) [cu c].
Proof.
  apply takes_chars. apply member_self. unfold single. apply N.eqb_refl.
Qed.

Lemma takes_opt_some (r : Regex) (w : JSString) : takes r w -> takes (opt r) w.
Proof.
  intros H. rewrite <- (app_nil_r w).
  apply (takes_quant r 0 (Some 1) [w]); simpl; auto.
Qed.

Lemma takes_str (s : string) : takes (str s) (js s).
Proof.
  induction s as [|c s IH].
  - apply (takes_quant (lit "x") 0 (Some 0) []); simpl; auto.
  - destruct s as [|d s].
    + apply takes_lit.
    + apply (takes_seq (lit c) (str (String d s)) [cu c] (js (String d s))).
      * apply takes_lit.
      * exact IH.
Qed.

(** ** The parts of a URL with a scheme *)

Lemma protocolIdentifier_takes (scheme : JSString) :
  In scheme schemes -> takes protocolIdentifier scheme.
Proof.
  assert (Hslashes : takes (Seq (lit "/") (lit "/")) (js "//")).
  { exact (takes_seq _ _ _ _ (takes_lit "/") (takes_lit "/")). }
  intros [<-|[<-|[<-|[<-|[]]]]].
  - refine (takes_seq _ _ (js "http:") (js "//") _ Hslashes).
    apply takes_opt_some.
    refine (takes_seq _ _ (js "http") (js ":") _ (takes_lit ":")).
    apply takes_alt_l.
    exact (takes_seq _ _ (js "http") [] (takes_str "http") (takes_opt_none _)).
  - refine (takes_seq _ _ (js "https:") (js "//") _ Hslashes).
    apply takes_opt_some.
    refine (takes_seq _ _ (js "https") (js ":") _ (takes_lit ":")).
    apply takes_alt_l.
    refine (takes_seq _ _ (js "http") (js "s") (takes_str "http") _).
    apply takes_opt_some. apply takes_lit.
  - refine (takes_seq _ _ (js "ftp:") (js "//") _ Hslashes).
    apply takes_opt_some.
    refine (takes_seq _ _ (js "ftp") (js ":") _ (takes_lit ":")).
    apply takes_alt_r. exact (takes_str "ftp").
  - refine (takes_seq _ _ [] (js "//") _ Hslashes).
    apply takes_opt_none.
Qed.

Lemma hostLabel_takes (l : JSString) :
  isLabel l -> takes hostLabel (l ++ js ".").
Proof.
  intros [[Hlo Hhi] [Hl _]].
  refine (takes_seq _ _ l (js ".") _ (takes_lit ".")).
  apply takes_class; [|exact Hlo|exact Hhi].
  eapply Forall_impl; [|exact Hl]. intros c [Hc _]. exact Hc.
Qed.

Lemma hostLabels_take (labels : list JSString) :
  labels <> [] -> Forall isLabel labels ->
  takes (plus hostLabel) (concat (map (fun l => l ++ js ".") labels)).
Proof.
  intros Hne Hl. apply takes_quant.
  - apply Forall_map. eapply Forall_impl; [|exact Hl].
    intros l. apply hostLabel_takes.
  - rewrite length_map. destruct labels; [congruence|simpl; lia].
  - apply Forall_map. apply Forall_forall. intros l _.
    destruct l; discriminate.
Qed.

Lemma tld_takes (t : JSString) : isTld t -> takes tld t.
Proof.
  intros [[Hlo Hhi] Ht].
  apply takes_class; [|exact Hlo|exact Hhi].
  eapply Forall_impl; [|exact Ht]. intros c [Hc _]. exact Hc.
Qed.

Lemma isDigit_member (c : CodeUnit) : isDigit c -> member true digit c = true.
Proof.
  intros [H1 H2]. apply member_self. unfold digit, arange, range.
  change (cu "0") with 48%N. change (cu "9") with 57%N.
  apply andb_true_intro. split; apply N.leb_le; assumption.
Qed.

Lemma portNumber_takes (p : JSString) : isPort p -> takes portNumber p.
Proof.
  intros [->|[ds [-> [[Hlo Hhi] Hd]]]].
  - apply takes_opt_none.
  - apply takes_opt_some.
    refine (takes_seq _ _ [cu ":"] ds (takes_lit ":") _).
    apply takes_class; [|exact Hlo|exact Hhi].
    eapply Forall_impl; [|exact Hd]. intros c. apply isDigit_member.
Qed.

Lemma resourcePath_takes (p : JSString) : isPath p -> takes resourcePath p.
Proof.
  intros [->|[c [q [-> [Hc Hq]]]]].
  - apply takes_opt_none.
  - apply takes_opt_some.
    refine (takes_seq _ _ [c] q _ _).
    + apply takes_chars. apply member_self.
      destruct Hc as [<-|[<-|[<-|[]]]]; reflexivity.
    + apply takes_class; [|lia|exact I].
      eapply Forall_impl; [|exact Hq]. intros k. apply member_nonSpace.
Qed.

(** The lookahead [(?![-_])] before a label. *)
Lemma dash_lookahead (x : MatchState) (c : CodeUnit) (t : JSString) :
  rest x = c :: t ->
  member true dashOrUnderscore c = false ->
  matches true (NegLookahead (Chars dashOrUnderscore)) x x.
Proof.
  intros Hx Hc. simpl. split; [|reflexivity].
  unfold CharacterSetMatcher. rewrite Hx.
  unfold member in Hc. rewrite Hc. reflexivity.
Qed.

Lemma labels_tld_take (labels : list JSString) (t : JSString) :
  labels <> [] -> Forall isLabel labels -> isTld t ->
  takes (Seq (NegLookahead (Chars dashOrUnderscore)) (Seq (plus hostLabel) tld))
        (hostName labels t).
Proof.
  intros Hne Hl Ht x t' Hx.
  destruct (takes_seq _ _ _ _ (hostLabels_take labels Hne Hl) (tld_takes t Ht)
                      x t' Hx) as [y [Hy Hr]].
  exists y. split; [|exact Hr].
  simpl. exists x. split; [|exact Hy].
  destruct labels as [|l ls]; [congruence|].
  inversion Hl as [|? ? [[Hlo _] [_ Hfirst]] _]; subst.
  destruct l as [|c l]; [simpl in Hlo; lia|].
  apply (dash_lookahead x c (l ++ js "." ++ concat (map (fun l => l ++ js ".") ls)
                               ++ t ++ t')).
  - rewrite Hx. unfold hostName. simpl.
    rewrite <- !app_assoc. reflexivity.
  - apply (Hfirst c l). reflexivity.
Qed.

(** ** The host name, with its lookahead on [www.] *)

Lemma isLetterW_member (a : CodeUnit) :
  isLetterW a -> member true (single "w") a = true.
Proof. intros [->| ->]; reflexivity. Qed.

Lemma isLetterW_lower (a : CodeUnit) : isLetterW a -> toLowerAscii a = cu "w".
Proof. intros [->| ->]; reflexivity. Qed.

Lemma isLetterW_not_dot (a : CodeUnit) : isLetterW a -> a <> cu ".".
Proof. intros [->| ->]; discriminate. Qed.

Lemma www_takes (a b c : CodeUnit) :
  isLetterW a -> isLetterW b -> isLetterW c ->
  takes (str "www.") [a; b; c; cu "."].
Proof.
  intros Ha Hb Hc.
  refine (takes_seq _ _ [a] [b; c; cu "."] _ _);
    [apply takes_chars, isLetterW_member, Ha|].
  refine (takes_seq _ _ [b] [c; cu "."] _ _);
    [apply takes_chars, isLetterW_member, Hb|].
  refine (takes_seq _ _ [c] [cu "."] _ (takes_lit "."));
    apply takes_chars, isLetterW_member, Hc.
Qed.

Lemma Lang_www_letters (w : JSString) :
  Lang true (str "www.") w ->
  exists a b c, w = [a; b; c; cu "."]
                /\ isLetterW a /\ isLetterW b /\ isLetterW c.
Proof.
  intros [w1 [r1 [-> [[a [-> Ha]] H]]]].
  destruct H as [w2 [r2 [-> [[b [-> Hb]] H]]]].
  destruct H as [w3 [r3 [-> [[c [-> Hc]] [d [-> Hd]]]]]].
  apply member_single_w in Ha, Hb, Hc.
  apply member_single_below_letters in Hd; [|vm_compute; reflexivity].
  subst d. exists a, b, c. auto.
Qed.

Lemma hostChar_not_dot (c : CodeUnit) :
  member true hostChar c = true -> c <> cu ".".
Proof. intros H ->. vm_compute in H. discriminate. Qed.

(** When the lookahead [(?!www\.)] fails before a label and its dot, the
    label is [www], in some case of its letters. *)
Lemma www_label (x : MatchState) (l t : JSString) (z : MatchState) :
  Forall (fun c => member true hostChar c = true) l ->
  rest x = l ++ js "." ++ t ->
  compile true (str "www.") x accept = Some z ->
  exists a b c, l = [a; b; c] /\ isLetterW a /\ isLetterW b /\ isLetterW c.
Proof.
  intros Hl Hx H.
  apply compile_sound in H. destruct H as [y [Hm _]].
  apply matches_lang in Hm. destruct Hm as [w [[Hw _] HL]].
  apply Lang_www_letters in HL.
  destruct HL as [a [b [c [-> [Ha [Hb Hc]]]]]].
  exists a, b, c. split; [|auto].
  rewrite Hx in Hw. clear Hx.
  assert (Hnd : forall k, In k l -> k <> cu ".").
  { intros k Hk. rewrite Forall_forall in Hl.
    apply hostChar_not_dot. apply Hl. exact Hk. }
  apply isLetterW_not_dot in Ha, Hb, Hc.
  destruct l as [|x1 [|x2 [|x3 [|x4 l]]]]; simpl in Hw;
    injection Hw; intros; subst.
  - exfalso. apply Ha. reflexivity.
  - exfalso. apply Hb. reflexivity.
  - exfalso. apply Hc. reflexivity.
  - reflexivity.
  - exfalso. apply (Hnd (cu ".")); [|reflexivity].
    right. right. right. left. reflexivity.
Qed.

Lemma domainName_takes (labels : list JSString) (t : JSString) :
  labels <> [] -> Forall isLabel labels -> isTld t ->
  (forall l, labels = [l] -> map toLowerAscii l <> js "www") ->
  takes domainName (hostName labels t).
Proof.
  intros Hne Hl Ht Hwww x t' Hx.
  destruct labels as [|l ls]; [congruence|].
  assert (Hx' : rest x = l ++ js "." ++ (hostName ls t ++ t')).
  { rewrite Hx. unfold hostName. simpl. rewrite <- !app_assoc. reflexivity. }
  inversion Hl as [|? ? Hl1 Hls]; subst.
  assert (Hrun :
    exists y, matches true
                (Seq (Group 5 (Alt (NegLookahead (str "www."))
                                   (Group 6 (str "www."))))
                     (Seq (NegLookahead (Chars dashOrUnderscore))
                          (Seq (plus hostLabel) tld))) x y
              /\ rest y = t'
              /\ endIndex y = endIndex x + length (hostName (l :: ls) t)).
  { destruct (compile true (str "www.") x accept) as [z|] eqn:Elook.
    - (* the host starts with [www.] *)
      assert (Hhost : Forall (fun c => member true hostChar c = true) l).
      { destruct Hl1 as [_ [Hh _]]. eapply Forall_impl; [|exact Hh].
        intros c [Hc _]. exact Hc. }
      destruct (www_label x l _ z Hhost Hx' Elook)
        as [a [b [c [-> [Ha [Hb Hc]]]]]].
      assert (Hls' : ls <> []).
      { intros ->. apply (Hwww [a; b; c] eq_refl). simpl.
        rewrite (isLetterW_lower a Ha), (isLetterW_lower b Hb),
          (isLetterW_lower c Hc). reflexivity. }
      assert (Hg : takes (Group 5 (Alt (NegLookahead (str "www."))
                                       (Group 6 (str "www."))))
                         [a; b; c; cu "."]).
      { apply takes_group, takes_alt_r, takes_group, www_takes; assumption. }
      exact (takes_seq _ _ _ _ Hg (labels_tld_take ls t Hls' Hls Ht) x t' Hx').
    - (* it does not: the lookahead holds and group 5 is empty *)
      set (x1 := setCapture 5 (endIndex x, endIndex x) x).
      destruct (labels_tld_take (l :: ls) t Hne Hl Ht x1 t' Hx)
        as [y [Hy Hr]].
      exists y. split; [|exact Hr].
      simpl. exists x1. split; [|exact Hy].
      exists x. split; [|reflexivity].
      left. split; [exact Elook|reflexivity]. }
  destruct Hrun as [y [Hy [Hr Hi]]].
  exists (setCapture 4 (endIndex x, endIndex y) y).
  split; [|split; simpl; assumption].
  simpl. exists y. split; [exact Hy|reflexivity].
Qed.

Lemma fullForm_takes (cand : JSString) : plainUrl cand -> takes fullForm cand.
Proof.
  intros [scheme [labels [t [port [path [-> H]]]]]].
  destruct H as [Hs [Hne [Hl [Ht [Hport [Hpath Hwww]]]]]].
  apply takes_group.
  apply (takes_seq _ _ scheme _ (protocolIdentifier_takes scheme Hs)).
  apply (takes_seq _ _ [] _ (takes_opt_none _)).
  apply (takes_seq _ _ (hostName labels t) _).
  - apply takes_alt_r. apply domainName_takes; assumption.
  - apply (takes_seq _ _ port path).
    + apply portNumber_takes. exact Hport.
    + apply resourcePath_takes. exact Hpath.
Qed.

(** ** A URL with a scheme is matched *)

Lemma plainSpaces_space (ws : CodeUnit) :
  In ws plainSpaces -> isWhiteSpace ws = true.
Proof.
  intros H. simpl in H.
  repeat (destruct H as [<-|H]; [reflexivity|]). destruct H.
Qed.

Lemma candidate_exec (pre cand : JSString) :
  afterPlainSpace pre -> takes urlAlternatives cand ->
  exec URL_REG_EXP (pre ++ cand) <> None.
Proof.
  intros Hpre Hurl.
  assert (Hg2 : takes (Group 2 urlAlternatives) cand).
  { apply takes_group, Hurl. }
  unfold exec. rewrite URL_REG_EXP_source.
  change (ignoreCase URL_REG_EXP) with true.
  destruct Hpre as [->|[p [ws [-> Hws]]]].
  - apply (execFrom_complete _ [] cand 0).
    set (x0 := mkState (0 + length (@nil CodeUnit)) cand noCaptures).
    destruct (Hg2 (setCapture 1 (endIndex x0, endIndex x0) x0) [])
      as [y [Hy [Hr _]]]; [simpl; rewrite app_nil_r; reflexivity|].
    apply (compile_complete true _ x0 y accept agree_accept);
      [|discriminate].
    simpl. exists (setCapture 1 (endIndex x0, endIndex x0) x0). split.
    + exists x0. split; [left; split; reflexivity|reflexivity].
    + exists y. split; [exact Hy|split; [exact Hr|reflexivity]].
  - rewrite <- app_assoc.
    apply (execFrom_complete _ p ([ws] ++ cand) 0).
    set (x0 := mkState (0 + length p) ([ws] ++ cand) noCaptures).
    assert (Hg1 : takes (Group 1 (Alt LineStart (Chars space))) [ws]).
    { apply takes_group, takes_alt_r, takes_chars, member_space,
        plainSpaces_space, Hws. }
    destruct (takes_seq _ _ _ _ Hg1 Hg2 x0 []) as [y [Hy [Hr _]]];
      [simpl; rewrite app_nil_r; reflexivity|].
    apply (compile_complete true _ x0 y accept agree_accept);
      [|discriminate].
    destruct Hy as [m [H1 H2]].
    exists m. split; [exact H1|].
    exists y. split; [exact H2|split; [exact Hr|reflexivity]].
Qed.

(** ** A match does not reach back over a plain space *)

Lemma wordsAvoid_iter (ks : list CodeUnit) (L : JSString -> Prop) :
  (forall w, L w -> forall k, In k ks -> ~ In k w) ->
  forall n w, LangIter L n w -> forall k, In k ks -> ~ In k w.
Proof.
  intros HL n. induction n as [|n IH]; intros w H k Hk Hin.
  - simpl in H. subst w. destruct Hin.
  - destruct H as [w1 [w2 [-> [H1 H2]]]].
    apply in_app_or in Hin. destruct Hin as [Hin|Hin].
    + exact (HL w1 H1 k Hk Hin).
    + exact (IH w2 H2 k Hk Hin).
Qed.

Lemma wordsAvoid_sound (ic : bool) (ks : list CodeUnit) (r : Regex) :
  wordsAvoid ic ks r = true ->
  forall w, Lang ic r w -> forall k, In k ks -> ~ In k w.
Proof.
  induction r as [A| | |r1 IH1 r2 IH2|r1 IH1 r2 IH2|r0 IH min max|n r0 IH|r0 IH];
    intros Hav w H k Hk Hin; simpl in Hav, H.
  - destruct H as [c [-> Hc]].
    destruct Hin as [<-|[]].
    exact (avoids_sound ic ks A c Hav Hc Hk).
  - subst w. destruct Hin.
  - subst w. destruct Hin.
  - apply andb_prop in Hav. destruct Hav as [Ha1 Ha2].
    destruct H as [w1 [w2 [-> [H1 H2]]]].
    apply in_app_or in Hin. destruct Hin as [Hin|Hin].
    + exact (IH1 Ha1 w1 H1 k Hk Hin).
    + exact (IH2 Ha2 w2 H2 k Hk Hin).
  - apply andb_prop in Hav. destruct Hav as [Ha1 Ha2].
    destruct H as [H|H].
    + exact (IH1 Ha1 w H k Hk Hin).
    + exact (IH2 Ha2 w H k Hk Hin).
  - destruct H as [n [_ H]].
    exact (wordsAvoid_iter ks (Lang ic r0) (IH Hav) n w H k Hk Hin).
  - exact (IH Hav w H k Hk Hin).
  - subst w. destruct Hin.
Qed.

Lemma isLetterW_not_plainSpace (a : CodeUnit) :
  isLetterW a -> ~ In a plainSpaces.
Proof.
  intros [->| ->] H; simpl in H;
    repeat (destruct H as [H|H]; [discriminate|]); destruct H.
Qed.

(** In a match a plain space can only be the code unit the unescaped
    dot of [www.] stands for: it comes right after the three letters the
    match starts with, and neither a slash nor an at sign comes after
    it. *)
Lemma plain_space_in_match (u v : JSString) (ws : CodeUnit) :
  Lang true urlAlternatives (u ++ ws :: v) ->
  In ws plainSpaces ->
  (exists a b c, u = [a; b; c] /\ isLetterW a /\ isLetterW b /\ isLetterW c)
  /\ (forall k, In k [cu "/"; cu "@"] -> ~ In k v).
Proof.
  intros [HF|HS] Hws.
  - exfalso.
    apply (wordsAvoid_sound true plainSpaces fullForm eq_refl _ HF ws Hws).
    apply in_or_app. right. left. reflexivity.
  - destruct HS as [a [b [E [Ha Hb]]]].
    pose proof (fun Hav => wordsAvoid_sound true
                             (cu "/" :: cu "@" :: plainSpaces) _
                             Hav b Hb) as Hav.
    specialize (Hav eq_refl).
    assert (Hb' : ~ In ws b).
    { apply Hav. right. right. exact Hws. }
    apply app_eq_app in E. destruct E as [l [[Eu Eb]|[Ea Ev]]].
    + exfalso. apply Hb'.
      rewrite Eb. apply in_or_app. right. left. reflexivity.
    + destruct l as [|k l'].
      * exfalso. simpl in Ev. apply Hb'. rewrite <- Ev. left. reflexivity.
      * simpl in Ev. injection Ev. intros Ev' Ek. subst k v.
        destruct Ha as [Ha|Ha].
        -- destruct Ha as [x1 [y1 [E1 [H1 [d [-> Hd]]]]]].
           destruct H1 as [p1 [q1 [-> [[c1 [-> Hc1]] H1]]]].
           destruct H1 as [p2 [q2 [-> [[c2 [-> Hc2]] [c3 [-> Hc3]]]]]].
           apply member_single_w in Hc1, Hc2, Hc3.
           pose proof (isLetterW_not_plainSpace c1 Hc1) as Hn1.
           pose proof (isLetterW_not_plainSpace c2 Hc2) as Hn2.
           pose proof (isLetterW_not_plainSpace c3 Hc3) as Hn3.
           rewrite Ea in E1. simpl in E1.
           destruct u as [|u1 [|u2 [|u3 [|u4 u]]]]; simpl in E1;
             injection E1; intros; subst; try contradiction.
           ++ split; [exists c1, c2, c3; auto|].
              intros k Hk. simpl. apply Hav.
              destruct Hk as [<-|[<-|[]]];
                [left; reflexivity|right; left; reflexivity].
           ++ destruct u; discriminate.
        -- exfalso.
           pose proof (fun Hav9 => wordsAvoid_sound true plainSpaces _
                                                     Hav9 a Ha ws Hws) as Hav9.
           apply (Hav9 eq_refl).
           rewrite Ea. apply in_or_app. right. left. reflexivity.
Qed.

(** ** No white space, and a slash, in a URL with a scheme *)

Lemma hostName_no_space (labels : list JSString) (t : JSString) :
  Forall isLabel labels -> isTld t ->
  Forall (fun c => isWhiteSpace c = false) (hostName labels t).
Proof.
  intros Hl [_ Ht]. unfold hostName. apply Forall_app. split.
  - induction Hl as [|l ls [_ [Hc _]] _ IH]; simpl; [constructor|].
    rewrite <- app_assoc. apply Forall_app. split.
    + eapply Forall_impl; [|exact Hc]. intros c [_ H]. exact H.
    + simpl. constructor; [reflexivity|exact IH].
  - eapply Forall_impl; [|exact Ht]. intros c [_ H]. exact H.
Qed.

Lemma plainUrl_no_space (cand : JSString) :
  plainUrl cand -> Forall (fun c => isWhiteSpace c = false) cand.
Proof.
  intros [scheme [labels [t [port [path [-> H]]]]]].
  destruct H as [Hs [_ [Hl [Ht [Hport [Hpath _]]]]]].
  apply Forall_app; split;
    [|apply Forall_app; split; [|apply Forall_app; split]].
  - destruct Hs as [<-|[<-|[<-|[<-|[]]]]]; repeat constructor.
  - apply hostName_no_space; assumption.
  - destruct Hport as [->|[ds [-> [_ Hd]]]]; constructor; [reflexivity|].
    eapply Forall_impl; [|exact Hd].
    intros c Hc. apply quadChar_not_space. left. exact Hc.
  - destruct Hpath as [->|[c [q [-> [Hc Hq]]]]]; constructor; [|exact Hq].
    destruct Hc as [<-|[<-|[<-|[]]]]; reflexivity.
Qed.

Lemma plainUrl_has_slash (cand : JSString) : plainUrl cand -> In (cu "/") cand.
Proof.
  intros [scheme [labels [t [port [path [-> [Hs _]]]]]]].
  apply in_or_app. left.
  destruct Hs as [<-|[<-|[<-|[<-|[]]]]]; simpl; auto 10.
Qed.

(** A candidate the pattern takes, without white space, after a plain
    space or at the text start, is the match: unless the match can
    start before it, which takes a [w] just before that space and
    neither slash nor at sign in the candidate. *)
Lemma candidate_is_match (pre cand : JSString) :
  afterPlainSpace pre ->
  takes urlAlternatives cand ->
  Forall (fun c => isWhiteSpace c = false) cand ->
  ((exists k, In k [cu "/"; cu "@"] /\ In k cand)
   \/ (forall p c ws, pre = p ++ [c; ws] -> ~ isLetterW c)) ->
  getUrlAtTextEnd (pre ++ cand) = Some cand.
Proof.
  intros Hpre Hurl Hns Hback.
  pose proof (candidate_exec pre cand Hpre Hurl) as Hex.
  destruct (getUrlAtTextEnd (pre ++ cand)) as [r|] eqn:E;
    [|exfalso; apply Hex; apply getUrlAtTextEnd_null; exact E].
  f_equal.
  apply getUrlAtTextEnd_shape in E. destruct E as [pre' [Et [Hpre' HL]]].
  apply app_eq_app in Et. destruct Et as [l [[Ep Er]|[Ep Ec]]].
  - (* the match would start before the candidate *)
    destruct l as [|k l]; [simpl in Er; exact Er|exfalso].
    destruct Hpre as [->|[p [ws [-> Hws]]]];
      [destruct pre'; discriminate|].
    destruct (last_of_app_eq pre' p k ws (k :: l)) as [l' El];
      [discriminate|symmetry; exact Ep|].
    rewrite El, <- app_assoc in Er. subst r.
    destruct (plain_space_in_match l' cand ws HL Hws)
      as [[a [b [c [-> [_ [_ Hc]]]]]] Hno].
    destruct Hback as [[k' [Hk' Hin]]|Hback].
    + exact (Hno k' Hk' Hin).
    + apply (Hback (pre' ++ [a; b]) c ws); [|exact Hc].
      rewrite El in Ep. rewrite Ep, <- app_assoc. reflexivity.
  - (* the match would start inside the candidate *)
    destruct l as [|k l]; [simpl in Ec; symmetry; exact Ec|exfalso].
    destruct Hpre' as [->|[q [ws [-> Hws]]]];
      [destruct pre; discriminate|].
    destruct (last_of_app_eq pre q k ws (k :: l)) as [l' El];
      [discriminate|symmetry; exact Ep|].
    rewrite Forall_forall in Hns.
    assert (Hin : In ws cand).
    { rewrite Ec, El. apply in_or_app. left. apply in_or_app. right.
      left. reflexivity. }
    apply Hns in Hin. congruence.
Qed.

(** X9: a URL with a scheme is linked, and in full: when the text ends
    with [http://], [https://], [ftp://] or [//], a host name (labels of
    1 to 63 code units of the class of the pattern, none starting with
    [-] or [_], and a top-level domain of 2 to 63; not [www] and a
    top-level domain alone), then maybe a colon and 2 to 5 digits, then
    maybe a path, and this candidate starts the text or follows a plain
    white space, the match is the whole candidate. *)
Theorem url_with_scheme_is_linked (pre cand : JSString) :
  afterPlainSpace pre -> plainUrl cand ->
  getUrlAtTextEnd (pre ++ cand) = Some cand.
Proof.
  intros Hpre Hurl.
  apply candidate_is_match.
  - exact Hpre.
  - apply takes_alt_l, fullForm_takes, Hurl.
  - apply plainUrl_no_space, Hurl.
  - left. exists (cu "/"). split; [left; reflexivity|].
    apply plainUrl_has_slash, Hurl.
Qed.

Ltac label_ok :=
  split; [simpl; lia|];
  split; [repeat constructor|];
  intros c l' E; vm_compute in E; injection E; intros; subst; reflexivity.

Lemma url_with_scheme_is_linked_witness :
  getUrlAtTextEnd (js "see " ++ js "http://www.example.com:8080/a?b#c")
  = Some (js "http://www.example.com:8080/a?b#c").
Proof.
  apply (url_with_scheme_is_linked (js "see ")
                                   (js "http://www.example.com:8080/a?b#c")).
  - right. exists (js "see"), SPACE. split; [reflexivity|].
    right. right. right. right. right. left. reflexivity.
  - exists (js "http://"), [js "www"; js "example"], (js "com"),
      (js ":8080"), (js "/a?b#c").
    split; [reflexivity|].
    split; [left; reflexivity|].
    split; [discriminate|].
    split; [constructor; [label_ok|constructor; [label_ok|constructor]]|].
    split; [split; [simpl; lia|repeat constructor]|].
    split; [right; exists (js "8080");
            split; [reflexivity|split; [simpl; lia|]];
            repeat constructor; vm_compute; discriminate|].
    split; [right; exists (cu "/"), (js "a?b#c");
            split; [reflexivity|split; [left; reflexivity|repeat constructor]]|].
    intros l E. discriminate E.
Defined.

(** Why the white space before the candidate is a plain one: the class
    of a top-level domain has U+3000, after which [//b.cc] is a path. *)
Example ideographic_space_is_crossed :
  getUrlAtTextEnd (js "//a.bc" ++ [12288%N] ++ js "//b.cc")
  = Some (js "//a.bc" ++ [12288%N] ++ js "//b.cc").
Proof. vm_compute. reflexivity. Qed.

(** ** The short forms *)

Lemma shortLabel_takes (l : JSString) :
  isLabel l ->
  takes (Group 10 (seq [NegLookahead (Chars dashOrUnderscore); hostLabel]))
        (l ++ js ".").
Proof.
  intros Hl. apply takes_group. intros x t Hx.
  destruct (hostLabel_takes l Hl x t Hx) as [y [Hy Hr]].
  exists y. split; [|exact Hr].
  exists x. split; [|exact Hy].
  destruct Hl as [[Hlo _] [_ Hfirst]].
  destruct l as [|c l]; [simpl in Hlo; lia|].
  apply (dash_lookahead x c (l ++ js "." ++ t)).
  - rewrite Hx. simpl. rewrite <- app_assoc. reflexivity.
  - apply (Hfirst c l). reflexivity.
Qed.

Lemma shortHost_takes (labels : list JSString) (t : JSString) :
  labels <> [] -> Forall isLabel labels -> isTld t ->
  takes (Seq (plus (Group 10 (seq [NegLookahead (Chars dashOrUnderscore);
                                   hostLabel])))
             tld)
        (hostName labels t).
Proof.
  intros Hne Hl Ht. apply takes_seq; [|apply tld_takes, Ht].
  apply takes_quant.
  - apply Forall_map. eapply Forall_impl; [|exact Hl].
    intros l. apply shortLabel_takes.
  - rewrite length_map. destruct labels; [congruence|simpl; lia].
  - apply Forall_map. apply Forall_forall. intros l _.
    destruct l; discriminate.
Qed.

Lemma shortForm_takes_www (labels : list JSString) (t : JSString) :
  labels <> [] -> Forall isLabel labels -> isTld t ->
  takes shortForm (js "www." ++ hostName labels t).
Proof.
  intros Hne Hl Ht. apply takes_group.
  apply (takes_seq _ _ (js "www.") _); [|apply shortHost_takes; assumption].
  apply takes_group, takes_alt_l.
  refine (takes_seq _ _ (js "www") (js ".") (takes_str "www") _).
  apply takes_chars. reflexivity.
Qed.

Lemma shortForm_takes_email (loc : JSString) (labels : list JSString)
      (t : JSString) :
  loc <> [] -> Forall (fun c => isWhiteSpace c = false) loc ->
  labels <> [] -> Forall isLabel labels -> isTld t ->
  takes shortForm (loc ++ js "@" ++ hostName labels t).
Proof.
  intros Hloc Hns Hne Hl Ht. rewrite app_assoc. apply takes_group.
  apply (takes_seq _ _ (loc ++ js "@") _); [|apply shortHost_takes; assumption].
  apply takes_group, takes_alt_r, takes_group.
  refine (takes_seq _ _ loc (js "@") _ (takes_lit "@")).
  apply takes_class; [|destruct loc; [congruence|simpl; lia]|exact I].
  eapply Forall_impl; [|exact Hns]. intros k. apply member_nonSpace.
Qed.

(** X10: the two short forms are linked in full.  An address: a local
    part without white space, [@] and a host name, at the text start or
    after a plain white space.  A host with [www.]: [www.], labels and a
    top-level domain, at the text start or after a plain white space
    that does not follow a [w]: after [www] and a space, the match would
    start at that [www], the space standing for the unescaped dot. *)
Theorem short_forms_are_linked :
  (forall pre loc labels t,
      afterPlainSpace pre ->
      loc <> [] -> Forall (fun c => isWhiteSpace c = false) loc ->
      labels <> [] -> Forall isLabel labels -> isTld t ->
      getUrlAtTextEnd (pre ++ loc ++ js "@" ++ hostName labels t)
      = Some (loc ++ js "@" ++ hostName labels t))
  /\ (forall pre labels t,
         afterPlainSpace pre ->
         (forall p c ws, pre = p ++ [c; ws] -> ~ isLetterW c) ->
         labels <> [] -> Forall isLabel labels -> isTld t ->
         getUrlAtTextEnd (pre ++ js "www." ++ hostName labels t)
         = Some (js "www." ++ hostName labels t)).
Proof.
  split.
  - intros pre loc labels t Hpre Hloc Hns Hne Hl Ht.
    apply candidate_is_match.
    + exact Hpre.
    + apply takes_alt_r, shortForm_takes_email; assumption.
    + apply Forall_app. split; [exact Hns|].
      simpl. constructor; [reflexivity|].
      apply hostName_no_space; assumption.
    + left. exists (cu "@"). split; [right; left; reflexivity|].
      apply in_or_app. right. left. reflexivity.
  - intros pre labels t Hpre Hback Hne Hl Ht.
    apply candidate_is_match.
    + exact Hpre.
    + apply takes_alt_r, shortForm_takes_www; assumption.
    + apply Forall_app. split; [repeat constructor|].
      apply hostName_no_space; assumption.
    + right. exact Hback.
Qed.

Lemma short_forms_are_linked_witness :
  getUrlAtTextEnd (js "mail " ++ js "user" ++ js "@"
                      ++ hostName [js "example"] (js "com"))
  = Some (js "user" ++ js "@" ++ hostName [js "example"] (js "com"))
  /\ getUrlAtTextEnd (js "see " ++ js "www."
                         ++ hostName [js "example"] (js "com"))
     = Some (js "www." ++ hostName [js "example"] (js "com")).
Proof.
  assert (Hl : Forall isLabel [js "example"]).
  { constructor; [label_ok|constructor]. }
  assert (Ht : isTld (js "com")).
  { split; [simpl; lia|repeat constructor]. }
  split.
  - apply (proj1 short_forms_are_linked (js "mail ") (js "user")
                 [js "example"] (js "com")).
    + right. exists (js "mail"), SPACE. split; [reflexivity|].
      right. right. right. right. right. left. reflexivity.
    + discriminate.
    + repeat constructor.
    + discriminate.
    + exact Hl.
    + exact Ht.
  - apply (proj2 short_forms_are_linked (js "see ")
                 [js "example"] (js "com")).
    + right. exists (js "see"), SPACE. split; [reflexivity|].
      right. right. right. right. right. left. reflexivity.
    + intros p c ws E.
      change (js "see ") with ((js "se" ++ [cu "e"]) ++ [SPACE]) in E.
      change (p ++ [c; ws]) with (p ++ [c] ++ [ws]) in E.
      rewrite app_assoc in E.
      apply app_inj_tail in E. destruct E as [E _].
      apply app_inj_tail in E. destruct E as [_ <-].
      intros [H|H]; discriminate H.
    + discriminate.
    + exact Hl.
    + exact Ht.
Defined.

(** Why the space must not follow a [w]. *)
Example www_after_www :
  getUrlAtTextEnd (js "www www.example.com") = Some (js "www www.example.com").
Proof. vm_compute. reflexivity. Qed.
